(* ========================================================================= *)
(*  triviaGame: the game state machine, verified over a shallow embedding    *)
(*                                                                           *)
(*  Source files embedded here                                               *)
(*    src/types/game.types.ts        board constants, stars, players, twists *)
(*    src/components/game/CircularBoard.tsx   TOTAL_STEPS, GATE_POSITIONS    *)
(*    src/lib/twistHandlers.ts       findPreviousGate, executeImmediateTwist *)
(*    src/hooks/useTwists.ts         the modifier store                      *)
(*    src/hooks/useQuestions.ts      selectQuestionByDifficulty              *)
(*    src/data/twists.ts             the catalogue of twist cards            *)
(*    src/app/game/page.tsx          the turn and phase handlers             *)
(*                                                                           *)
(*  Conventions                                                              *)
(*    - a JavaScript number that holds an integer is a Z;                    *)
(*    - the operator % is the truncated remainder, Z.rem;                    *)
(*    - Math.random is an explicit argument of the function that calls it;   *)
(*    - a React handler reads the values captured by the render that built   *)
(*      it and writes through setters; where both matter the handler takes   *)
(*      the captured state and the latest state as two arguments.            *)
(* ========================================================================= *)

From Stdlib Require Import ZArith List Bool Lia Permutation.
From Stdlib Require String DecimalString DecimalNat Finite.
Import ListNotations.
Import String.StringSyntax.

Abbreviation string := String.string.

Local Open Scope Z_scope.

(* ------------------------------------------------------------------------- *)
(*  JavaScript primitives used by the game code                              *)
(* ------------------------------------------------------------------------- *)
Module JS.

(* a % b on integers: the sign follows the dividend.  With b = 0 JavaScript
   gives NaN; every call below has b = 25 or b = players.length, and the
   page renders the board only when players.length is positive. *)
Definition rem (a b : Z) : Z := Z.rem a b.

(* if (v) ... on an optional number: undefined and 0 are falsy. *)
Definition truthy (v : option Z) : bool :=
  match v with
  | Some n => negb (n =? 0)
  | None => false
  end.

(* v || d on an optional number. *)
Definition orElse (v : option Z) (d : Z) : Z :=
  match v with
  | Some n => if n =? 0 then d else n
  | None => d
  end.

(* Math.max(...(x :: xs)) *)
Definition max_of (x : Z) (xs : list Z) : Z := fold_left Z.max xs x.

(* arr.includes(x) on an array of numbers *)
Definition includes (arr : list Z) (x : Z) : bool := existsb (Z.eqb x) arr.

(* arr[Math.floor(Math.random() * arr.length)]: r stands for the random
   draw; any index below arr.length can come out. *)
Definition pick {A : Type} (r : nat) (arr : list A) : option A :=
  nth_error arr (Nat.modulo r (length arr)).

(* arr.find(f) *)
Definition find_first {A : Type} (f : A -> bool) (arr : list A) : option A :=
  List.find f arr.

End JS.

(* ------------------------------------------------------------------------- *)
(*  src/types/game.types.ts                                                  *)
(* ------------------------------------------------------------------------- *)
Module GameTypes.

Inductive KnowledgeCategory : Type :=
| history | sport | bible | culture | geography | science | other.

Definition category_eqb (a b : KnowledgeCategory) : bool :=
  match a, b with
  | history, history | sport, sport | bible, bible | culture, culture
  | geography, geography | science, science | other, other => true
  | _, _ => false
  end.

Record TriviaQuestion : Type := mkQuestion {
  q_id : string;
  q_difficulty : Z;
  q_category : KnowledgeCategory
}.

Inductive PlayerType : Type := human | digital.

Record Player : Type := mkPlayer {
  p_id : string;
  p_name : string;
  p_type : PlayerType;
  score : Z;
  boardPosition : Z;
  starsCollected : Z;
  avatarEmoji : string
}.

Definition BOARD_TOTAL_STEPS : Z := 25.
Definition BOARD_GATE_POSITIONS : list Z := [0; 5; 10; 15; 20].

Definition STAR_POINT_VALUES : list Z :=
  [0; 50; 50; 100; 100; 150; 150; 200; 200; 250].
Definition TOTAL_STARS : Z := 10.

Record StarState : Type := mkStar {
  s_id : Z;
  pointValue : Z;
  isEarned : bool;
  earnedByPlayerId : option string
}.

(* createInitialStars: shuffledValues is the outcome of shuffleArray on
   STAR_POINT_VALUES; the map gives star number index the value at index. *)
Fixpoint starsFrom (index : Z) (shuffledValues : list Z) : list StarState :=
  match shuffledValues with
  | [] => []
  | v :: rest => mkStar index v false None :: starsFrom (index + 1) rest
  end.

Definition createInitialStars (shuffledValues : list Z) : list StarState :=
  starsFrom 0 shuffledValues.

Inductive TwistEffectType : Type :=
| move_back_gate | others_back_gate | free_star | steal_star
| bonus_question | instant_points | upgrade_zero_star | extra_turn
| swap_positions | double_next | teleport_gate | freeze_player
| reverse_order | star_peek | shield | everyone_moves | random_teleport
| category_master | difficulty_choice | points_swap.

Inductive TargetScope : Type :=
| target_self | target_others | target_choose | target_all | target_random.

Record TwistCard : Type := mkTwist {
  t_id : string;
  effectType : TwistEffectType;
  effectValue : option Z;
  targetPlayer : option TargetScope;
  isPositive : bool;
  requiresChoice : bool;
  requiresQuestion : bool
}.

Inductive ModifierType : Type :=
| mod_double_next | mod_shield | mod_frozen | mod_category_master.

Definition modtype_eqb (a b : ModifierType) : bool :=
  match a, b with
  | mod_double_next, mod_double_next | mod_shield, mod_shield
  | mod_frozen, mod_frozen | mod_category_master, mod_category_master => true
  | _, _ => false
  end.

(* value?: string | number  -- a category name or a multiplier *)
Inductive ModifierValue : Type :=
| val_number (n : Z)
| val_category (c : KnowledgeCategory).

Record PlayerModifier : Type := mkModifier {
  playerId : string;
  m_type : ModifierType;
  turnsRemaining : Z;
  m_value : option ModifierValue
}.

End GameTypes.
Import GameTypes.

(* ------------------------------------------------------------------------- *)
(*  Board geometry: src/components/game/CircularBoard.tsx (constants),       *)
(*  src/app/game/page.tsx (getGatesPassed), src/lib/twistHandlers.ts         *)
(* ------------------------------------------------------------------------- *)
Module Board.

Definition TOTAL_STEPS : Z := 25.
Definition GATE_POSITIONS : list Z := [0; 5; 10; 15; 20].

(* for (let i = 1; i <= steps; i++) { pos = (startPos + i) % TOTAL_STEPS;
     if (GATE_POSITIONS.includes(pos)) gatesPassed.push(pos); }
   todo counts the iterations that are left. *)
Fixpoint gatesLoop (startPos i : Z) (todo : nat) (gatesPassed : list Z)
  : list Z :=
  match todo with
  | O => gatesPassed
  | S todo' =>
      let pos := JS.rem (startPos + i) TOTAL_STEPS in
      gatesLoop startPos (i + 1) todo'
        (if JS.includes GATE_POSITIONS pos
         then gatesPassed ++ [pos] else gatesPassed)
  end.

Definition getGatesPassed (startPos steps : Z) : list Z :=
  gatesLoop startPos 1 (Z.to_nat steps) [].

(* const newPosition = (player.boardPosition + movement.steps) % TOTAL_STEPS *)
Definition newPosition (boardPos steps : Z) : Z :=
  JS.rem (boardPos + steps) TOTAL_STEPS.

(* findPreviousGate (twistHandlers.ts) *)
Definition findPreviousGate (currentPosition : Z) : Z :=
  let previousGates :=
    filter (fun g => g <? currentPosition) BOARD_GATE_POSITIONS in
  match previousGates with
  | g :: rest => JS.max_of g rest
  | [] => nth (length BOARD_GATE_POSITIONS - 1) BOARD_GATE_POSITIONS 0
  end.

End Board.
Import Board.

(* ------------------------------------------------------------------------- *)
(*  src/hooks/useTwists.ts: the modifier store                               *)
(* ------------------------------------------------------------------------- *)
Module UseTwists.

(* m.playerId === playerId && m.type === type *)
Definition matches (pid : string) (ty : ModifierType) (m : PlayerModifier)
  : bool :=
  String.eqb (playerId m) pid && modtype_eqb (m_type m) ty.

(* setModifiers(prev => [...prev.filter(m => !(same player and type)),
                         modifier]) *)
Definition addModifier (modifier : PlayerModifier)
  (prev : list PlayerModifier) : list PlayerModifier :=
  let filtered :=
    filter (fun m => negb (matches (playerId modifier) (m_type modifier) m))
           prev in
  filtered ++ [modifier].

Definition removeModifier (pid : string) (ty : ModifierType)
  (prev : list PlayerModifier) : list PlayerModifier :=
  filter (fun m => negb (matches pid ty m)) prev.

(* { ...m, turnsRemaining: m.turnsRemaining - 1 } *)
Definition decrement (m : PlayerModifier) : PlayerModifier :=
  mkModifier (playerId m) (m_type m) (turnsRemaining m - 1) (m_value m).

Definition tickModifiers (prev : list PlayerModifier) : list PlayerModifier :=
  filter (fun m => turnsRemaining m >? 0) (map decrement prev).

Definition hasModifier (modifiers : list PlayerModifier)
  (pid : string) (ty : ModifierType) : bool :=
  existsb (matches pid ty) modifiers.

Definition getModifier (modifiers : list PlayerModifier)
  (pid : string) (ty : ModifierType) : option PlayerModifier :=
  JS.find_first (matches pid ty) modifiers.

(* the calls the page can make on the store, and a run of them starting
   from the store useState([]) creates *)
Inductive StoreCall : Type :=
| CallAdd (modifier : PlayerModifier)
| CallRemove (pid : string) (ty : ModifierType)
| CallTick.

Definition call (prev : list PlayerModifier) (c : StoreCall)
  : list PlayerModifier :=
  match c with
  | CallAdd modifier => addModifier modifier prev
  | CallRemove pid ty => removeModifier pid ty prev
  | CallTick => tickModifiers prev
  end.

Definition run (calls : list StoreCall) : list PlayerModifier :=
  fold_left call calls [].

End UseTwists.
Import UseTwists.

(* ------------------------------------------------------------------------- *)
(*  src/hooks/useQuestions.ts: selectQuestionByDifficulty                    *)
(* ------------------------------------------------------------------------- *)
Module UseQuestions.

(* usedQuestionIds: a Set<string>, kept as the list of its members *)
Definition has (usedIds : list string) (id : string) : bool :=
  existsb (String.eqb id) usedIds.

Definition add (usedIds : list string) (id : string) : list string :=
  if has usedIds id then usedIds else usedIds ++ [id].

(* !forcedCategory || q.category === forcedCategory *)
Definition categoryFilter (forcedCategory : option KnowledgeCategory)
  (q : TriviaQuestion) : bool :=
  match forcedCategory with
  | None => true
  | Some c => category_eqb (q_category q) c
  end.

(* questions.filter(q => q.difficulty === d && !used.has(q.id)
                         && categoryFilter(q)) *)
Definition atDifficulty (questions : list TriviaQuestion)
  (usedIds : list string) (forcedCategory : option KnowledgeCategory)
  (d : Z) : list TriviaQuestion :=
  filter (fun q => (q_difficulty q =? d)
                   && negb (has usedIds (q_id q))
                   && categoryFilter forcedCategory q) questions.

(* pick a random member, mark it used, return it *)
Definition take (pool : list TriviaQuestion) (usedIds : list string)
  (r : nat) : option TriviaQuestion * list string :=
  match JS.pick r pool with
  | Some selected => (Some selected, add usedIds (q_id selected))
  | None => (None, usedIds)
  end.

(* for (const nearbyDiff of nearbyDifficulties) { ...; if (length > 0)
     return ... }: the first non-empty pool, if any *)
Fixpoint firstNearby (questions : list TriviaQuestion)
  (usedIds : list string) (forcedCategory : option KnowledgeCategory)
  (nearbyDifficulties : list Z) : option (list TriviaQuestion) :=
  match nearbyDifficulties with
  | [] => None
  | nearbyDiff :: rest =>
      let fallbackQuestions :=
        atDifficulty questions usedIds forcedCategory nearbyDiff in
      if (0 <? length fallbackQuestions)%nat then Some fallbackQuestions
      else firstNearby questions usedIds forcedCategory rest
  end.

(* The result is the question returned (None for null) and the used set
   after the call. *)
Definition selectQuestionByDifficulty (questions : list TriviaQuestion)
  (usedIds : list string) (difficulty : Z)
  (forcedCategory : option KnowledgeCategory) (r : nat)
  : option TriviaQuestion * list string :=
  let availableQuestions :=
    atDifficulty questions usedIds forcedCategory difficulty in
  if (length availableQuestions =? 0)%nat then
    let nearbyDifficulties :=
      filter (fun d => (d >=? 1) && (d <=? 5))
        [difficulty - 1; difficulty + 1; difficulty - 2; difficulty + 2] in
    match firstNearby questions usedIds forcedCategory nearbyDifficulties with
    | Some fallbackQuestions => take fallbackQuestions usedIds r
    | None =>
        let anyUnused :=
          filter (fun q => negb (has usedIds (q_id q))
                           && categoryFilter forcedCategory q) questions in
        let anyUnused :=
          match forcedCategory with
          | Some _ =>
              if (length anyUnused =? 0)%nat
              then filter (fun q => negb (has usedIds (q_id q))) questions
              else anyUnused
          | None => anyUnused
          end in
        if (0 <? length anyUnused)%nat then take anyUnused usedIds r
        else (None, usedIds)
    end
  else take availableQuestions usedIds r.

End UseQuestions.
Import UseQuestions.

(* ------------------------------------------------------------------------- *)
(*  The cascade of section 4.4 of the specification, written from its words, *)
(*  to compare with selectQuestionByDifficulty                               *)
(* ------------------------------------------------------------------------- *)
Module Cascade.

Definition unused (usedIds : list string) (q : TriviaQuestion) : bool :=
  negb (UseQuestions.has usedIds (q_id q)).

Definition inCategory (forced : option KnowledgeCategory)
  (q : TriviaQuestion) : bool :=
  match forced with
  | None => true
  | Some c => category_eqb (q_category q) c
  end.

Definition clipped (d : Z) : list Z :=
  filter (fun x => (1 <=? x) && (x <=? 5)) [d - 1; d + 1; d - 2; d + 2].

(* step 1, then step 2 for each nearby difficulty, then the two pools of
   step 3; the last one only when a category was forced *)
Definition pools (questions : list TriviaQuestion) (usedIds : list string)
  (d : Z) (forced : option KnowledgeCategory) : list (list TriviaQuestion) :=
  let pool_at x :=
    filter (fun q => unused usedIds q && (q_difficulty q =? x)
                     && inCategory forced q) questions in
  [pool_at d]
  ++ map pool_at (clipped d)
  ++ [filter (fun q => unused usedIds q && inCategory forced q) questions]
  ++ match forced with
     | Some _ => [filter (unused usedIds) questions]
     | None => []
     end.

Fixpoint firstNonEmpty {A : Type} (ps : list (list A)) : option (list A) :=
  match ps with
  | [] => None
  | [] :: rest => firstNonEmpty rest
  | p :: _ => Some p
  end.

End Cascade.

(* ------------------------------------------------------------------------- *)
(*  Object spreads { ...p, field: v } on players and stars                   *)
(* ------------------------------------------------------------------------- *)
Module Spread.

Definition withPosition (p : Player) (pos : Z) : Player :=
  mkPlayer (p_id p) (p_name p) (p_type p) (score p) pos (starsCollected p)
    (avatarEmoji p).

Definition withScore (p : Player) (sc : Z) : Player :=
  mkPlayer (p_id p) (p_name p) (p_type p) sc (boardPosition p)
    (starsCollected p) (avatarEmoji p).

Definition withScoreAndStars (p : Player) (sc n : Z) : Player :=
  mkPlayer (p_id p) (p_name p) (p_type p) sc (boardPosition p) n
    (avatarEmoji p).

Definition withPointValue (s : StarState) (v : Z) : StarState :=
  mkStar (s_id s) v (isEarned s) (earnedByPlayerId s).

Definition withOwner (s : StarState) (pid : string) : StarState :=
  mkStar (s_id s) (pointValue s) (isEarned s) (Some pid).

Definition earnedNowBy (s : StarState) (pid : string) : StarState :=
  mkStar (s_id s) (pointValue s) true (Some pid).

(* s.earnedByPlayerId === pid *)
Definition ownedBy (pid : string) (s : StarState) : bool :=
  match earnedByPlayerId s with
  | Some owner => String.eqb owner pid
  | None => false
  end.

(* arr[i] for a numeric index: undefined outside the array *)
Definition at_index {A : Type} (arr : list A) (i : Z) : option A :=
  if i <? 0 then None else nth_error arr (Z.to_nat i).

End Spread.
Import Spread.

(* ------------------------------------------------------------------------- *)
(*  src/lib/twistHandlers.ts                                                 *)
(* ------------------------------------------------------------------------- *)
Module TwistHandlers.

Definition TOTAL_STEPS : Z := 25.

(* The message field is a Hebrew sentence built from a template; the
   template and what is spliced into it are kept. *)
Inductive Message : Type :=
| msg_went_back_steps (name : string) (n : Z)
| msg_went_back_to_gate (name : string)
| msg_others_went_back
| msg_teleported (name : string) (pos : Z)
| msg_everyone_advanced (n : Z)
| msg_zero_star_upgraded
| msg_no_zero_star
| msg_got_points (name : string) (points : Z)
| msg_next_answer_doubled (name : string)
| msg_bonus_question (n : Z)
| msg_got_extra_turn (name : string)
| msg_order_reversed (n : Z)
| msg_shielded (name : string) (n : Z).

Record TwistExecutionResult : Type := mkResult {
  r_players : option (list Player);
  r_stars : option (list StarState);
  r_addModifier : option PlayerModifier;
  goToNextTurn : bool;
  showChoicePopup : bool;
  goToBonusQuestion : bool;
  goToSpinning : bool;
  message : option Message;
  r_extraTurnPending : option bool;
  r_reverseOrder : option Z
}.

(* players.map(p => p.id === currentPlayer.id ? f(p) : p) *)
Definition mapPlayer (pid : string) (f : Player -> Player)
  (players : list Player) : list Player :=
  map (fun p => if String.eqb (p_id p) pid then f p else p) players.

(* a result that only moves players and goes to the next turn *)
Definition moved (players : list Player) (msg : Message)
  : TwistExecutionResult :=
  mkResult (Some players) None None true false false false (Some msg)
    None None.

(* r stands for Math.random() in the random_teleport case *)
Definition executeImmediateTwist (twist : TwistCard) (currentPlayer : Player)
  (players : list Player) (stars : list StarState) (r : nat)
  : TwistExecutionResult :=
  if requiresChoice twist then
    mkResult None None None false true false false None None None
  else
    match effectType twist with
    | move_back_gate =>
        match effectValue twist with
        | Some n =>
            if JS.truthy (Some n) then
              let newPos :=
                JS.rem (boardPosition currentPlayer - n + TOTAL_STEPS)
                       TOTAL_STEPS in
              moved (mapPlayer (p_id currentPlayer)
                       (fun p => withPosition p newPos) players)
                    (msg_went_back_steps (p_name currentPlayer) n)
            else
              let prevGate :=
                findPreviousGate (boardPosition currentPlayer) in
              moved (mapPlayer (p_id currentPlayer)
                       (fun p => withPosition p prevGate) players)
                    (msg_went_back_to_gate (p_name currentPlayer))
        | None =>
            let prevGate :=
              findPreviousGate (boardPosition currentPlayer) in
            moved (mapPlayer (p_id currentPlayer)
                     (fun p => withPosition p prevGate) players)
                  (msg_went_back_to_gate (p_name currentPlayer))
        end
    | others_back_gate =>
        moved (map (fun p =>
                      if String.eqb (p_id p) (p_id currentPlayer) then p
                      else withPosition p
                             (findPreviousGate (boardPosition p)))
                   players)
              msg_others_went_back
    | random_teleport =>
        let randomPos := Z.of_nat (Nat.modulo r 25) in
        moved (mapPlayer (p_id currentPlayer)
                 (fun p => withPosition p randomPos) players)
              (msg_teleported (p_name currentPlayer) randomPos)
    | everyone_moves =>
        let steps := JS.orElse (effectValue twist) 2 in
        moved (map (fun p =>
                      withPosition p
                        (JS.rem (boardPosition p + steps) TOTAL_STEPS))
                   players)
              (msg_everyone_advanced steps)
    | upgrade_zero_star =>
        match JS.find_first
                (fun s => ownedBy (p_id currentPlayer) s
                          && (pointValue s =? 0)) stars with
        | Some zeroStar =>
            let updatedStars :=
              map (fun s => if s_id s =? s_id zeroStar
                            then withPointValue s 250 else s) stars in
            let updatedPlayers :=
              mapPlayer (p_id currentPlayer)
                (fun p => withScore p (score p + 250)) players in
            mkResult (Some updatedPlayers) (Some updatedStars) None
              true false false false (Some msg_zero_star_upgraded)
              None None
        | None =>
            mkResult None None None true false false false
              (Some msg_no_zero_star) None None
        end
    | instant_points =>
        let points := JS.orElse (effectValue twist) 50 in
        moved (mapPlayer (p_id currentPlayer)
                 (fun p => withScore p (score p + points)) players)
              (msg_got_points (p_name currentPlayer) points)
    | double_next =>
        mkResult None None
          (Some (mkModifier (p_id currentPlayer) mod_double_next 2
                   (Some (val_number 2))))
          true false false false
          (Some (msg_next_answer_doubled (p_name currentPlayer))) None None
    | bonus_question =>
        mkResult None None None false false true false
          (Some (msg_bonus_question (JS.orElse (effectValue twist) 5)))
          None None
    | extra_turn =>
        mkResult None None None true false false false
          (Some (msg_got_extra_turn (p_name currentPlayer)))
          (Some true) None
    | reverse_order =>
        mkResult None None None true false false false
          (Some (msg_order_reversed (JS.orElse (effectValue twist) 3)))
          None (Some (JS.orElse (effectValue twist) 3))
    | shield =>
        mkResult None None
          (Some (mkModifier (p_id currentPlayer) mod_shield
                   (JS.orElse (effectValue twist) 2) None))
          true false false false
          (Some (msg_shielded (p_name currentPlayer)
                   (JS.orElse (effectValue twist) 2))) None None
    | _ =>
        mkResult None None None true false false false None None None
    end.

(* modifiers.some(m => m.playerId === playerId && m.type === 'frozen'
                       && m.turnsRemaining > 0) *)
Definition isPlayerFrozen (pid : string) (modifiers : list PlayerModifier)
  : bool :=
  existsb (fun m => String.eqb (playerId m) pid
                    && modtype_eqb (m_type m) mod_frozen
                    && (turnsRemaining m >? 0)) modifiers.

(* modifiers.find(category_master of the player, turnsRemaining > 0), then
   value as KnowledgeCategory: a category_master modifier is only ever
   stored with a category as its value *)
Definition getForcedCategory (pid : string) (modifiers : list PlayerModifier)
  : option KnowledgeCategory :=
  match JS.find_first
          (fun m => String.eqb (playerId m) pid
                    && modtype_eqb (m_type m) mod_category_master
                    && (turnsRemaining m >? 0)) modifiers with
  | Some categoryModifier =>
      match m_value categoryModifier with
      | Some (val_category c) => Some c
      | _ => None
      end
  | None => None
  end.

End TwistHandlers.
Import TwistHandlers.

(* ------------------------------------------------------------------------- *)
(*  src/data/twists.ts: the catalogue (title, description and emoji are      *)
(*  display text and are left out)                                           *)
(* ------------------------------------------------------------------------- *)
Module TwistsData.

Definition card (id : String.string) (e : TwistEffectType) (v : option Z)
  (t : TargetScope) (positive choice withQuestion : bool) : TwistCard :=
  mkTwist id e v (Some t) positive choice withQuestion.

Local Open Scope string_scope.

Definition TWIST_CARDS : list TwistCard :=
  [ card "twist-back-gate-1" move_back_gate None target_self false false false;
    card "twist-others-back-1" others_back_gate None target_others true false false;
    card "twist-teleport-gate-1" teleport_gate None target_self true true false;
    card "twist-random-teleport-1" random_teleport None target_self false false false;
    card "twist-swap-positions-1" swap_positions None target_choose true true false;
    card "twist-everyone-moves-1" everyone_moves (Some 2) target_all true false false;
    card "twist-free-star-1" free_star None target_self true true false;
    card "twist-steal-star-1" steal_star None target_choose true true false;
    card "twist-upgrade-zero-1" upgrade_zero_star None target_self true false false;
    card "twist-star-peek-1" star_peek None target_self true true false;
    card "twist-instant-50-1" instant_points (Some 50) target_self true false false;
    card "twist-instant-100-1" instant_points (Some 100) target_self true false false;
    card "twist-points-swap-1" points_swap None target_choose true true false;
    card "twist-double-next-1" double_next None target_self true false false;
    card "twist-bonus-question-1" bonus_question (Some 5) target_self true false true;
    card "twist-difficulty-choice-1" difficulty_choice None target_self true true false;
    card "twist-category-master-1" category_master (Some 3) target_self true true false;
    card "twist-extra-turn-1" extra_turn None target_self true false false;
    card "twist-freeze-player-1" freeze_player None target_choose true true false;
    card "twist-reverse-order-1" reverse_order (Some 3) target_all false false false;
    card "twist-shield-1" shield (Some 2) target_self true false false;
    card "twist-back-gate-2" move_back_gate (Some 3) target_self false false false;
    card "twist-teleport-gate-2" teleport_gate None target_self true true false;
    card "twist-free-star-2" free_star None target_self true true false;
    card "twist-steal-star-2" steal_star None target_choose true true false;
    card "twist-instant-150-1" instant_points (Some 150) target_self true false false;
    card "twist-double-next-2" double_next None target_self true false false;
    card "twist-bonus-question-2" bonus_question (Some 5) target_self true false true;
    card "twist-category-master-2" category_master (Some 3) target_self true true false;
    card "twist-extra-turn-2" extra_turn None target_self true false false ].

End TwistsData.
Import TwistsData.

(* ------------------------------------------------------------------------- *)
(*  src/app/game/page.tsx: the state of GameContent and its handlers         *)
(* ------------------------------------------------------------------------- *)
Module Page.

Inductive GamePhase : Type :=
| phase_spinning | phase_twist | phase_twistChoice | phase_twistBonusQ
| phase_question | phase_countdown | phase_results | phase_moving
| phase_selectStar | phase_revealingStar | phase_finished.

(* WheelOption = 1 | 2 | 3 | 4 | 5 | 'twist' *)
Inductive WheelOption : Type :=
| wheel_twist
| wheel_level (d : Z).

Record PlayerAnswer : Type := mkAnswer {
  a_playerId : string;
  answerId : string
}.

Record PlayerStepsEarned : Type := mkSteps {
  se_player : Player;
  stepsEarned : Z;
  isCorrect : bool;
  isCurrentTurn : bool
}.

Record Movement : Type := mkMovement {
  mv_playerId : string;
  mv_steps : Z
}.

(* The state cells of GameContent, with those of useQuestions (questions,
   usedQuestionIds, currentQuestion, questionsAnswered) and useTwists
   (activeTwist, modifiers).  Cells that no handler below reads or writes
   are left out: gameSettings, chosenDifficulty, peekedStarId, the sound
   flags, the loading and error flags and the twist deck. *)
Record GameState : Type := mkGame {
  players : list Player;
  stars : list StarState;
  currentTurnIndex : Z;
  gamePhase : GamePhase;
  wheelResult : option WheelOption;
  playerAnswers : list PlayerAnswer;
  activeHumanIndex : Z;
  roundSteps : list PlayerStepsEarned;
  pendingMovements : list Movement;
  currentMovingPlayerIndex : Z;
  gatesPassedQueue : list Z;
  selectingStarPlayer : option Player;
  revealingStar : option StarState;
  currentQuestion : option TriviaQuestion;
  questionsAnswered : Z;
  activeTwist : option TwistCard;
  modifiers : list PlayerModifier;
  showTwistChoice : bool;
  extraTurnPending : bool;
  playOrderReversed : bool;
  reverseTurnsRemaining : Z;
  questions : list TriviaQuestion;
  usedQuestionIds : list string;
  bonusQuestionSteps : Z
}.

(* the setters returned by useState and by the two hooks *)
Definition setPlayers (v : list Player) (gs : GameState) : GameState :=
  mkGame v (stars gs) (currentTurnIndex gs) (gamePhase gs) (wheelResult gs)
    (playerAnswers gs) (activeHumanIndex gs) (roundSteps gs)
    (pendingMovements gs) (currentMovingPlayerIndex gs)
    (gatesPassedQueue gs) (selectingStarPlayer gs) (revealingStar gs)
    (currentQuestion gs) (questionsAnswered gs) (activeTwist gs)
    (modifiers gs) (showTwistChoice gs) (extraTurnPending gs)
    (playOrderReversed gs) (reverseTurnsRemaining gs) (questions gs)
    (usedQuestionIds gs) (bonusQuestionSteps gs).

Definition setStars (v : list StarState) (gs : GameState) : GameState :=
  mkGame (players gs) v (currentTurnIndex gs) (gamePhase gs)
    (wheelResult gs) (playerAnswers gs) (activeHumanIndex gs)
    (roundSteps gs) (pendingMovements gs) (currentMovingPlayerIndex gs)
    (gatesPassedQueue gs) (selectingStarPlayer gs) (revealingStar gs)
    (currentQuestion gs) (questionsAnswered gs) (activeTwist gs)
    (modifiers gs) (showTwistChoice gs) (extraTurnPending gs)
    (playOrderReversed gs) (reverseTurnsRemaining gs) (questions gs)
    (usedQuestionIds gs) (bonusQuestionSteps gs).

Definition setCurrentTurnIndex (v : Z) (gs : GameState) : GameState :=
  mkGame (players gs) (stars gs) v (gamePhase gs) (wheelResult gs)
    (playerAnswers gs) (activeHumanIndex gs) (roundSteps gs)
    (pendingMovements gs) (currentMovingPlayerIndex gs)
    (gatesPassedQueue gs) (selectingStarPlayer gs) (revealingStar gs)
    (currentQuestion gs) (questionsAnswered gs) (activeTwist gs)
    (modifiers gs) (showTwistChoice gs) (extraTurnPending gs)
    (playOrderReversed gs) (reverseTurnsRemaining gs) (questions gs)
    (usedQuestionIds gs) (bonusQuestionSteps gs).

Definition setGamePhase (v : GamePhase) (gs : GameState) : GameState :=
  mkGame (players gs) (stars gs) (currentTurnIndex gs) v (wheelResult gs)
    (playerAnswers gs) (activeHumanIndex gs) (roundSteps gs)
    (pendingMovements gs) (currentMovingPlayerIndex gs)
    (gatesPassedQueue gs) (selectingStarPlayer gs) (revealingStar gs)
    (currentQuestion gs) (questionsAnswered gs) (activeTwist gs)
    (modifiers gs) (showTwistChoice gs) (extraTurnPending gs)
    (playOrderReversed gs) (reverseTurnsRemaining gs) (questions gs)
    (usedQuestionIds gs) (bonusQuestionSteps gs).

Definition setWheelResult (v : option WheelOption) (gs : GameState) : GameState :=
  mkGame (players gs) (stars gs) (currentTurnIndex gs) (gamePhase gs) v
    (playerAnswers gs) (activeHumanIndex gs) (roundSteps gs)
    (pendingMovements gs) (currentMovingPlayerIndex gs)
    (gatesPassedQueue gs) (selectingStarPlayer gs) (revealingStar gs)
    (currentQuestion gs) (questionsAnswered gs) (activeTwist gs)
    (modifiers gs) (showTwistChoice gs) (extraTurnPending gs)
    (playOrderReversed gs) (reverseTurnsRemaining gs) (questions gs)
    (usedQuestionIds gs) (bonusQuestionSteps gs).

Definition setPlayerAnswers (v : list PlayerAnswer) (gs : GameState) : GameState :=
  mkGame (players gs) (stars gs) (currentTurnIndex gs) (gamePhase gs)
    (wheelResult gs) v (activeHumanIndex gs) (roundSteps gs)
    (pendingMovements gs) (currentMovingPlayerIndex gs)
    (gatesPassedQueue gs) (selectingStarPlayer gs) (revealingStar gs)
    (currentQuestion gs) (questionsAnswered gs) (activeTwist gs)
    (modifiers gs) (showTwistChoice gs) (extraTurnPending gs)
    (playOrderReversed gs) (reverseTurnsRemaining gs) (questions gs)
    (usedQuestionIds gs) (bonusQuestionSteps gs).

Definition setActiveHumanIndex (v : Z) (gs : GameState) : GameState :=
  mkGame (players gs) (stars gs) (currentTurnIndex gs) (gamePhase gs)
    (wheelResult gs) (playerAnswers gs) v (roundSteps gs)
    (pendingMovements gs) (currentMovingPlayerIndex gs)
    (gatesPassedQueue gs) (selectingStarPlayer gs) (revealingStar gs)
    (currentQuestion gs) (questionsAnswered gs) (activeTwist gs)
    (modifiers gs) (showTwistChoice gs) (extraTurnPending gs)
    (playOrderReversed gs) (reverseTurnsRemaining gs) (questions gs)
    (usedQuestionIds gs) (bonusQuestionSteps gs).

Definition setRoundSteps (v : list PlayerStepsEarned) (gs : GameState) : GameState :=
  mkGame (players gs) (stars gs) (currentTurnIndex gs) (gamePhase gs)
    (wheelResult gs) (playerAnswers gs) (activeHumanIndex gs) v
    (pendingMovements gs) (currentMovingPlayerIndex gs)
    (gatesPassedQueue gs) (selectingStarPlayer gs) (revealingStar gs)
    (currentQuestion gs) (questionsAnswered gs) (activeTwist gs)
    (modifiers gs) (showTwistChoice gs) (extraTurnPending gs)
    (playOrderReversed gs) (reverseTurnsRemaining gs) (questions gs)
    (usedQuestionIds gs) (bonusQuestionSteps gs).

Definition setPendingMovements (v : list Movement) (gs : GameState) : GameState :=
  mkGame (players gs) (stars gs) (currentTurnIndex gs) (gamePhase gs)
    (wheelResult gs) (playerAnswers gs) (activeHumanIndex gs)
    (roundSteps gs) v (currentMovingPlayerIndex gs) (gatesPassedQueue gs)
    (selectingStarPlayer gs) (revealingStar gs) (currentQuestion gs)
    (questionsAnswered gs) (activeTwist gs) (modifiers gs)
    (showTwistChoice gs) (extraTurnPending gs) (playOrderReversed gs)
    (reverseTurnsRemaining gs) (questions gs) (usedQuestionIds gs)
    (bonusQuestionSteps gs).

Definition setCurrentMovingPlayerIndex (v : Z) (gs : GameState) : GameState :=
  mkGame (players gs) (stars gs) (currentTurnIndex gs) (gamePhase gs)
    (wheelResult gs) (playerAnswers gs) (activeHumanIndex gs)
    (roundSteps gs) (pendingMovements gs) v (gatesPassedQueue gs)
    (selectingStarPlayer gs) (revealingStar gs) (currentQuestion gs)
    (questionsAnswered gs) (activeTwist gs) (modifiers gs)
    (showTwistChoice gs) (extraTurnPending gs) (playOrderReversed gs)
    (reverseTurnsRemaining gs) (questions gs) (usedQuestionIds gs)
    (bonusQuestionSteps gs).

Definition setGatesPassedQueue (v : list Z) (gs : GameState) : GameState :=
  mkGame (players gs) (stars gs) (currentTurnIndex gs) (gamePhase gs)
    (wheelResult gs) (playerAnswers gs) (activeHumanIndex gs)
    (roundSteps gs) (pendingMovements gs) (currentMovingPlayerIndex gs) v
    (selectingStarPlayer gs) (revealingStar gs) (currentQuestion gs)
    (questionsAnswered gs) (activeTwist gs) (modifiers gs)
    (showTwistChoice gs) (extraTurnPending gs) (playOrderReversed gs)
    (reverseTurnsRemaining gs) (questions gs) (usedQuestionIds gs)
    (bonusQuestionSteps gs).

Definition setSelectingStarPlayer (v : option Player) (gs : GameState) : GameState :=
  mkGame (players gs) (stars gs) (currentTurnIndex gs) (gamePhase gs)
    (wheelResult gs) (playerAnswers gs) (activeHumanIndex gs)
    (roundSteps gs) (pendingMovements gs) (currentMovingPlayerIndex gs)
    (gatesPassedQueue gs) v (revealingStar gs) (currentQuestion gs)
    (questionsAnswered gs) (activeTwist gs) (modifiers gs)
    (showTwistChoice gs) (extraTurnPending gs) (playOrderReversed gs)
    (reverseTurnsRemaining gs) (questions gs) (usedQuestionIds gs)
    (bonusQuestionSteps gs).

Definition setRevealingStar (v : option StarState) (gs : GameState) : GameState :=
  mkGame (players gs) (stars gs) (currentTurnIndex gs) (gamePhase gs)
    (wheelResult gs) (playerAnswers gs) (activeHumanIndex gs)
    (roundSteps gs) (pendingMovements gs) (currentMovingPlayerIndex gs)
    (gatesPassedQueue gs) (selectingStarPlayer gs) v (currentQuestion gs)
    (questionsAnswered gs) (activeTwist gs) (modifiers gs)
    (showTwistChoice gs) (extraTurnPending gs) (playOrderReversed gs)
    (reverseTurnsRemaining gs) (questions gs) (usedQuestionIds gs)
    (bonusQuestionSteps gs).

Definition setCurrentQuestion (v : option TriviaQuestion) (gs : GameState) : GameState :=
  mkGame (players gs) (stars gs) (currentTurnIndex gs) (gamePhase gs)
    (wheelResult gs) (playerAnswers gs) (activeHumanIndex gs)
    (roundSteps gs) (pendingMovements gs) (currentMovingPlayerIndex gs)
    (gatesPassedQueue gs) (selectingStarPlayer gs) (revealingStar gs) v
    (questionsAnswered gs) (activeTwist gs) (modifiers gs)
    (showTwistChoice gs) (extraTurnPending gs) (playOrderReversed gs)
    (reverseTurnsRemaining gs) (questions gs) (usedQuestionIds gs)
    (bonusQuestionSteps gs).

Definition setQuestionsAnswered (v : Z) (gs : GameState) : GameState :=
  mkGame (players gs) (stars gs) (currentTurnIndex gs) (gamePhase gs)
    (wheelResult gs) (playerAnswers gs) (activeHumanIndex gs)
    (roundSteps gs) (pendingMovements gs) (currentMovingPlayerIndex gs)
    (gatesPassedQueue gs) (selectingStarPlayer gs) (revealingStar gs)
    (currentQuestion gs) v (activeTwist gs) (modifiers gs)
    (showTwistChoice gs) (extraTurnPending gs) (playOrderReversed gs)
    (reverseTurnsRemaining gs) (questions gs) (usedQuestionIds gs)
    (bonusQuestionSteps gs).

Definition setActiveTwist (v : option TwistCard) (gs : GameState) : GameState :=
  mkGame (players gs) (stars gs) (currentTurnIndex gs) (gamePhase gs)
    (wheelResult gs) (playerAnswers gs) (activeHumanIndex gs)
    (roundSteps gs) (pendingMovements gs) (currentMovingPlayerIndex gs)
    (gatesPassedQueue gs) (selectingStarPlayer gs) (revealingStar gs)
    (currentQuestion gs) (questionsAnswered gs) v (modifiers gs)
    (showTwistChoice gs) (extraTurnPending gs) (playOrderReversed gs)
    (reverseTurnsRemaining gs) (questions gs) (usedQuestionIds gs)
    (bonusQuestionSteps gs).

Definition setModifiers (v : list PlayerModifier) (gs : GameState) : GameState :=
  mkGame (players gs) (stars gs) (currentTurnIndex gs) (gamePhase gs)
    (wheelResult gs) (playerAnswers gs) (activeHumanIndex gs)
    (roundSteps gs) (pendingMovements gs) (currentMovingPlayerIndex gs)
    (gatesPassedQueue gs) (selectingStarPlayer gs) (revealingStar gs)
    (currentQuestion gs) (questionsAnswered gs) (activeTwist gs) v
    (showTwistChoice gs) (extraTurnPending gs) (playOrderReversed gs)
    (reverseTurnsRemaining gs) (questions gs) (usedQuestionIds gs)
    (bonusQuestionSteps gs).

Definition setShowTwistChoice (v : bool) (gs : GameState) : GameState :=
  mkGame (players gs) (stars gs) (currentTurnIndex gs) (gamePhase gs)
    (wheelResult gs) (playerAnswers gs) (activeHumanIndex gs)
    (roundSteps gs) (pendingMovements gs) (currentMovingPlayerIndex gs)
    (gatesPassedQueue gs) (selectingStarPlayer gs) (revealingStar gs)
    (currentQuestion gs) (questionsAnswered gs) (activeTwist gs)
    (modifiers gs) v (extraTurnPending gs) (playOrderReversed gs)
    (reverseTurnsRemaining gs) (questions gs) (usedQuestionIds gs)
    (bonusQuestionSteps gs).

Definition setExtraTurnPending (v : bool) (gs : GameState) : GameState :=
  mkGame (players gs) (stars gs) (currentTurnIndex gs) (gamePhase gs)
    (wheelResult gs) (playerAnswers gs) (activeHumanIndex gs)
    (roundSteps gs) (pendingMovements gs) (currentMovingPlayerIndex gs)
    (gatesPassedQueue gs) (selectingStarPlayer gs) (revealingStar gs)
    (currentQuestion gs) (questionsAnswered gs) (activeTwist gs)
    (modifiers gs) (showTwistChoice gs) v (playOrderReversed gs)
    (reverseTurnsRemaining gs) (questions gs) (usedQuestionIds gs)
    (bonusQuestionSteps gs).

Definition setPlayOrderReversed (v : bool) (gs : GameState) : GameState :=
  mkGame (players gs) (stars gs) (currentTurnIndex gs) (gamePhase gs)
    (wheelResult gs) (playerAnswers gs) (activeHumanIndex gs)
    (roundSteps gs) (pendingMovements gs) (currentMovingPlayerIndex gs)
    (gatesPassedQueue gs) (selectingStarPlayer gs) (revealingStar gs)
    (currentQuestion gs) (questionsAnswered gs) (activeTwist gs)
    (modifiers gs) (showTwistChoice gs) (extraTurnPending gs) v
    (reverseTurnsRemaining gs) (questions gs) (usedQuestionIds gs)
    (bonusQuestionSteps gs).

Definition setReverseTurnsRemaining (v : Z) (gs : GameState) : GameState :=
  mkGame (players gs) (stars gs) (currentTurnIndex gs) (gamePhase gs)
    (wheelResult gs) (playerAnswers gs) (activeHumanIndex gs)
    (roundSteps gs) (pendingMovements gs) (currentMovingPlayerIndex gs)
    (gatesPassedQueue gs) (selectingStarPlayer gs) (revealingStar gs)
    (currentQuestion gs) (questionsAnswered gs) (activeTwist gs)
    (modifiers gs) (showTwistChoice gs) (extraTurnPending gs)
    (playOrderReversed gs) v (questions gs) (usedQuestionIds gs)
    (bonusQuestionSteps gs).

Definition setQuestions (v : list TriviaQuestion) (gs : GameState) : GameState :=
  mkGame (players gs) (stars gs) (currentTurnIndex gs) (gamePhase gs)
    (wheelResult gs) (playerAnswers gs) (activeHumanIndex gs)
    (roundSteps gs) (pendingMovements gs) (currentMovingPlayerIndex gs)
    (gatesPassedQueue gs) (selectingStarPlayer gs) (revealingStar gs)
    (currentQuestion gs) (questionsAnswered gs) (activeTwist gs)
    (modifiers gs) (showTwistChoice gs) (extraTurnPending gs)
    (playOrderReversed gs) (reverseTurnsRemaining gs) v (usedQuestionIds gs)
    (bonusQuestionSteps gs).

Definition setUsedQuestionIds (v : list string) (gs : GameState) : GameState :=
  mkGame (players gs) (stars gs) (currentTurnIndex gs) (gamePhase gs)
    (wheelResult gs) (playerAnswers gs) (activeHumanIndex gs)
    (roundSteps gs) (pendingMovements gs) (currentMovingPlayerIndex gs)
    (gatesPassedQueue gs) (selectingStarPlayer gs) (revealingStar gs)
    (currentQuestion gs) (questionsAnswered gs) (activeTwist gs)
    (modifiers gs) (showTwistChoice gs) (extraTurnPending gs)
    (playOrderReversed gs) (reverseTurnsRemaining gs) (questions gs) v
    (bonusQuestionSteps gs).

Definition setBonusQuestionSteps (v : Z) (gs : GameState) : GameState :=
  mkGame (players gs) (stars gs) (currentTurnIndex gs) (gamePhase gs)
    (wheelResult gs) (playerAnswers gs) (activeHumanIndex gs)
    (roundSteps gs) (pendingMovements gs) (currentMovingPlayerIndex gs)
    (gatesPassedQueue gs) (selectingStarPlayer gs) (revealingStar gs)
    (currentQuestion gs) (questionsAnswered gs) (activeTwist gs)
    (modifiers gs) (showTwistChoice gs) (extraTurnPending gs)
    (playOrderReversed gs) (reverseTurnsRemaining gs) (questions gs)
    (usedQuestionIds gs) v.

(* const currentTurnPlayer = players[currentTurnIndex] *)
Definition currentTurnPlayer (gs : GameState) : option Player :=
  at_index (players gs) (currentTurnIndex gs).

(* const availableStars = stars.filter(s => !s.isEarned) *)
Definition availableStars (stars : list StarState) : list StarState :=
  filter (fun s => negb (isEarned s)) stars.

(* ---- the updaters handed to setPlayers and setStars ---- *)

(* processNextMovement and handleBonusQuestionAnswer:
   prev.map(p => p.id === id ? { ...p, boardPosition: newPosition } : p) *)
Definition placePlayer (pid : string) (pos : Z) (prev : list Player)
  : list Player :=
  mapPlayer pid (fun p => withPosition p pos) prev.

(* handleStarRevealComplete and handleTwistFreeStar:
   prev.map(s => s.id === star.id
                 ? { ...s, isEarned: true, earnedByPlayerId: id } : s) *)
Definition awardStars (star : StarState) (pid : string)
  (prev : list StarState) : list StarState :=
  map (fun s => if s_id s =? s_id star then earnedNowBy s pid else s) prev.

(* prev.map(p => p.id === id
                 ? { ...p, score: p.score + star.pointValue,
                     starsCollected: p.starsCollected + 1 } : p) *)
Definition awardPlayers (star : StarState) (pid : string)
  (prev : list Player) : list Player :=
  mapPlayer pid
    (fun p => withScoreAndStars p (score p + pointValue star)
                (starsCollected p + 1)) prev.

(* steal_star *)
Definition stealStars (randomStar : StarState) (current : Player)
  (prev : list StarState) : list StarState :=
  map (fun s => if s_id s =? s_id randomStar
                then withOwner s (p_id current) else s) prev.

Definition stealPlayers (randomStar : StarState) (current target : Player)
  (prev : list Player) : list Player :=
  map (fun p =>
         if String.eqb (p_id p) (p_id target) then
           withScoreAndStars p (score p - pointValue randomStar)
             (starsCollected p - 1)
         else if String.eqb (p_id p) (p_id current) then
           withScoreAndStars p (score p + pointValue randomStar)
             (starsCollected p + 1)
         else p) prev.

(* swap_positions *)
Definition swapPositions (current target : Player) (prev : list Player)
  : list Player :=
  let currentPos := boardPosition current in
  let targetPos := boardPosition target in
  map (fun p =>
         if String.eqb (p_id p) (p_id current) then withPosition p targetPos
         else if String.eqb (p_id p) (p_id target)
              then withPosition p currentPos
              else p) prev.

(* points_swap, inside the test current.score < target.score *)
Definition swapScores (current target : Player) (prev : list Player)
  : list Player :=
  let currentScore := score current in
  let targetScore := score target in
  map (fun p =>
         if String.eqb (p_id p) (p_id current) then withScore p targetScore
         else if String.eqb (p_id p) (p_id target)
              then withScore p currentScore
              else p) prev.

(* ---- handleNextTurn ---- *)

(* completeCurrentQuestion of useQuestions *)
Definition completeCurrentQuestion (cur : GameState) : GameState :=
  setCurrentQuestion None
    (setQuestionsAnswered (questionsAnswered cur + 1) cur).

(* one step of the turn order *)
Definition advanceIndex (reversed : bool) (count index : Z) : Z :=
  if reversed then JS.rem (index - 1 + count) count
  else JS.rem (index + 1) count.

(* while (isPlayerFrozen(players[nextIndex]?.id, modifiers)
          && attempts < players.length) {
     removeModifier(players[nextIndex].id, 'frozen');
     nextIndex = ...; attempts++; }
   players, modifiers and playOrderReversed are the captured values; each
   removeModifier is an updater on the store.  attemptsLeft is
   players.length - attempts. *)
Fixpoint skipFrozen (snap : GameState) (attemptsLeft : nat) (nextIndex : Z)
  (store : list PlayerModifier) : Z * list PlayerModifier :=
  match attemptsLeft with
  | O => (nextIndex, store)
  | S attemptsLeft' =>
      match at_index (players snap) nextIndex with
      | Some p =>
          if isPlayerFrozen (p_id p) (modifiers snap) then
            skipFrozen snap attemptsLeft'
              (advanceIndex (playOrderReversed snap)
                 (Z.of_nat (length (players snap))) nextIndex)
              (removeModifier (p_id p) mod_frozen store)
          else (nextIndex, store)
      | None => (nextIndex, store)
      end
  end.

(* snap holds the values the callback captured (players, modifiers,
   currentTurnIndex, extraTurnPending, playOrderReversed,
   reverseTurnsRemaining); cur is the state the setters act on.  A setter
   called with a value overwrites the cell; a setter called with an updater
   (prev => ...) transforms the cell of cur. *)
Definition handleNextTurn (snap cur : GameState) : GameState :=
  let cur := completeCurrentQuestion cur in
  let cur := setPlayerAnswers [] cur in
  let cur := setRoundSteps [] cur in
  let cur := setPendingMovements [] cur in
  let cur := setActiveHumanIndex 0 cur in
  let cur := setWheelResult None cur in
  let cur := setActiveTwist None cur in
  let cur := setShowTwistChoice false cur in
  if extraTurnPending snap then
    setGamePhase phase_spinning (setExtraTurnPending false cur)
  else
    let cur :=
      if reverseTurnsRemaining snap >? 0 then
        let cur :=
          setReverseTurnsRemaining (reverseTurnsRemaining cur - 1) cur in
        if reverseTurnsRemaining snap =? 1
        then setPlayOrderReversed false cur else cur
      else cur in
    let cur := setModifiers (tickModifiers (modifiers cur)) cur in
    let count := Z.of_nat (length (players snap)) in
    let nextIndex :=
      advanceIndex (playOrderReversed snap) count (currentTurnIndex snap) in
    let '(nextIndex, store) :=
      skipFrozen snap (length (players snap)) nextIndex (modifiers cur) in
    let cur := setModifiers store cur in
    setGamePhase phase_spinning (setCurrentTurnIndex nextIndex cur).

(* ---- processNextMovement ----
   The callback is rebuilt at every render (availableStars, one of its
   dependencies, is a fresh array each time) and the effect that runs it is
   re-armed with it, so it reads the state it acts on. *)
Definition processNextMovement (gs : GameState) : GameState :=
  if currentMovingPlayerIndex gs
     >=? Z.of_nat (length (pendingMovements gs)) then
    if (length (availableStars (stars gs)) =? 0)%nat
    then setGamePhase phase_finished gs
    else handleNextTurn gs gs
  else
    match at_index (pendingMovements gs) (currentMovingPlayerIndex gs) with
    | Some movement =>
        match JS.find_first
                (fun p => String.eqb (p_id p) (mv_playerId movement))
                (players gs) with
        | Some player =>
            let gatesPassed :=
              getGatesPassed (boardPosition player) (mv_steps movement) in
            let newPos :=
              newPosition (boardPosition player) (mv_steps movement) in
            let cur :=
              setPlayers (placePlayer (p_id player) newPos (players gs)) gs in
            if (0 <? length gatesPassed)%nat
               && (0 <? length (availableStars (stars gs)))%nat then
              setGamePhase phase_selectStar
                (setSelectingStarPlayer (Some player)
                   (setGatesPassedQueue gatesPassed cur))
            else
              setCurrentMovingPlayerIndex (currentMovingPlayerIndex cur + 1)
                cur
        | None => gs
        end
    | None => gs
    end.

(* ---- handleStarRevealComplete ---- *)
Definition handleStarRevealComplete (gs : GameState) : GameState :=
  match selectingStarPlayer gs, revealingStar gs with
  | Some selecting, Some revealing =>
      let cur := setStars (awardStars revealing (p_id selecting) (stars gs))
                   gs in
      let cur := setPlayers
                   (awardPlayers revealing (p_id selecting) (players gs))
                   cur in
      let remainingGates := tl (gatesPassedQueue gs) in
      let remainingStars :=
        filter (fun s => negb (isEarned s)
                         && negb (s_id s =? s_id revealing)) (stars gs) in
      let cur := setRevealingStar None cur in
      if (0 <? length remainingGates)%nat
         && (0 <? length remainingStars)%nat then
        setGamePhase phase_selectStar
          (setGatesPassedQueue remainingGates cur)
      else
        let cur := setGatesPassedQueue []
                     (setSelectingStarPlayer None cur) in
        if (length remainingStars =? 0)%nat then
          setGamePhase phase_finished cur
        else
          setGamePhase phase_moving
            (setCurrentMovingPlayerIndex
               (currentMovingPlayerIndex cur + 1) cur)
  | _, _ => gs
  end.

(* ---- handleTwistChoosePlayer ----
   r stands for Math.random() in the steal_star case.  The handler ends
   with setTimeout(() => handleNextTurn(), 1000): the handleNextTurn it
   calls is the one of the render the handler belongs to, so it reads the
   state gs the handler itself started from, while its setters act on the
   state the handler has produced. *)
Definition handleTwistChoosePlayer (gs : GameState) (targetPlayer : Player)
  (r : nat) : GameState :=
  match activeTwist gs, currentTurnPlayer gs with
  | Some twist, Some current =>
      let cur :=
        match effectType twist with
        | steal_star =>
            let targetStars :=
              filter (ownedBy (p_id targetPlayer)) (stars gs) in
            if (0 <? length targetStars)%nat then
              match JS.pick r targetStars with
              | Some randomStar =>
                  setPlayers
                    (stealPlayers randomStar current targetPlayer
                       (players gs))
                    (setStars (stealStars randomStar current (stars gs)) gs)
              | None => gs
              end
            else gs
        | swap_positions =>
            setPlayers (swapPositions current targetPlayer (players gs)) gs
        | freeze_player =>
            setModifiers
              (addModifier (mkModifier (p_id targetPlayer) mod_frozen 1 None)
                 (modifiers gs)) gs
        | points_swap =>
            if score current <? score targetPlayer then
              setPlayers (swapScores current targetPlayer (players gs)) gs
            else gs
        | _ => gs
        end in
      let cur := setShowTwistChoice false cur in
      let cur := setActiveTwist None cur in
      handleNextTurn gs cur
  | _, _ => gs
  end.

(* ---- handleTwistConfirm ----
   r, rLevel and rQuestion stand for the Math.random() calls of
   random_teleport, of the difficulty of a bonus question and of the
   question drawn.  usedQuestionIds is a ref: selectQuestionByDifficulty
   reads and writes its current content. *)
Definition handleTwistConfirm (gs : GameState) (r rLevel rQuestion : nat)
  : GameState :=
  match activeTwist gs, currentTurnPlayer gs with
  | Some twist, Some current =>
      let result :=
        executeImmediateTwist twist current (players gs) (stars gs) r in
      let cur :=
        match r_players result with
        | Some updatedPlayers => setPlayers updatedPlayers gs
        | None => gs
        end in
      let cur :=
        match r_stars result with
        | Some updatedStars => setStars updatedStars cur
        | None => cur
        end in
      let cur :=
        match r_addModifier result with
        | Some modifier =>
            setModifiers (addModifier modifier (modifiers cur)) cur
        | None => cur
        end in
      let cur :=
        match r_extraTurnPending result with
        | Some true => setExtraTurnPending true cur
        | _ => cur
        end in
      let cur :=
        match r_reverseOrder result with
        | Some n =>
            if JS.truthy (Some n)
            then setReverseTurnsRemaining n (setPlayOrderReversed true cur)
            else cur
        | None => cur
        end in
      if showChoicePopup result then
        setGamePhase phase_twistChoice (setShowTwistChoice true cur)
      else if goToBonusQuestion result then
        let randomDifficulty := Z.of_nat (Nat.modulo rLevel 5) + 1 in
        let forcedCategory :=
          getForcedCategory (p_id current) (modifiers gs) in
        let '(selected, used) :=
          selectQuestionByDifficulty (questions gs) (usedQuestionIds cur)
            randomDifficulty forcedCategory rQuestion in
        let cur := setUsedQuestionIds used cur in
        let cur :=
          match selected with
          | Some q => setCurrentQuestion (Some q) cur
          | None => cur
          end in
        setGamePhase phase_twistBonusQ
          (setBonusQuestionSteps (JS.orElse (effectValue twist) 5) cur)
      else if goToSpinning result then
        setGamePhase phase_spinning (setActiveTwist None cur)
      else if goToNextTurn result then
        handleNextTurn gs (setActiveTwist None cur)
      else cur
  | _, _ => gs
  end.

(* ---- handleTwistChooseGate ---- *)
Definition handleTwistChooseGate (gs : GameState) (gatePosition : Z)
  : GameState :=
  match currentTurnPlayer gs with
  | Some current =>
      let cur :=
        setPlayers (placePlayer (p_id current) gatePosition (players gs))
          gs in
      let cur := setShowTwistChoice false cur in
      let cur := setActiveTwist None cur in
      handleNextTurn gs cur
  | None => gs
  end.

(* ---- handleBonusQuestionAnswer ----
   answerIsCorrect is answer.isCorrect. *)
Definition handleBonusQuestionAnswer (gs : GameState)
  (answerIsCorrect : bool) : GameState :=
  match currentTurnPlayer gs, currentQuestion gs, gamePhase gs with
  | Some current, Some _, phase_twistBonusQ =>
      if answerIsCorrect then
        let newPos :=
          newPosition (boardPosition current) (bonusQuestionSteps gs) in
        let gatesPassed :=
          getGatesPassed (boardPosition current) (bonusQuestionSteps gs) in
        let cur :=
          setPlayers (placePlayer (p_id current) newPos (players gs)) gs in
        if (0 <? length gatesPassed)%nat
           && (0 <? length (availableStars (stars gs)))%nat then
          let cur :=
            setSelectingStarPlayer (Some current)
              (setGatesPassedQueue gatesPassed cur) in
          setGamePhase phase_selectStar
            (setActiveTwist None (completeCurrentQuestion cur))
        else
          handleNextTurn gs
            (setActiveTwist None (completeCurrentQuestion cur))
      else
        handleNextTurn gs (setActiveTwist None (completeCurrentQuestion gs))
  | _, _, _ => gs
  end.

(* ---- handleTwistFreeStar ---- *)
Definition handleTwistFreeStar (gs : GameState) (star : StarState)
  : GameState :=
  match currentTurnPlayer gs with
  | Some current =>
      let cur := setStars (awardStars star (p_id current) (stars gs)) gs in
      let cur := setPlayers (awardPlayers star (p_id current) (players gs))
                   cur in
      let cur := setShowTwistChoice false cur in
      let cur := setActiveTwist None cur in
      handleNextTurn gs cur
  | None => gs
  end.

End Page.
Import Page.

(* ------------------------------------------------------------------------- *)
(*  The players and stars of a session: how they start (createInitialStars,  *)
(*  createPlayersFromSettings) and every handler of page.tsx that calls      *)
(*  setPlayers or setStars                                                   *)
(* ------------------------------------------------------------------------- *)
Module Session.

Record GameSettings : Type := mkSettings {
  humanPlayerCount : Z;
  humanPlayerNames : list string;
  digitalPlayerCount : nat;
  selectedCategories : list KnowledgeCategory;
  customCategoryText : string
}.

Local Open Scope string_scope.

Definition DIGITAL_PLAYER_AVATARS : list string :=
  ["🤖"; "👾"; "🎮"; "🦾"; "🧠"; "💻"].
Definition HUMAN_PLAYER_AVATARS : list string :=
  ["👦"; "👧"; "🧒"; "👨"; "👩"; "🧑"; "👴"; "👵"].

(* `${n}` *)
Definition numberText (n : nat) : string :=
  DecimalString.NilEmpty.string_of_uint (Nat.to_uint n).

(* arr[i % arr.length] *)
Definition cyclic {A : Type} (d : A) (arr : list A) (i : nat) : A :=
  nth (Nat.modulo i (length arr)) arr d.

Definition humanPlayer (index : nat) (name : string) : Player :=
  mkPlayer (String.append "human-" (numberText index))
    (if String.eqb name "" then String.append "שחקן " (numberText (index + 1))
     else name)
    human 0 (cyclic 0%Z GATE_POSITIONS index) 0
    (cyclic "" HUMAN_PLAYER_AVATARS index).

Definition digitalPlayer (humans i : nat) : Player :=
  let playerIndex := (humans + i)%nat in
  mkPlayer (String.append "digital-" (numberText i))
    (String.append "רובוט " (numberText (i + 1)))
    digital 0 (cyclic 0%Z GATE_POSITIONS playerIndex) 0
    (cyclic "" DIGITAL_PLAYER_AVATARS i).

(* humanPlayerNames.forEach((name, index) => players.push(...)) *)
Fixpoint humansFrom (index : nat) (names : list string) : list Player :=
  match names with
  | [] => []
  | name :: rest => humanPlayer index name :: humansFrom (S index) rest
  end.

Definition createPlayersFromSettings (settings : GameSettings)
  : list Player :=
  humansFrom 0 (humanPlayerNames settings)
  ++ map (digitalPlayer (length (humanPlayerNames settings)))
         (seq 0 (digitalPlayerCount settings)).

Local Close Scope string_scope.

Definition Board : Type := list Player * list StarState.

(* One constructor per handler that writes players or stars.  Players,
   stars and cards are named by their index in players, stars and
   TWIST_CARDS; r stands for Math.random(). *)
Inductive Event : Type :=
| EvMove (who : nat) (steps : Z)
    (* processNextMovement, handleBonusQuestionAnswer *)
| EvReveal (who which : nat)
    (* handleStarRevealComplete *)
| EvTwistConfirm (cardIndex turn r : nat)
    (* handleTwistConfirm *)
| EvChoosePlayer (cardIndex turn target r : nat)
    (* handleTwistChoosePlayer *)
| EvChooseGate (turn : nat) (gatePosition : Z)
    (* handleTwistChooseGate *)
| EvFreeStar (turn which : nat).
    (* handleTwistFreeStar *)

Definition orKeep {A : Type} (update : option A) (old : A) : A :=
  match update with
  | Some new => new
  | None => old
  end.

Definition apply (e : Event) (b : Board) : Board :=
  let '(players, stars) := b in
  match e with
  | EvMove who steps =>
      match nth_error players who with
      | Some player =>
          (placePlayer (p_id player)
             (newPosition (boardPosition player) steps) players, stars)
      | None => b
      end
  | EvReveal who which =>
      match nth_error players who, nth_error stars which with
      | Some selecting, Some revealing =>
          (awardPlayers revealing (p_id selecting) players,
           awardStars revealing (p_id selecting) stars)
      | _, _ => b
      end
  | EvTwistConfirm cardIndex turn r =>
      match nth_error TWIST_CARDS cardIndex, nth_error players turn with
      | Some twist, Some current =>
          let result :=
            executeImmediateTwist twist current players stars r in
          (orKeep (r_players result) players, orKeep (r_stars result) stars)
      | _, _ => b
      end
  | EvChoosePlayer cardIndex turn target r =>
      match nth_error TWIST_CARDS cardIndex,
            nth_error players turn, nth_error players target with
      | Some twist, Some current, Some targetPlayer =>
          match effectType twist with
          | steal_star =>
              match JS.pick r (filter (ownedBy (p_id targetPlayer)) stars)
              with
              | Some randomStar =>
                  (stealPlayers randomStar current targetPlayer players,
                   stealStars randomStar current stars)
              | None => b
              end
          | swap_positions =>
              (swapPositions current targetPlayer players, stars)
          | points_swap =>
              if score current <? score targetPlayer
              then (swapScores current targetPlayer players, stars)
              else b
          | _ => b
          end
      | _, _, _ => b
      end
  | EvChooseGate turn gatePosition =>
      match nth_error players turn with
      | Some current =>
          (placePlayer (p_id current) gatePosition players, stars)
      | None => b
      end
  | EvFreeStar turn which =>
      match nth_error players turn, nth_error stars which with
      | Some current, Some star =>
          (awardPlayers star (p_id current) players,
           awardStars star (p_id current) stars)
      | _, _ => b
      end
  end.

Definition present {A : Type} (v : option A) : bool :=
  match v with
  | Some _ => true
  | None => false
  end.

Definition unearnedAt (stars : list StarState) (which : nat) : bool :=
  match nth_error stars which with
  | Some s => negb (isEarned s)
  | None => false
  end.

(* What the page offers: the board lets only unearned stars be clicked;
   the choice popup lists the other players only, and for steal_star only
   those with starsCollected > 0; gates are chosen among GATE_POSITIONS;
   step counts are products of a difficulty and a multiplier. *)
Definition enabled (e : Event) (b : Board) : bool :=
  let '(players, stars) := b in
  match e with
  | EvMove who steps => present (nth_error players who) && (0 <=? steps)
  | EvReveal who which =>
      present (nth_error players who) && unearnedAt stars which
  | EvTwistConfirm cardIndex turn r =>
      present (nth_error TWIST_CARDS cardIndex)
      && present (nth_error players turn)
  | EvChoosePlayer cardIndex turn target r =>
      match nth_error TWIST_CARDS cardIndex,
            nth_error players turn, nth_error players target with
      | Some twist, Some current, Some targetPlayer =>
          requiresChoice twist
          && negb (String.eqb (p_id targetPlayer) (p_id current))
          && match effectType twist with
             | steal_star => starsCollected targetPlayer >? 0
             | _ => true
             end
      | _, _, _ => false
      end
  | EvChooseGate turn gatePosition =>
      present (nth_error players turn)
      && JS.includes GATE_POSITIONS gatePosition
  | EvFreeStar turn which =>
      present (nth_error players turn) && unearnedAt stars which
  end.

Inductive reachable : Board -> Prop :=
| reach_start (settings : GameSettings) (shuffledValues : list Z) :
    Permutation shuffledValues STAR_POINT_VALUES ->
    reachable (createPlayersFromSettings settings,
               createInitialStars shuffledValues)
| reach_event (b : Board) (e : Event) :
    reachable b -> enabled e b = true -> reachable (apply e b).

(* a run of events from a board *)
Definition play (events : list Event) (b : Board) : Board :=
  fold_left (fun b e => apply e b) events b.

Definition total (l : list Z) : Z := fold_right Z.add 0 l.

Definition starTotal (stars : list StarState) : Z :=
  total (map pointValue stars).





Definition scoresNonNegative (players : list Player) : Prop :=
  forall p, In p players -> 0 <= score p.

End Session.
Import Session.

(* ------------------------------------------------------------------------- *)
(*  Sample sessions used to run the definitions                              *)
(* ------------------------------------------------------------------------- *)
Module Samples.

Local Open Scope string_scope.

(* two human players, no digital player *)
Definition twoHumans : GameSettings :=
  mkSettings 2 ["Dana"; "Omer"] 0 [history; science] "".

(* the state GameContent starts from, once players and stars are set *)
Definition newGame (players : list Player) (stars : list StarState)
  : GameState :=
  mkGame players stars 0 phase_spinning None [] 0 [] [] 0 [] None None
    None 0 None [] false false false 0 [] [] 5.

(* a shuffle that leaves the values in place, and one that puts the star
   worth 250 first *)
Definition unshuffled : list Z := STAR_POINT_VALUES.
Definition bestFirst : list Z :=
  [250; 0; 50; 50; 100; 100; 150; 150; 200; 200].

Definition dana : Player := nth 0 (createPlayersFromSettings twoHumans)
                              (mkPlayer "" "" human 0 0 0 "").
Definition omer : Player := nth 1 (createPlayersFromSettings twoHumans)
                              (mkPlayer "" "" human 0 0 0 "").

(* the card at a position of the catalogue *)
Definition cardAt (i : nat) : TwistCard :=
  nth i TWIST_CARDS (mkTwist "" extra_turn None None true false false).

Definition freezeCard : TwistCard := cardAt 18.
Definition pointsSwapCard : TwistCard := cardAt 12.

(* a move_back_gate card whose effectValue is 0 *)
Definition backZeroCard : TwistCard :=
  mkTwist "twist-back-gate-0" move_back_gate (Some 0) (Some target_self)
    false false false.

(* Dana on position 7, Omer on his starting gate *)
Definition danaOnSeven : list Player := [withPosition dana 7; omer].

(* Dana has drawn the freeze card and the choice popup is open *)
Definition danaFreezes : GameState :=
  setGamePhase phase_twistChoice
    (setShowTwistChoice true
       (setActiveTwist (Some freezeCard)
          (newGame (createPlayersFromSettings twoHumans)
                   (createInitialStars unshuffled)))).



(* a session whose first star is worth 250: Omer takes it, Dana swaps
   points with Omer, then Dana steals Omer's star *)
Definition richBoard : Board :=
  (createPlayersFromSettings twoHumans, createInitialStars bestFirst).

(* the same session once Omer has taken the first star *)
Definition omerAhead : Board := apply (EvReveal 1 0) richBoard.

Definition robbedBoard : Board :=
  play [EvReveal 1 0; EvChoosePlayer 12 0 1 0; EvChoosePlayer 7 0 1 0]
    richBoard.

(* Dana, with no points, has drawn the points_swap card; Omer has 250 *)
Definition danaSwaps : GameState :=
  setGamePhase phase_twistChoice
    (setShowTwistChoice true
       (setActiveTwist (Some pointsSwapCard)
          (newGame [dana; withScoreAndStars omer 250 1]
                   (awardStars (mkStar 0 250 false None) (p_id omer)
                      (createInitialStars bestFirst))))).


End Samples.
Import Samples.

(* ------------------------------------------------------------------------- *)
(*  Vocabulary of the statements below                                       *)
(* ------------------------------------------------------------------------- *)
Module Vocabulary.

(* the positions stepped on, one per step, in the order of the walk *)
Definition traversed (p s : Z) : list Z :=
  map (fun i => (p + Z.of_nat i) mod 25) (seq 1 (Z.to_nat s)).

Definition isGate (pos : Z) : bool := JS.includes GATE_POSITIONS pos.

(* the pair a modifier is filed under *)
Definition key (m : PlayerModifier) : string * ModifierType :=
  (playerId m, m_type m).

(* a call that neither adds nor removes under the key k *)
Definition leaves (k : string * ModifierType) (c : StoreCall) : Prop :=
  match c with
  | CallAdd modifier => key modifier <> k
  | CallRemove pid ty => (pid, ty) <> k
  | CallTick => True
  end.

(* how many ticks a run of calls holds *)
Fixpoint ticks (calls : list StoreCall) : Z :=
  match calls with
  | [] => 0
  | CallTick :: rest => 1 + ticks rest
  | _ :: rest => ticks rest
  end.

(* where an entry of the store comes from: the latest add under its key,
   with nothing added or removed under that key since *)
Definition tracedTo (calls : list StoreCall) (m : PlayerModifier) : Prop :=
  exists before latest after,
    calls = before ++ CallAdd latest :: after
    /\ key latest = key m
    /\ Forall (leaves (key m)) after
    /\ m_value m = m_value latest
    /\ turnsRemaining m = turnsRemaining latest - ticks after.

(* the two results of executeImmediateTwist on a move_back_gate card *)
Definition backToGate (current : Player) (players : list Player)
  : TwistExecutionResult :=
  moved (mapPlayer (p_id current)
           (fun p => withPosition p
                       (findPreviousGate (boardPosition current))) players)
        (msg_went_back_to_gate (p_name current)).

Definition backSteps (current : Player) (players : list Player) (n : Z)
  : TwistExecutionResult :=
  moved (mapPlayer (p_id current)
           (fun p => withPosition p
                       (JS.rem (boardPosition current - n + 25) 25)) players)
        (msg_went_back_steps (p_name current) n).

(* the star update of upgrade_zero_star *)
Definition upgraded (zeroStar s : StarState) : StarState :=
  if s_id s =? s_id zeroStar then withPointValue s 250 else s.

(* the star values once the star worth 0 has been upgraded to 250 *)
Definition UPGRADED_VALUES : list Z :=
  [250; 50; 50; 100; 100; 150; 150; 200; 200; 250].

(* what every board of a session satisfies: player ids and star ids are
   unique, and the star values are the initial ones, or the initial ones
   with the 0 replaced by 250 *)
Definition sound (b : Board) : Prop :=
  NoDup (map p_id (fst b))
  /\ NoDup (map s_id (snd b))
  /\ (Permutation (map pointValue (snd b)) STAR_POINT_VALUES
      \/ Permutation (map pointValue (snd b)) UPGRADED_VALUES).

(* two players that differ at most in their score *)
Definition sameButScore (p p' : Player) : Prop :=
  p_id p' = p_id p /\ p_name p' = p_name p /\ p_type p' = p_type p
  /\ boardPosition p' = boardPosition p
  /\ starsCollected p' = starsCollected p
  /\ avatarEmoji p' = avatarEmoji p.

End Vocabulary.
Import Vocabulary.

From Stdlib Require Import Sorted.

(* ------------------------------------------------------------------------- *)
(*  The Fisher-Yates loop: shuffleArray (src/types/game.types.ts) and        *)
(*  getShuffledTwists (src/data/twists.ts)                                   *)
(* ------------------------------------------------------------------------- *)
Module Shuffle.

(* shuffled[i] = v, for an index inside the array *)
Fixpoint assign {A : Type} (shuffled : list A) (i : nat) (v : A) : list A :=
  match shuffled, i with
  | [], _ => []
  | _ :: rest, O => v :: rest
  | x :: rest, S i' => x :: assign rest i' v
  end.

(* [shuffled[i], shuffled[j]] = [shuffled[j], shuffled[i]]: both cells are
   read, then cell i and cell j are written.  The loop below calls it with
   j <= i < shuffled.length only. *)
Definition exchange {A : Type} (shuffled : list A) (i j : nat) : list A :=
  match nth_error shuffled j, nth_error shuffled i with
  | Some atJ, Some atI => assign (assign shuffled i atJ) j atI
  | _, _ => shuffled
  end.

(* for (let i = shuffled.length - 1; i > 0; i--) {
     const j = Math.floor(Math.random() * (i + 1));
     [shuffled[i], shuffled[j]] = [shuffled[j], shuffled[i]]; }
   random i stands for the draw made at index i: any j <= i can come out. *)
Fixpoint shuffleFrom {A : Type} (random : nat -> nat) (i : nat)
  (shuffled : list A) : list A :=
  match i with
  | O => shuffled
  | S i' =>
      shuffleFrom random i'
        (exchange shuffled i (Nat.modulo (random i) (i + 1)))
  end.

Definition shuffleArray {A : Type} (random : nat -> nat) (array : list A)
  : list A :=
  shuffleFrom random (length array - 1) array.

Definition getShuffledTwists (random : nat -> nat) : list TwistCard :=
  shuffleFrom random (length TWIST_CARDS - 1) TWIST_CARDS.

(* the draws of a shuffle, changed at one index *)
Definition drawAt (random : nat -> nat) (i j : nat) : nat -> nat :=
  fun k => if Nat.eqb k i then j else random k.

End Shuffle.
Import Shuffle.

(* ------------------------------------------------------------------------- *)
(*  src/hooks/useTwists.ts: the deck of twist cards                          *)
(* ------------------------------------------------------------------------- *)
Module TwistDeck.

(* the two refs of the hook: twistDeck and usedTwistIds (a Set<string>,
   kept as the list of its members) *)
Record Deck : Type := mkDeck {
  twistDeck : list TwistCard;
  usedTwistIds : list string
}.

(* useRef(getShuffledTwists()), useRef(new Set()) *)
Definition freshDeck (shuffle : nat -> nat) : Deck :=
  mkDeck (getShuffledTwists shuffle) [].

(* shuffle stands for the draws of the reshuffle, r for the draw among the
   available cards.  The result is the card returned (None for null) and
   the refs after the call. *)
Definition drawTwist (d : Deck) (shuffle : nat -> nat) (r : nat)
  : option TwistCard * Deck :=
  let availableTwists :=
    filter (fun t => negb (has (usedTwistIds d) (t_id t))) (twistDeck d) in
  if (length availableTwists =? 0)%nat then
    let reshuffled := getShuffledTwists shuffle in
    (nth_error reshuffled 0, mkDeck reshuffled [])
  else (JS.pick r availableTwists, d).

Definition markTwistUsed (twistId : string) (d : Deck) : Deck :=
  mkDeck (twistDeck d) (add (usedTwistIds d) twistId).

Definition remainingTwists (d : Deck) : Z :=
  Z.of_nat (length (twistDeck d)) - Z.of_nat (length (usedTwistIds d)).

(* what handleWheelComplete does with the deck when the wheel stops on
   'twist': const twist = drawTwist(); if (twist) markTwistUsed(twist.id) *)
Definition drawAndMark (d : Deck) (shuffle : nat -> nat) (r : nat)
  : option TwistCard * Deck :=
  match drawTwist d shuffle r with
  | (Some twist, d') => (Some twist, markTwistUsed (t_id twist) d')
  | (None, d') => (None, d')
  end.

(* the random draws of one call *)
Record Draw : Type := mkDraw {
  dr_shuffle : nat -> nat;
  dr_random : nat
}.

(* one call per element of draws, in order *)
Fixpoint drawRun (d : Deck) (draws : list Draw)
  : list (option TwistCard) * Deck :=
  match draws with
  | [] => ([], d)
  | dr :: rest =>
      let '(drawn, d') := drawAndMark d (dr_shuffle dr) (dr_random dr) in
      let '(more, final) := drawRun d' rest in
      (drawn :: more, final)
  end.

(* the cards a run has returned *)
Fixpoint cardsOf (drawn : list (option TwistCard)) : list TwistCard :=
  match drawn with
  | [] => []
  | Some twist :: rest => twist :: cardsOf rest
  | None :: rest => cardsOf rest
  end.

End TwistDeck.
Import TwistDeck.

(* ------------------------------------------------------------------------- *)
(*  src/hooks/useQuestions.ts: how many questions are left                   *)
(* ------------------------------------------------------------------------- *)
Module QuestionSupply.

(* questions.length - usedQuestionIds.current.size *)
Definition remainingQuestions (questions : list TriviaQuestion)
  (usedIds : list string) : Z :=
  Z.of_nat (length questions) - Z.of_nat (length usedIds).

Definition hasMoreQuestions (questions : list TriviaQuestion)
  (usedIds : list string) : bool :=
  remainingQuestions questions usedIds >? 0.

(* one call of selectQuestionByDifficulty: its arguments and its draw *)
Record Request : Type := mkRequest {
  rq_difficulty : Z;
  rq_forced : option KnowledgeCategory;
  rq_random : nat
}.

(* one call per request, in order, on the same ref usedQuestionIds *)
Fixpoint selectRun (questions : list TriviaQuestion) (usedIds : list string)
  (requests : list Request)
  : list (option TriviaQuestion) * list string :=
  match requests with
  | [] => ([], usedIds)
  | rq :: rest =>
      let '(selected, used) :=
        selectQuestionByDifficulty questions usedIds (rq_difficulty rq)
          (rq_forced rq) (rq_random rq) in
      let '(more, final) := selectRun questions used rest in
      (selected :: more, final)
  end.

(* the questions a run has returned *)
Fixpoint served (selected : list (option TriviaQuestion))
  : list TriviaQuestion :=
  match selected with
  | [] => []
  | Some q :: rest => q :: served rest
  | None :: rest => served rest
  end.

End QuestionSupply.
Import QuestionSupply.

(* ------------------------------------------------------------------------- *)
(*  src/lib/twistHandlers.ts: the remaining helpers                          *)
(* ------------------------------------------------------------------------- *)
Module TwistHelpers.

(* doubleModifier ? (doubleModifier.value as number || 2) : 1
   The cast converts nothing: a value that is a category name (a non-empty
   string, which is truthy) comes back as it is. *)
Definition getStepsMultiplier (pid : string)
  (modifiers : list PlayerModifier) : ModifierValue :=
  match JS.find_first
          (fun m => String.eqb (playerId m) pid
                    && modtype_eqb (m_type m) mod_double_next
                    && (turnsRemaining m >? 0)) modifiers with
  | Some doubleModifier =>
      match m_value doubleModifier with
      | Some (val_number n) => val_number (JS.orElse (Some n) 2)
      | Some (val_category c) => val_category c
      | None => val_number 2
      end
  | None => val_number 1
  end.

Definition hasShieldProtection (pid : string)
  (modifiers : list PlayerModifier) : bool :=
  existsb (fun m => String.eqb (playerId m) pid
                    && modtype_eqb (m_type m) mod_shield
                    && (turnsRemaining m >? 0)) modifiers.

End TwistHelpers.
Import TwistHelpers.

(* ------------------------------------------------------------------------- *)
(*  src/app/game/page.tsx: the question round, from the countdown to the     *)
(*  movements, and the final ranking                                         *)
(* ------------------------------------------------------------------------- *)
Module Round.

(* an answer of the current question: AnswerOption without its text.  The
   record TriviaQuestion above leaves the answers out; the handler below
   takes currentQuestion.answers as an argument. *)
Record AnswerOption : Type := mkOption {
  ao_id : string;
  ao_isCorrect : bool
}.

(* a === b on two optional strings (undefined === undefined holds) *)
Definition sameOptional (a b : option string) : bool :=
  match a, b with
  | Some x, Some y => String.eqb x y
  | None, None => true
  | _, _ => false
  end.

(* playerAnswers.find(pa => pa.playerId === player.id)?.answerId *)
Definition answerOf (playerAnswers : list PlayerAnswer) (player : Player)
  : option string :=
  option_map answerId
    (JS.find_first (fun pa => String.eqb (a_playerId pa) (p_id player))
       playerAnswers).

(* player.id === currentTurnPlayer?.id *)
Definition hasTurn (gs : GameState) (player : Player) : bool :=
  match currentTurnPlayer gs with
  | Some current => String.eqb (p_id player) (p_id current)
  | None => false
  end.

(* The body of players.map(player => ...) in handleCountdownComplete, run
   over the players that are left.  modifiers is the captured store that
   getStepsMultiplier reads; store is the store the removeModifier updaters
   act on.  baseSteps * multiplier is a number only when the multiplier is:
   None stands for the product NaN that a category name gives. *)
Fixpoint countSteps (gs : GameState) (correctAnswerId : option string)
  (difficulty : Z) (todo : list Player) (store : list PlayerModifier)
  : option (list PlayerStepsEarned * list PlayerModifier) :=
  match todo with
  | [] => Some ([], store)
  | player :: rest =>
      let isCorrect :=
        sameOptional (answerOf (playerAnswers gs) player) correctAnswerId in
      let isCurrentTurn := hasTurn gs player in
      if isCorrect then
        let baseSteps := if isCurrentTurn then difficulty else 1 in
        match getStepsMultiplier (p_id player) (modifiers gs) with
        | val_number multiplier =>
            let store :=
              if multiplier >? 1
              then removeModifier (p_id player) mod_double_next store
              else store in
            match countSteps gs correctAnswerId difficulty rest store with
            | Some (results, store') =>
                Some (mkSteps player (baseSteps * multiplier) isCorrect
                        isCurrentTurn :: results, store')
            | None => None
            end
        | val_category _ => None
        end
      else
        match countSteps gs correctAnswerId difficulty rest store with
        | Some (results, store') =>
            Some (mkSteps player 0 isCorrect isCurrentTurn :: results,
                  store')
        | None => None
        end
  end.

(* stepsResults.filter(r => r.stepsEarned > 0)
     .map(r => ({ playerId: r.player.id, steps: r.stepsEarned })) *)
Definition movementsOf (stepsResults : list PlayerStepsEarned)
  : list Movement :=
  map (fun r => mkMovement (p_id (se_player r)) (stepsEarned r))
    (filter (fun r => stepsEarned r >? 0) stepsResults).

(* ---- handleCountdownComplete ----
   answers is currentQuestion.answers.  The countdown calls the callback of
   the latest render, so it reads the state it acts on. *)
Definition handleCountdownComplete (gs : GameState)
  (answers : list AnswerOption) : option GameState :=
  match currentQuestion gs with
  | None => Some gs
  | Some question =>
      let correctAnswerId :=
        option_map ao_id (JS.find_first ao_isCorrect answers) in
      match countSteps gs correctAnswerId (q_difficulty question)
              (players gs) (modifiers gs) with
      | Some (stepsResults, store) =>
          let cur := setModifiers store gs in
          let cur := setRoundSteps stepsResults cur in
          let cur := setPendingMovements (movementsOf stepsResults) cur in
          let cur := setCurrentMovingPlayerIndex 0 cur in
          Some (setGamePhase phase_results cur)
      | None => None
      end
  end.

(* ---- handleStartMovement ---- *)
Definition handleStartMovement (gs : GameState) : GameState :=
  if (length (pendingMovements gs) =? 0)%nat then handleNextTurn gs gs
  else setGamePhase phase_moving (setCurrentMovingPlayerIndex 0 gs).


(* arr.sort(compare): the sort is stable, so with a comparator that orders
   the elements the result is the one an insertion from the right gives *)
Fixpoint insertSorted {A : Type} (compare : A -> A -> Z) (x : A)
  (sorted : list A) : list A :=
  match sorted with
  | [] => [x]
  | y :: rest =>
      if compare x y >? 0 then y :: insertSorted compare x rest
      else x :: y :: rest
  end.

Definition sort {A : Type} (compare : A -> A -> Z) (arr : list A) : list A :=
  fold_right (insertSorted compare) [] arr.

(* const sortedPlayers = [...players].sort((a, b) => b.score - a.score);
   const winner = sortedPlayers[0] *)
Definition sortedPlayers (players : list Player) : list Player :=
  sort (fun a b => score b - score a) players.

Definition winner (players : list Player) : option Player :=
  nth_error (sortedPlayers players) 0.

End Round.
Import Round.

(* ------------------------------------------------------------------------- *)
(*  src/app/game/page.tsx: the wheel, the twist deck and the choices         *)
(*  that set up a later spin                                                 *)
(* ------------------------------------------------------------------------- *)
Module Wheel.

(* GameContent with the cells GameState leaves out: chosenDifficulty and
   the two refs of useTwists *)
Record Table : Type := mkTable {
  game : GameState;
  chosenDifficulty : option Z;
  deck : Deck
}.

(* selectQuestionByDifficulty as the hook runs it: the ref usedQuestionIds
   is updated and a question that is found becomes currentQuestion *)
Definition selectInto (gs : GameState) (difficulty : Z)
  (forcedCategory : option KnowledgeCategory) (r : nat) : GameState :=
  let '(selected, used) :=
    selectQuestionByDifficulty (questions gs) (usedQuestionIds gs)
      difficulty forcedCategory r in
  let cur := setUsedQuestionIds used gs in
  match selected with
  | Some q => setCurrentQuestion (Some q) cur
  | None => cur
  end.

(* ---- handleWheelComplete ----
   shuffle and rTwist are the draws of drawTwist, rLevel the draw of the
   random difficulty, rQuestion the draw of the question.  The phase is
   the one the timeout sets. *)
Definition handleWheelComplete (t : Table) (result : WheelOption)
  (shuffle : nat -> nat) (rTwist rLevel rQuestion : nat) : Table :=
  let gs := game t in
  let cur := setWheelResult (Some result) gs in
  let forcedCategory :=
    match currentTurnPlayer gs with
    | Some current => getForcedCategory (p_id current) (modifiers gs)
    | None => None
    end in
  match result with
  | wheel_twist =>
      match drawTwist (deck t) shuffle rTwist with
      | (Some twist, d) =>
          mkTable (setGamePhase phase_twist
                     (setActiveTwist (Some twist) cur))
            (chosenDifficulty t) (markTwistUsed (t_id twist) d)
      | (None, d) =>
          let randomDifficulty := Z.of_nat (Nat.modulo rLevel 5) + 1 in
          mkTable (setGamePhase phase_question
                     (selectInto cur randomDifficulty forcedCategory
                        rQuestion))
            (chosenDifficulty t) d
      end
  | wheel_level level =>
      let difficultyToUse := JS.orElse (chosenDifficulty t) level in
      mkTable (setGamePhase phase_question
                 (selectInto cur difficultyToUse forcedCategory rQuestion))
        None (deck t)
  end.

(* ---- handleTwistChooseDifficulty ---- *)
Definition handleTwistChooseDifficulty (t : Table) (difficulty : Z)
  : Table :=
  mkTable (setGamePhase phase_spinning
             (setActiveTwist None (setShowTwistChoice false (game t))))
    (Some difficulty) (deck t).

(* ---- handleTwistChooseCategory ----
   ends with setTimeout(() => handleNextTurn(), 1000), as
   handleTwistChoosePlayer does *)
Definition handleTwistChooseCategory (gs : GameState)
  (category : KnowledgeCategory) : GameState :=
  match currentTurnPlayer gs, activeTwist gs with
  | Some current, Some twist =>
      let cur :=
        setModifiers
          (addModifier
             (mkModifier (p_id current) mod_category_master
                (JS.orElse (effectValue twist) 3)
                (Some (val_category category)))
             (modifiers gs)) gs in
      let cur := setShowTwistChoice false cur in
      let cur := setActiveTwist None cur in
      handleNextTurn gs cur
  | _, _ => gs
  end.

End Wheel.
Import Wheel.

(* ------------------------------------------------------------------------- *)
(*  Vocabulary of the statements on turns, rounds and decks                  *)
(* ------------------------------------------------------------------------- *)
Module Turns.

(* handleNextTurn run by a render that has seen every earlier update *)
Definition advance (gs : GameState) : GameState := handleNextTurn gs gs.

Definition advances (k : nat) (gs : GameState) : GameState :=
  Nat.iter k advance gs.

(* nobody is frozen and no extra turn is pending *)
Definition calm (gs : GameState) : Prop :=
  extraTurnPending gs = false
  /\ forall pid, isPlayerFrozen pid (modifiers gs) = false.

(* the turn index names a player *)
Definition seated (gs : GameState) : Prop :=
  0 <= currentTurnIndex gs < Z.of_nat (length (players gs)).

(* every player stands on one of the 25 steps *)
Definition onBoard (players : list Player) : Prop :=
  forall p, In p players -> 0 <= boardPosition p < 25.

(* the step count of a card keeps the players on the 25 steps: at most 25
   steps back, no negative number of steps forward *)
Definition tame (twist : TwistCard) : bool :=
  match effectType twist with
  | move_back_gate =>
      match effectValue twist with
      | Some n => n <=? 25
      | None => true
      end
  | everyone_moves => 0 <=? JS.orElse (effectValue twist) 2
  | _ => true
  end.

(* every double_next entry carries a number or nothing, as the one
   executeImmediateTwist builds does *)
Definition numericDoubles (store : list PlayerModifier) : Prop :=
  forall m, In m store -> m_type m = mod_double_next ->
            forall c, m_value m <> Some (val_category c).

(* no string occurs twice *)
Fixpoint distinct (ids : list string) : bool :=
  match ids with
  | [] => true
  | id :: rest => negb (has rest id) && distinct rest
  end.

(* currentQuestion.answers.find(a => a.isCorrect)?.id *)
Definition correctAnswerIdOf (answers : list AnswerOption) : option string :=
  option_map ao_id (JS.find_first ao_isCorrect answers).

(* the player's answer is the right one *)
Definition answeredRight (gs : GameState) (answers : list AnswerOption)
  (player : Player) : bool :=
  sameOptional (answerOf (playerAnswers gs) player)
    (correctAnswerIdOf answers).

(* the player's multiplier, when it is a number *)
Definition multiplierOf (gs : GameState) (player : Player) : Z :=
  match getStepsMultiplier (p_id player) (modifiers gs) with
  | val_number n => n
  | val_category _ => 1
  end.

(* the steps a round gives a player: the difficulty for the player whose
   turn it is, 1 for the others, times the multiplier, and nothing for a
   wrong answer *)
Definition stepsFor (gs : GameState) (answers : list AnswerOption)
  (difficulty : Z) (player : Player) : Z :=
  if answeredRight gs answers player
  then (if hasTurn gs player then difficulty else 1) * multiplierOf gs player
  else 0.

(* how many stars a player owns on the board *)
Definition owned (pid : string) (stars : list StarState) : Z :=
  Z.of_nat (length (filter (ownedBy pid) stars)).

(* the star counters agree with the board: a star is earned exactly when
   it has an owner, every owner is a player, and every player's
   starsCollected is the number of stars the player owns *)
Definition countersMatch (b : Board) : Prop :=
  (forall s, In s (snd b) -> isEarned s = present (earnedByPlayerId s))
  /\ (forall s pid, In s (snd b) -> earnedByPlayerId s = Some pid ->
                    In pid (map p_id (fst b)))
  /\ (forall p, In p (fst b) -> starsCollected p = owned (p_id p) (snd b)).

(* the used set holds ids of the questions, each once *)
Definition tidy (questions : list TriviaQuestion) (usedIds : list string)
  : Prop :=
  NoDup usedIds /\ incl usedIds (map q_id questions).

End Turns.
Import Turns.

(* ------------------------------------------------------------------------- *)
(*  More sample sessions                                                     *)
(* ------------------------------------------------------------------------- *)
Module Sessions.

Local Open Scope string_scope.

(* two humans and one digital player *)
Definition threePlayers : GameSettings :=
  mkSettings 2 ["Dana"; "Omer"] 1 [history; science] "".

Definition robot : Player :=
  nth 2 (createPlayersFromSettings threePlayers)
    (mkPlayer "" "" digital 0 0 0 "").

(* draws that always give 0 *)
Definition zeros : nat -> nat := fun _ => 0%nat.

Definition threeAtStart : GameState :=
  newGame (createPlayersFromSettings threePlayers)
    (createInitialStars unshuffled).

(* Dana's turn ends while both players hold a frozen modifier *)
Definition bothFrozen : GameState :=
  setModifiers [mkModifier (p_id dana) mod_frozen 1 None;
                mkModifier (p_id omer) mod_frozen 1 None]
    (newGame (createPlayersFromSettings twoHumans)
       (createInitialStars unshuffled)).

(* the reverse_order card of the catalogue, drawn by Dana *)
Definition reverseCard : TwistCard := cardAt 19.

Definition danaReverses : GameState :=
  setGamePhase phase_twist
    (setActiveTwist (Some reverseCard) threeAtStart).

(* three questions, one per difficulty 1, 3 and 5 *)
Definition threeQuestions : list TriviaQuestion :=
  [ mkQuestion "q-1" 1 history;
    mkQuestion "q-2" 3 science;
    mkQuestion "q-3" 5 history ].

Definition secondQuestion : TriviaQuestion := mkQuestion "q-2" 3 science.
Definition thirdQuestion : TriviaQuestion := mkQuestion "q-3" 5 history.

(* the used set once the second of them has been asked *)
Definition secondAsked : list string := ["q-2"].


(* the answers of a question: the second one is right *)
Definition fourAnswers : list AnswerOption :=
  [ mkOption "a-1" false; mkOption "a-2" true;
    mkOption "a-3" false; mkOption "a-4" false ].

(* Dana, whose turn it is, and the robot answer a difficulty-3 question
   right, Omer answers wrong; Dana holds a double_next *)
Definition answered : GameState :=
  setModifiers [mkModifier (p_id dana) mod_double_next 1
                  (Some (val_number 2))]
    (setPlayerAnswers
       [ mkAnswer (p_id dana) "a-2"; mkAnswer (p_id omer) "a-1";
         mkAnswer (p_id robot) "a-2" ]
       (setCurrentQuestion (Some secondQuestion)
          (setGamePhase phase_countdown threeAtStart))).

End Sessions.
Import Sessions.

(* ========================================================================= *)
(*  Theorems                                                                 *)
(* ========================================================================= *)

(* read a cell of a state written as a chain of setters *)
Ltac cells :=
  cbn [
    players stars currentTurnIndex gamePhase wheelResult playerAnswers
    activeHumanIndex roundSteps pendingMovements
    currentMovingPlayerIndex gatesPassedQueue selectingStarPlayer
    revealingStar currentQuestion questionsAnswered activeTwist
    modifiers showTwistChoice extraTurnPending playOrderReversed
    reverseTurnsRemaining questions usedQuestionIds bonusQuestionSteps
    setPlayers setStars setCurrentTurnIndex setGamePhase
    setWheelResult setPlayerAnswers setActiveHumanIndex setRoundSteps
    setPendingMovements setCurrentMovingPlayerIndex
    setGatesPassedQueue setSelectingStarPlayer setRevealingStar
    setCurrentQuestion setQuestionsAnswered setActiveTwist
    setModifiers setShowTwistChoice setExtraTurnPending
    setPlayOrderReversed setReverseTurnsRemaining setQuestions
    setUsedQuestionIds setBonusQuestionSteps completeCurrentQuestion ].


Section BoardGeometry.

Lemma gatesLoop_spec (p : Z) (todo : nat) :
  forall (i : Z) (acc : list Z),
    gatesLoop p i todo acc =
    acc ++ filter isGate
             (map (fun k => JS.rem (p + (i + Z.of_nat k)) Board.TOTAL_STEPS)
                  (seq 0 todo)).
Proof.
  induction todo as [|n IH]; intros i acc.
  - simpl. now rewrite app_nil_r.
  - cbn [gatesLoop]. rewrite IH. cbn [seq map filter].
    rewrite <- seq_shift, map_map.
    replace (p + (i + Z.of_nat 0)) with (p + i) by lia.
    unfold isGate at 2.
    assert (E : map (fun k => JS.rem (p + (i + 1 + Z.of_nat k)) Board.TOTAL_STEPS)
                    (seq 0 n)
                = map (fun k => JS.rem (p + (i + Z.of_nat (S k))) Board.TOTAL_STEPS)
                    (seq 0 n)).
    { apply map_ext. intros k. f_equal. lia. }
    rewrite E.
    destruct (JS.includes GATE_POSITIONS (JS.rem (p + i) Board.TOTAL_STEPS)).
    + now rewrite <- app_assoc.
    + reflexivity.
Qed.

Lemma isGate_iff (pos : Z) : isGate pos = true <-> In pos [0; 5; 10; 15; 20].
Proof.
  unfold isGate, JS.includes, GATE_POSITIONS. rewrite existsb_exists.
  split.
  - intros [g [Hin Heq]]. apply Z.eqb_eq in Heq. now subst.
  - intros Hin. exists pos. split; [exact Hin | apply Z.eqb_refl].
Qed.

Lemma newPosition_mod (p s : Z) :
  0 <= p -> 0 <= s -> newPosition p s = (p + s) mod 25.
Proof.
  intros Hp Hs. unfold newPosition, JS.rem, Board.TOTAL_STEPS.
  apply Z.rem_mod_nonneg; lia.
Qed.

Lemma getGatesPassed_filter (p s : Z) :
  0 <= p -> getGatesPassed p s = filter isGate (traversed p s).
Proof.
  intros Hp. unfold getGatesPassed. rewrite gatesLoop_spec. cbn [app].
  unfold traversed. rewrite <- seq_shift, map_map. f_equal.
  apply map_ext_in. intros k Hk. apply in_seq in Hk.
  unfold JS.rem, Board.TOTAL_STEPS.
  replace (p + (1 + Z.of_nat k)) with (p + Z.of_nat (S k)) by lia.
  apply Z.rem_mod_nonneg; lia.
Qed.

(** C3: from a position p in [0,25) and for a step count s >= 0, the
    movement lands on (p + s) mod 25, and getGatesPassed returns exactly
    the positions (p + i) mod 25, i = 1..s, that are gates
    {0, 5, 10, 15, 20}, in the order they are walked (i increasing). *)
Theorem C3_move_and_gates (p s : Z) :
  0 <= p < 25 -> 0 <= s ->
  newPosition p s = (p + s) mod 25
  /\ getGatesPassed p s = filter isGate (traversed p s)
  /\ (forall g, In g (getGatesPassed p s) <->
                In g [0; 5; 10; 15; 20] /\
                exists i, 1 <= i <= s /\ g = (p + i) mod 25).
Proof.
  intros Hp Hs.
  assert (Hgates : getGatesPassed p s = filter isGate (traversed p s))
    by (apply getGatesPassed_filter; lia).
  split; [|split].
  - apply newPosition_mod; lia.
  - exact Hgates.
  - intros g. rewrite Hgates, filter_In, isGate_iff. unfold traversed.
    rewrite in_map_iff. split.
    + intros [[k [Hk Hin]] Hg]. split; [exact Hg|].
      apply in_seq in Hin. exists (Z.of_nat k). split; [lia | now subst].
    + intros [Hg [i [Hi Hgi]]]. split; [|exact Hg].
      exists (Z.to_nat i). split.
      * rewrite Z2Nat.id by lia. now subst.
      * apply in_seq. lia.
Qed.

(** C3, at a concrete move: from position 23, seven steps land on 5 and
    pass the gates 0 and 5 in that order. *)
Lemma C3_move_and_gates_witness :
  (0 <= 23 < 25 /\ 0 <= 7)
  /\ newPosition 23 7 = (23 + 7) mod 25
  /\ getGatesPassed 23 7 = filter isGate (traversed 23 7)
  /\ (forall g, In g (getGatesPassed 23 7) <->
                In g [0; 5; 10; 15; 20] /\
                exists i, 1 <= i <= 7 /\ g = (23 + i) mod 25).
Proof. split; [lia | apply (C3_move_and_gates 23 7); lia]. Defined.

Example gates_23_7 : getGatesPassed 23 7 = [0; 5].
Proof. reflexivity. Qed.

(* processNextMovement on the movement it is at: the moving player lands on
   (p + s) mod 25, and when gates were passed and a star is left the queue
   of gates is the list of C3 and the phase is selectStar *)
Lemma processNextMovement_moves (gs : GameState) (movement : Movement)
  (player : Player) :
  at_index (pendingMovements gs) (currentMovingPlayerIndex gs)
  = Some movement ->
  JS.find_first (fun p => String.eqb (p_id p) (mv_playerId movement))
    (players gs) = Some player ->
  0 <= boardPosition player < 25 -> 0 <= mv_steps movement ->
  let p := boardPosition player in
  let s := mv_steps movement in
  let after := processNextMovement gs in
  players after = placePlayer (p_id player) ((p + s) mod 25) (players gs)
  /\ (getGatesPassed p s <> [] -> availableStars (stars gs) <> [] ->
      gamePhase after = phase_selectStar
      /\ selectingStarPlayer after = Some player
      /\ gatesPassedQueue after = filter isGate (traversed p s)).
Proof.
  intros Hmove Hfind Hp Hs p s after.
  assert (Hland : newPosition p s = (p + s) mod 25)
    by (apply newPosition_mod; lia).
  assert (Hgates : getGatesPassed p s = filter isGate (traversed p s))
    by (apply getGatesPassed_filter; lia).
  assert (Hrange : (currentMovingPlayerIndex gs
                    >=? Z.of_nat (length (pendingMovements gs))) = false).
  { unfold at_index in Hmove.
    destruct (Z.ltb_spec (currentMovingPlayerIndex gs) 0); [discriminate|].
    assert (Hlt : (Z.to_nat (currentMovingPlayerIndex gs) <
                     length (pendingMovements gs))%nat)
      by (apply nth_error_Some; congruence).
    rewrite Z.geb_leb. apply Z.leb_gt. lia. }
  subst after. unfold processNextMovement.
  rewrite Hrange, Hmove, Hfind. cbv zeta. fold p. fold s. rewrite Hland.
  destruct (getGatesPassed p s) as [|g gates] eqn:Hg.
  - cbn [length Nat.ltb Nat.leb andb]. split; [reflexivity | congruence].
  - destruct (availableStars (stars gs)) as [|st rest].
    + cbn [length Nat.ltb Nat.leb andb]. split; [reflexivity | congruence].
    + cbn [length Nat.ltb Nat.leb andb]. split; [reflexivity|].
      intros _ _. cells. rewrite <- Hgates. auto.
Qed.

(** C4: findPreviousGate returns the greatest gate strictly below the
    position; when no gate is strictly below it wraps to the last gate,
    20.  In particular findPreviousGate 0 = 20, and for every gate g,
    findPreviousGate (g + 1) = g. *)
Theorem C4_findPreviousGate (pos : Z) :
  ((exists g, In g BOARD_GATE_POSITIONS /\ g < pos) ->
     In (findPreviousGate pos) BOARD_GATE_POSITIONS
     /\ findPreviousGate pos < pos
     /\ forall g, In g BOARD_GATE_POSITIONS -> g < pos ->
                  g <= findPreviousGate pos)
  /\ ((forall g, In g BOARD_GATE_POSITIONS -> ~ g < pos) ->
        findPreviousGate pos = 20)
  /\ findPreviousGate 0 = 20
  /\ (forall g, In g BOARD_GATE_POSITIONS -> findPreviousGate (g + 1) = g).
Proof.
  assert (Hcases :
    (pos <= 0 /\ findPreviousGate pos = 20)
    \/ (0 < pos <= 5 /\ findPreviousGate pos = 0)
    \/ (5 < pos <= 10 /\ findPreviousGate pos = 5)
    \/ (10 < pos <= 15 /\ findPreviousGate pos = 10)
    \/ (15 < pos <= 20 /\ findPreviousGate pos = 15)
    \/ (20 < pos /\ findPreviousGate pos = 20)).
  { unfold findPreviousGate, BOARD_GATE_POSITIONS, JS.max_of.
    cbn [filter].
    destruct (Z.ltb_spec 0 pos); destruct (Z.ltb_spec 5 pos);
      destruct (Z.ltb_spec 10 pos); destruct (Z.ltb_spec 15 pos);
      destruct (Z.ltb_spec 20 pos); try lia; cbn; lia. }
  unfold BOARD_GATE_POSITIONS in *. cbn [In].
  split; [|split; [|split]].
  - intros [g0 [Hg0 Hlt0]].
    destruct Hcases as [[? E]|[[? E]|[[? E]|[[? E]|[[? E]|[? E]]]]]];
      rewrite E; (split; [|split]); try (intros g Hg Hlt); intuition lia.
  - intros Hnone.
    destruct Hcases as [[? E]|[[? E]|[[? E]|[[? E]|[[? E]|[? E]]]]]];
      rewrite E; try reflexivity; exfalso; apply (Hnone 0); intuition lia.
  - reflexivity.
  - intros g Hg.
    destruct Hg as [<-|[<-|[<-|[<-|[<-|[]]]]]]; reflexivity.
Qed.

End BoardGeometry.

Section ModifierStore.

Lemma modtype_eqb_eq (a b : ModifierType) : modtype_eqb a b = true <-> a = b.
Proof. destruct a, b; cbn; split; congruence. Qed.

Lemma matches_key (pid : string) (ty : ModifierType) (m : PlayerModifier) :
  matches pid ty m = true <-> key m = (pid, ty).
Proof.
  unfold matches, key. rewrite andb_true_iff, String.eqb_eq, modtype_eqb_eq.
  split; [intros [-> ->]; reflexivity | intros E; now inversion E].
Qed.

Lemma not_matches_key (pid : string) (ty : ModifierType) (m : PlayerModifier) :
  negb (matches pid ty m) = true <-> key m <> (pid, ty).
Proof.
  rewrite negb_true_iff, <- matches_key. destruct (matches pid ty m);
    split; congruence.
Qed.

Lemma NoDup_map_filter {A B : Type} (f : A -> B) (keep : A -> bool)
  (l : list A) :
  NoDup (map f l) -> NoDup (map f (filter keep l)).
Proof.
  induction l as [|x l IH]; cbn; intros H; [constructor|].
  inversion H as [|? ? Hnotin Hrest]; subst.
  destruct (keep x); cbn; [constructor|]; auto.
  intros Hin. apply Hnotin. apply in_map_iff in Hin.
  destruct Hin as [y [Hy Hin]]. apply filter_In in Hin.
  apply in_map_iff. exists y. tauto.
Qed.

Lemma key_decrement (m : PlayerModifier) : key (decrement m) = key m.
Proof. reflexivity. Qed.

Lemma run_snoc (calls : list StoreCall) (c : StoreCall) :
  run (calls ++ [c]) = call (run calls) c.
Proof. unfold run. now rewrite fold_left_app. Qed.

Lemma ticks_snoc (calls : list StoreCall) (c : StoreCall) :
  ticks (calls ++ [c]) =
  ticks calls + match c with CallTick => 1 | _ => 0 end.
Proof.
  induction calls as [|c0 calls IH].
  - destruct c; reflexivity.
  - destruct c0; cbn [app ticks]; rewrite IH; destruct c; lia.
Qed.

Lemma tracedTo_snoc (calls : list StoreCall) (c : StoreCall)
  (m : PlayerModifier) :
  tracedTo calls m -> leaves (key m) c ->
  tracedTo (calls ++ [c])
    (mkModifier (playerId m) (m_type m)
       (turnsRemaining m - match c with CallTick => 1 | _ => 0 end)
       (m_value m)).
Proof.
  intros (before & latest & after & Hcalls & Hkey & Hafter & Hval & Hturns) Hc.
  exists before, latest, (after ++ [c]). cbn.
  repeat split.
  - rewrite Hcalls, <- app_assoc. reflexivity.
  - exact Hkey.
  - apply Forall_app. split; [exact Hafter | constructor; [exact Hc | constructor]].
  - exact Hval.
  - rewrite ticks_snoc. lia.
Qed.

Lemma same_modifier (m : PlayerModifier) :
  mkModifier (playerId m) (m_type m) (turnsRemaining m - 0) (m_value m) = m.
Proof. destruct m; cbn. f_equal. lia. Qed.

(** C5: after any finite run of addModifier, removeModifier and
    tickModifiers calls on the store, there is at most one entry per
    (playerId, type) pair, and every entry that is present carries the
    value of the most recent add for its pair and that add's
    turnsRemaining less the number of ticks since. *)
Theorem C5_modifier_uniqueness (calls : list StoreCall) :
  NoDup (map key (run calls))
  /\ forall m, In m (run calls) -> tracedTo calls m.
Proof.
  induction calls as [|c calls [IHnodup IHtrace]] using rev_ind.
  - cbn. split; [constructor | intros m []].
  - rewrite run_snoc. destruct c as [modifier | pid ty |]; cbn [call].
    + (* add *)
      unfold addModifier. split.
      * rewrite map_app. cbn [map].
        apply NoDup_app;
          [apply NoDup_map_filter; exact IHnodup
          | repeat constructor; intros [] |].
        intros k Hin [Hk|[]]. subst k.
        apply in_map_iff in Hin. destruct Hin as [y [Hy Hin]].
        apply filter_In in Hin. destruct Hin as [_ Hneg].
        apply not_matches_key in Hneg. apply Hneg. exact Hy.
      * intros m Hin. apply in_app_iff in Hin. destruct Hin as [Hin|[->|[]]].
        -- apply filter_In in Hin. destruct Hin as [Hin Hneg].
           apply not_matches_key in Hneg.
           rewrite <- (same_modifier m).
           apply (tracedTo_snoc calls (CallAdd modifier) m (IHtrace m Hin)).
           cbn. intros E. apply Hneg. now rewrite <- E.
        -- exists calls, m, []. cbn.
           split; [reflexivity|]. split; [reflexivity|].
           split; [constructor|]. split; [reflexivity | lia].
    + (* remove *)
      unfold removeModifier. split.
      * apply NoDup_map_filter; exact IHnodup.
      * intros m Hin. apply filter_In in Hin. destruct Hin as [Hin Hneg].
        apply not_matches_key in Hneg.
        rewrite <- (same_modifier m).
        apply (tracedTo_snoc calls (CallRemove pid ty) m (IHtrace m Hin)).
        cbn. intros E. apply Hneg. now rewrite <- E.
    + (* tick *)
      unfold tickModifiers. split.
      * apply NoDup_map_filter. rewrite map_map.
        erewrite map_ext; [exact IHnodup | intros a; apply key_decrement].
      * intros m Hin. apply filter_In in Hin. destruct Hin as [Hin _].
        apply in_map_iff in Hin. destruct Hin as [m0 [<- Hin0]].
        apply (tracedTo_snoc calls CallTick m0 (IHtrace m0 Hin0)). exact I.
Qed.

End ModifierStore.

Section QuestionSelection.

Variable questions : list TriviaQuestion.
Variable usedIds : list string.
Variable forced : option KnowledgeCategory.

Lemma pick_nonempty {A : Type} (r : nat) (l : list A) :
  l <> [] -> exists x, JS.pick r l = Some x /\ In x l.
Proof.
  intros Hne. unfold JS.pick.
  assert (Hlt : (Nat.modulo r (length l) < length l)%nat).
  { apply Nat.mod_upper_bound. destruct l; [congruence | discriminate]. }
  destruct (nth_error l (Nat.modulo r (length l))) as [x|] eqn:E.
  - exists x. split; [reflexivity | eapply nth_error_In; exact E].
  - apply nth_error_None in E. lia.
Qed.

Lemma pick_in {A : Type} (r : nat) (l : list A) (x : A) :
  JS.pick r l = Some x -> In x l.
Proof. unfold JS.pick. apply nth_error_In. Qed.

Lemma pool_at_source (x : Z) :
  filter (fun q => Cascade.unused usedIds q && (q_difficulty q =? x)
                   && Cascade.inCategory forced q) questions
  = atDifficulty questions usedIds forced x.
Proof.
  apply filter_ext. intros q.
  unfold Cascade.unused, Cascade.inCategory, categoryFilter.
  destruct (q_difficulty q =? x), (negb (has usedIds (q_id q))); reflexivity.
Qed.

Lemma clipped_source (d : Z) :
  Cascade.clipped d =
  filter (fun x => (x >=? 1) && (x <=? 5)) [d - 1; d + 1; d - 2; d + 2].
Proof.
  unfold Cascade.clipped. apply filter_ext. intros x.
  now rewrite Z.geb_leb.
Qed.

Lemma firstNearby_cascade (ds : list Z) :
  firstNearby questions usedIds forced ds =
  Cascade.firstNonEmpty (map (atDifficulty questions usedIds forced) ds).
Proof.
  induction ds as [|x ds IH]; cbn; [reflexivity|].
  destruct (atDifficulty questions usedIds forced x); cbn; [exact IH|].
  reflexivity.
Qed.

Lemma firstNonEmpty_app {A : Type} (ps qs : list (list A)) :
  Cascade.firstNonEmpty (ps ++ qs) =
  match Cascade.firstNonEmpty ps with
  | Some p => Some p
  | None => Cascade.firstNonEmpty qs
  end.
Proof.
  induction ps as [|p ps IH]; cbn; [reflexivity|].
  destruct p; [exact IH | reflexivity].
Qed.

Lemma firstNonEmpty_some {A : Type} (ps : list (list A)) (p : list A) :
  Cascade.firstNonEmpty ps = Some p -> In p ps /\ p <> [].
Proof.
  induction ps as [|p0 ps IH]; cbn; [discriminate|].
  destruct p0 as [|x p0].
  - intros H. destruct (IH H). tauto.
  - intros H. inversion H; subst. split; [now left | discriminate].
Qed.

Lemma firstNonEmpty_none {A : Type} (ps : list (list A)) :
  Cascade.firstNonEmpty ps = None -> forall p, In p ps -> p = [].
Proof.
  induction ps as [|p0 ps IH]; cbn; [intros _ p []|].
  destruct p0; [|discriminate].
  intros H p [<-|Hin]; [reflexivity | now apply IH].
Qed.

(* every pool of the cascade holds unused questions of the set only *)
Lemma pools_unused (d : Z) (p : list TriviaQuestion) (q : TriviaQuestion) :
  In p (Cascade.pools questions usedIds d forced) -> In q p ->
  In q questions /\ has usedIds (q_id q) = false.
Proof.
  unfold Cascade.pools. intros Hp Hq.
  assert (Hfilter : forall keep,
             In q (filter (fun q => Cascade.unused usedIds q && keep q)
                          questions) ->
             In q questions /\ has usedIds (q_id q) = false).
  { intros keep H. apply filter_In in H. destruct H as [Hin H].
    apply andb_true_iff in H. destruct H as [H _].
    unfold Cascade.unused in H. apply negb_true_iff in H. tauto. }
  cbn [app] in Hp. destruct Hp as [<-|Hp].
  - apply (Hfilter (fun q => (q_difficulty q =? d)
                             && Cascade.inCategory forced q)).
    erewrite filter_ext; [exact Hq|]. intros a. cbn. now rewrite andb_assoc.
  - apply in_app_iff in Hp. destruct Hp as [Hp|[<-|Hp]].
    + apply in_map_iff in Hp. destruct Hp as [x [<- _]].
      apply (Hfilter (fun q => (q_difficulty q =? x)
                               && Cascade.inCategory forced q)).
      erewrite filter_ext; [exact Hq|]. intros a. cbn. now rewrite andb_assoc.
    + apply (Hfilter (Cascade.inCategory forced)). exact Hq.
    + destruct forced; [|destruct Hp].
      destruct Hp as [<-|[]].
      apply (Hfilter (fun _ => true)).
      erewrite filter_ext; [exact Hq|]. intros a. cbn. now rewrite andb_true_r.
Qed.

(* the last pool the cascade tries holds every unused question *)
Lemma pools_cover (d : Z) (q : TriviaQuestion) :
  In q questions -> has usedIds (q_id q) = false ->
  exists p, In p (Cascade.pools questions usedIds d forced) /\ In q p.
Proof.
  intros Hin Hunused. unfold Cascade.pools.
  destruct forced as [c|].
  - exists (filter (Cascade.unused usedIds) questions). split.
    + cbn [app]. right. apply in_app_iff. right. right. now left.
    + apply filter_In. split; [exact Hin|].
      unfold Cascade.unused. now rewrite Hunused.
  - exists (filter (fun q => Cascade.unused usedIds q
                             && Cascade.inCategory None q) questions). split.
    + cbn [app]. right. apply in_app_iff. right. now left.
    + apply filter_In. split; [exact Hin|].
      unfold Cascade.unused. now rewrite Hunused.
Qed.

(* the source function is the cascade followed by the random draw *)
Lemma select_is_cascade (d : Z) (r : nat) :
  selectQuestionByDifficulty questions usedIds d forced r =
  match Cascade.firstNonEmpty (Cascade.pools questions usedIds d forced) with
  | Some pool => take pool usedIds r
  | None => (None, usedIds)
  end.
Proof.
  unfold selectQuestionByDifficulty, Cascade.pools.
  rewrite pool_at_source. cbn [app Cascade.firstNonEmpty].
  destruct (atDifficulty questions usedIds forced d) as [|q0 avail] eqn:Eavail;
    [|reflexivity].
  cbn [length Nat.eqb].
  rewrite firstNonEmpty_app, firstNearby_cascade, <- clipped_source.
  rewrite (map_ext _ (atDifficulty questions usedIds forced) pool_at_source).
  destruct (Cascade.firstNonEmpty
              (map (atDifficulty questions usedIds forced)
                   (Cascade.clipped d))) as [pool|]; [reflexivity|].
  assert (Eany :
    filter (fun q => Cascade.unused usedIds q && Cascade.inCategory forced q)
           questions
    = filter (fun q => negb (has usedIds (q_id q))
                       && categoryFilter forced q) questions)
    by reflexivity.
  rewrite Eany.
  destruct (filter (fun q => negb (has usedIds (q_id q))
                             && categoryFilter forced q) questions)
    as [|q1 anyUnused] eqn:Eunused.
  - destruct forced as [c|]; cbn [length Nat.eqb app Cascade.firstNonEmpty].
    + change (filter (Cascade.unused usedIds) questions)
        with (filter (fun q => negb (has usedIds (q_id q))) questions).
      destruct (filter (fun q => negb (has usedIds (q_id q))) questions);
        reflexivity.
    + reflexivity.
  - destruct forced as [c|]; reflexivity.
Qed.

(** C2: for every difficulty (1..5 in the game) and every optional forced
    category, selectQuestionByDifficulty returns null exactly when every
    question of the pool is already used; whenever an unused question
    exists anywhere it returns an unused question of the pool, drawn from
    the first non-empty pool of the cascade: exact difficulty with the
    category filter, then the difficulties [d-1, d+1, d-2, d+2] clipped to
    [1,5] with the category filter, then any unused question with the
    category filter, then (only if a category was forced) any unused
    question. *)
Theorem C2_select_question (d : Z) (r : nat) :
  let result := selectQuestionByDifficulty questions usedIds d forced r in
  (fst result = None <->
     forall q, In q questions -> has usedIds (q_id q) = true)
  /\ ((exists q, In q questions /\ has usedIds (q_id q) = false) ->
      exists q, fst result = Some q)
  /\ (forall q, fst result = Some q ->
        In q questions /\ has usedIds (q_id q) = false
        /\ snd result = add usedIds (q_id q)
        /\ exists pool,
             Cascade.firstNonEmpty
               (Cascade.pools questions usedIds d forced) = Some pool
             /\ In q pool).
Proof.
  cbv zeta. rewrite select_is_cascade.
  destruct (Cascade.firstNonEmpty (Cascade.pools questions usedIds d forced))
    as [pool|] eqn:Efirst.
  - destruct (firstNonEmpty_some _ _ Efirst) as [Hpool Hne].
    destruct (pick_nonempty r pool Hne) as [x [Hpick Hx]].
    unfold take. rewrite Hpick. cbn [fst snd].
    destruct (pools_unused d pool x Hpool Hx) as [Hxin Hxunused].
    split; [|split].
    + split; [discriminate|]. intros Hall.
      rewrite (Hall x Hxin) in Hxunused. discriminate.
    + intros _. now exists x.
    + intros q Hq. inversion Hq; subst q.
      repeat split; try assumption. exists pool. tauto.
  - cbn [fst snd]. split; [|split].
    + split; [|reflexivity]. intros _ q Hin.
      destruct (has usedIds (q_id q)) eqn:Hused; [reflexivity|].
      destruct (pools_cover d q Hin Hused) as [p [Hp Hq]].
      rewrite (firstNonEmpty_none _ Efirst p Hp) in Hq. destruct Hq.
    + intros [q [Hin Hused]].
      destruct (pools_cover d q Hin Hused) as [p [Hp Hq]].
      rewrite (firstNonEmpty_none _ Efirst p Hp) in Hq. destruct Hq.
    + intros q Hq. discriminate.
Qed.

End QuestionSelection.

Section TwistEngine.

(* where findPreviousGate sends a position: to a gate, never to the
   position itself *)
Lemma findPreviousGate_moves (pos : Z) :
  In (findPreviousGate pos) [0; 5; 10; 15; 20]
  /\ findPreviousGate pos <> pos.
Proof.
  unfold findPreviousGate, BOARD_GATE_POSITIONS, JS.max_of. cbn [filter].
  destruct (Z.ltb_spec 0 pos); destruct (Z.ltb_spec 5 pos);
    destruct (Z.ltb_spec 10 pos); destruct (Z.ltb_spec 15 pos);
    destruct (Z.ltb_spec 20 pos); try lia; cbn; split; try lia; tauto.
Qed.

(* the players of a result that puts the acting player on pos *)
Lemma moved_player (current : Player) (players : list Player) (pos : Z)
  (msg : Message) (k : nat) (p : Player) :
  nth_error players k = Some p ->
  exists p',
    nth_error (mapPlayer (p_id current) (fun q => withPosition q pos)
                 players) k = Some p'
    /\ (p_id p = p_id current -> boardPosition p' = pos)
    /\ (p_id p <> p_id current -> boardPosition p' = boardPosition p)
    /\ p_id p' = p_id p /\ p_name p' = p_name p /\ p_type p' = p_type p
    /\ score p' = score p /\ starsCollected p' = starsCollected p
    /\ avatarEmoji p' = avatarEmoji p.
Proof.
  intros Hk. unfold mapPlayer. rewrite nth_error_map, Hk. cbn [option_map].
  eexists. split; [reflexivity|].
  destruct (String.eqb_spec (p_id p) (p_id current)) as [E|N];
    cbn [withPosition boardPosition p_id p_name p_type score starsCollected
         avatarEmoji]; repeat split; try reflexivity; congruence.
Qed.

(** C9: on a move_back_gate card that needs no choice, an effectValue that
    is present but 0 takes the previous-gate branch, as an absent
    effectValue does: in the players of the result the acting player
    stands on findPreviousGate of the position held before, which is one
    of the gates and never the position itself, so not the step on which
    moving back 0 steps would leave a player of the board; every other
    player keeps the position held, nobody's other fields change, and the
    message is the back-to-gate one.  The back-N-steps branch is taken
    exactly when effectValue is a number N other than 0: the acting player
    then stands on (position - N + 25) % 25 and the message names N. *)
Theorem C9_move_back_gate_zero (twist : TwistCard) (current : Player)
  (players : list Player) (stars : list StarState) (r : nat) :
  requiresChoice twist = false ->
  effectType twist = move_back_gate ->
  let result := executeImmediateTwist twist current players stars r in
  let actingLandsOn (pos : Z) :=
    exists updatedPlayers,
      r_players result = Some updatedPlayers
      /\ length updatedPlayers = length players
      /\ forall k p, nth_error players k = Some p ->
           exists p',
             nth_error updatedPlayers k = Some p'
             /\ (p_id p = p_id current -> boardPosition p' = pos)
             /\ (p_id p <> p_id current ->
                 boardPosition p' = boardPosition p)
             /\ p_id p' = p_id p /\ p_name p' = p_name p
             /\ p_type p' = p_type p /\ score p' = score p
             /\ starsCollected p' = starsCollected p
             /\ avatarEmoji p' = avatarEmoji p in
  (effectValue twist = Some 0 -> result = backToGate current players)
  /\ (effectValue twist = None -> result = backToGate current players)
  /\ (forall n, effectValue twist = Some n -> n <> 0 ->
                result = backSteps current players n)
  /\ (forall n, message result
                = Some (msg_went_back_steps (p_name current) n)
                <-> effectValue twist = Some n /\ n <> 0)
  /\ (effectValue twist = Some 0 \/ effectValue twist = None ->
      actingLandsOn (findPreviousGate (boardPosition current))
      /\ message result = Some (msg_went_back_to_gate (p_name current))
      /\ r_stars result = None /\ r_addModifier result = None
      /\ goToNextTurn result = true)
  /\ (forall n, effectValue twist = Some n -> n <> 0 ->
        actingLandsOn (Z.rem (boardPosition current - n + 25) 25)
        /\ r_stars result = None /\ r_addModifier result = None
        /\ goToNextTurn result = true)
  /\ In (findPreviousGate (boardPosition current)) [0; 5; 10; 15; 20]
  /\ findPreviousGate (boardPosition current) <> boardPosition current
  /\ (0 <= boardPosition current < 25 ->
      findPreviousGate (boardPosition current)
      <> Z.rem (boardPosition current - 0 + 25) 25).
Proof.
  intros Hchoice Heffect result actingLandsOn.
  assert (Hlands : forall pos msg,
             result = moved (mapPlayer (p_id current)
                               (fun q => withPosition q pos) players) msg ->
             actingLandsOn pos).
  { intros pos msg ->. eexists. split; [reflexivity|].
    split; [unfold mapPlayer; apply length_map|].
    intros k p Hk. exact (moved_player current players pos msg k p Hk). }
  assert (Hgate : (effectValue twist = Some 0 \/ effectValue twist = None) ->
                  result = backToGate current players).
  { unfold result, executeImmediateTwist. rewrite Hchoice, Heffect.
    intros [-> | ->]; reflexivity. }
  assert (Hsteps : forall n, effectValue twist = Some n -> n <> 0 ->
                             result = backSteps current players n).
  { unfold result, executeImmediateTwist. rewrite Hchoice, Heffect.
    intros n -> Hn. unfold JS.truthy.
    destruct (Z.eqb_spec n 0) as [E|_]; [contradiction | reflexivity]. }
  destruct (findPreviousGate_moves (boardPosition current))
    as [Hin Hmoves].
  split; [intros E; apply Hgate; now left|].
  split; [intros E; apply Hgate; now right|].
  split; [exact Hsteps|].
  split.
  { intros n. split.
    - intros E. destruct (effectValue twist) as [v|] eqn:Hvalue.
      + destruct (Z.eqb_spec v 0) as [->|Hnz].
        * rewrite (Hgate (or_introl eq_refl)) in E. discriminate.
        * rewrite (Hsteps v eq_refl Hnz) in E. cbn in E.
          inversion E; subst. split; [reflexivity | exact Hnz].
      + rewrite (Hgate (or_intror eq_refl)) in E. discriminate.
    - intros [E Hn]. rewrite (Hsteps n E Hn). reflexivity. }
  split.
  { intros Hzero. split; [eapply Hlands; apply Hgate; exact Hzero|].
    rewrite (Hgate Hzero). repeat split; reflexivity. }
  split.
  { intros n E Hn. split; [eapply Hlands; apply (Hsteps n E Hn)|].
    rewrite (Hsteps n E Hn). repeat split; reflexivity. }
  split; [exact Hin|]. split; [exact Hmoves|].
  intros Hboard. rewrite Z.rem_mod_nonneg by lia.
  replace (boardPosition current - 0 + 25)
    with (boardPosition current + 1 * 25) by lia.
  rewrite Z_mod_plus_full, Z.mod_small by lia. exact Hmoves.
Qed.

(** C9, on a card with effectValue 0 drawn by a player on position 7:
    the player snaps to gate 5 and the other player stays on gate 5. *)
Lemma C9_move_back_gate_zero_witness :
  (requiresChoice backZeroCard = false
   /\ effectType backZeroCard = move_back_gate)
  /\ executeImmediateTwist backZeroCard (withPosition dana 7) danaOnSeven
       [] 0
     = backToGate (withPosition dana 7) danaOnSeven
  /\ exists updatedPlayers,
       r_players (executeImmediateTwist backZeroCard (withPosition dana 7)
                    danaOnSeven [] 0) = Some updatedPlayers
       /\ exists p', nth_error updatedPlayers 0 = Some p'
                     /\ boardPosition p' = 5 /\ p_id p' = p_id dana.
Proof.
  split; [split; reflexivity|].
  destruct (C9_move_back_gate_zero backZeroCard (withPosition dana 7)
              danaOnSeven [] 0 eq_refl eq_refl)
    as (Hresult & _ & _ & _ & Hzero & _).
  split; [exact (Hresult eq_refl)|].
  destruct (Hzero (or_introl eq_refl))
    as [(updatedPlayers & Hplayers & _ & Hnth) _].
  exists updatedPlayers. split; [exact Hplayers|].
  destruct (Hnth 0%nat (withPosition dana 7) eq_refl)
    as (p' & Hp' & Hpos & _ & Hid & _).
  exists p'. split; [exact Hp'|]. split; [exact (Hpos eq_refl) | exact Hid].
Defined.

Example back_zero_lands_on_gate_5 :
  map boardPosition
    (orKeep (r_players (executeImmediateTwist backZeroCard
                          (withPosition dana 7) danaOnSeven [] 0)) [])
  = [5; 5].
Proof. reflexivity. Qed.

End TwistEngine.

Section TurnAdvance.

Lemma handleNextTurn_players (snap cur : GameState) :
  players (handleNextTurn snap cur) = players cur.
Proof.
  unfold handleNextTurn.
  destruct (extraTurnPending snap); [reflexivity|].
  destruct (skipFrozen _ _ _ _) as [nextIndex store].
  destruct (reverseTurnsRemaining snap >? 0); [|reflexivity].
  destruct (reverseTurnsRemaining snap =? 1); reflexivity.
Qed.

Lemma handleNextTurn_stars (snap cur : GameState) :
  stars (handleNextTurn snap cur) = stars cur.
Proof.
  unfold handleNextTurn.
  destruct (extraTurnPending snap); [reflexivity|].
  destruct (skipFrozen _ _ _ _) as [nextIndex store].
  destruct (reverseTurnsRemaining snap >? 0); [|reflexivity].
  destruct (reverseTurnsRemaining snap =? 1); reflexivity.
Qed.

Lemma handleNextTurn_phase (snap cur : GameState) :
  gamePhase (handleNextTurn snap cur) = phase_spinning.
Proof.
  unfold handleNextTurn.
  destruct (extraTurnPending snap); [reflexivity|].
  destruct (skipFrozen _ _ _ _) as [nextIndex store]. reflexivity.
Qed.



End TurnAdvance.

Section TwistChoices.

Lemma unique_by_id (players : list Player) (p q : Player) :
  NoDup (map p_id players) -> In p players -> In q players ->
  p_id p = p_id q -> p = q.
Proof.
  induction players as [|x players IH]; cbn; [intros _ []|].
  intros Hnodup Hp Hq Hid. inversion Hnodup as [|? ? Hnotin Hrest]; subst.
  destruct Hp as [->|Hp], Hq as [->|Hq].
  - reflexivity.
  - exfalso. apply Hnotin. rewrite Hid. now apply in_map.
  - exfalso. apply Hnotin. rewrite <- Hid. now apply in_map.
  - now apply IH.
Qed.

Lemma at_index_In {A : Type} (l : list A) (i : Z) (x : A) :
  at_index l i = Some x -> In x l.
Proof.
  unfold at_index. destruct (i <? 0); [discriminate|]. apply nth_error_In.
Qed.

Lemma Forall2_map_r {A B : Type} (R : A -> B -> Prop) (g : A -> B)
  (l : list A) :
  (forall x, In x l -> R x (g x)) -> Forall2 R l (map g l).
Proof.
  induction l as [|x l IH]; cbn; intros H; constructor.
  - apply H. now left.
  - apply IH. intros y Hy. apply H. now right.
Qed.

Lemma Forall2_same {A : Type} (R : A -> A -> Prop) (l : list A) :
  (forall x, In x l -> R x x) -> Forall2 R l l.
Proof.
  intros H. rewrite <- (map_id l) at 2. now apply Forall2_map_r.
Qed.

(** C6: resolving a points_swap choice against a target player exchanges
    the two scores when the acting player's score is strictly below the
    target's, and leaves every score as it was otherwise (equal or
    greater).  In both cases every other field of every player (id, name,
    kind, position, stars collected, avatar) is unchanged, players other
    than the two keep their score, the stars are unchanged, and the turn
    advances: the state is the one handleNextTurn gives, in the spinning
    phase. *)
Theorem C6_points_swap (gs : GameState) (twist : TwistCard)
  (current target : Player) (r : nat) :
  activeTwist gs = Some twist ->
  effectType twist = points_swap ->
  currentTurnPlayer gs = Some current ->
  In target (players gs) ->
  p_id target <> p_id current ->
  NoDup (map p_id (players gs)) ->
  let after := handleTwistChoosePlayer gs target r in
  Forall2 (fun p p' =>
             sameButScore p p'
             /\ (score current < score target ->
                   (p = current -> score p' = score target)
                   /\ (p = target -> score p' = score current)
                   /\ (p <> current -> p <> target -> score p' = score p))
             /\ (score target <= score current -> p' = p))
          (players gs) (players after)
  /\ stars after = stars gs
  /\ gamePhase after = phase_spinning
  /\ after = handleNextTurn gs
               (setActiveTwist None
                  (setShowTwistChoice false (setPlayers (players after) gs))).
Proof.
  intros Htwist Heffect Hcurrent Htarget Hdistinct Hnodup.
  pose proof (at_index_In _ _ _ Hcurrent) as Hcur_in.
  unfold handleTwistChoosePlayer. rewrite Htwist, Hcurrent, Heffect.
  cbv zeta. rewrite handleNextTurn_players, handleNextTurn_stars,
    handleNextTurn_phase.
  destruct (Z.ltb_spec (score current) (score target)) as [Hlt|Hge].
  - cbn [players stars setPlayers setShowTwistChoice setActiveTwist].
    split; [|split; [reflexivity | split; reflexivity]].
    unfold swapScores. apply Forall2_map_r. intros p Hp.
    assert (Hsame : forall sc, sameButScore p (withScore p sc))
      by (intros sc; repeat split).
    destruct (String.eqb_spec (p_id p) (p_id current)) as [Ec|Nc].
    + assert (p = current) by (eapply unique_by_id; eauto). subst p.
      split; [apply Hsame|]. split; [intros _ | intros Hle; lia].
      split; [reflexivity|]. split; [intros E | intros N; congruence].
      subst target. congruence.
    + destruct (String.eqb_spec (p_id p) (p_id target)) as [Et|Nt].
      * assert (p = target) by (eapply unique_by_id; eauto). subst p.
        split; [apply Hsame|]. split; [intros _ | intros Hle; lia].
        split; [intros E; congruence|].
        split; [reflexivity | intros _ N; congruence].
      * split; [repeat split|]. split; [intros _ | reflexivity].
        split; [intros E; congruence|].
        split; [intros E; congruence | reflexivity].
  - split; [|split; [reflexivity | split; [reflexivity|]]].
    + apply Forall2_same. intros p Hp.
      split; [repeat split|]. split; [intros Hlt; lia | reflexivity].
    + destruct gs; reflexivity.
Qed.

(** C6, on a game where Dana (no points) chooses Omer (250 points): the
    scores are exchanged, and the game is back in the spinning phase. *)
Lemma C6_points_swap_witness :
  (activeTwist danaSwaps = Some pointsSwapCard
   /\ effectType pointsSwapCard = points_swap
   /\ currentTurnPlayer danaSwaps = Some dana
   /\ In (withScoreAndStars omer 250 1) (players danaSwaps)
   /\ p_id (withScoreAndStars omer 250 1) <> p_id dana
   /\ NoDup (map p_id (players danaSwaps)))
  /\ map score (players (handleTwistChoosePlayer danaSwaps
                           (withScoreAndStars omer 250 1) 0)) = [250; 0]
  /\ gamePhase (handleTwistChoosePlayer danaSwaps
                  (withScoreAndStars omer 250 1) 0) = phase_spinning.
Proof.
  assert (Hin : In (withScoreAndStars omer 250 1) (players danaSwaps))
    by (right; left; reflexivity).
  assert (Hdistinct : p_id (withScoreAndStars omer 250 1) <> p_id dana)
    by (intros E; vm_compute in E; discriminate).
  assert (Hnodup : NoDup (map p_id (players danaSwaps))).
  { vm_compute. constructor; [intros [E|[]]; discriminate|].
    constructor; [intros []| constructor]. }
  split; [repeat split; assumption|].
  destruct (C6_points_swap danaSwaps pointsSwapCard dana
              (withScoreAndStars omer 250 1) 0 eq_refl eq_refl eq_refl
              Hin Hdistinct Hnodup) as [_ [_ [Hphase _]]].
  split; [reflexivity | exact Hphase].
Defined.

(* removeModifier and tickModifiers are filters; they commute *)
Lemma tick_remove_commute (pid : string) (ty : ModifierType)
  (store : list PlayerModifier) :
  removeModifier pid ty (tickModifiers store)
  = tickModifiers (removeModifier pid ty store).
Proof.
  unfold removeModifier, tickModifiers.
  induction store as [|m store IH]; [reflexivity|]. cbn [map filter].
  assert (E : matches pid ty (decrement m) = matches pid ty m)
    by reflexivity.
  destruct (turnsRemaining (decrement m) >? 0) eqn:Hpos;
    destruct (matches pid ty m) eqn:Hm; cbn [filter map negb];
    rewrite ?E, ?Hm, ?Hpos; cbn [negb]; rewrite ?IH; reflexivity.
Qed.

Lemma removed_not_frozen (pid : string) (store : list PlayerModifier) :
  isPlayerFrozen pid (removeModifier pid mod_frozen store) = false.
Proof.
  unfold isPlayerFrozen, removeModifier.
  induction store as [|m store IH]; [reflexivity|]. cbn [filter].
  destruct (matches pid mod_frozen m) eqn:Hm; cbn [negb]; [exact IH|].
  cbn [existsb]. rewrite IH. unfold matches in Hm. rewrite Hm.
  reflexivity.
Qed.

Lemma skipFrozen_once (snap : GameState) (fuel : nat) (first : Z)
  (store : list PlayerModifier) (b c : Player) :
  fuel <> 0%nat ->
  at_index (players snap) first = Some b ->
  isPlayerFrozen (p_id b) (modifiers snap) = true ->
  at_index (players snap)
    (advanceIndex (playOrderReversed snap)
       (Z.of_nat (length (players snap))) first) = Some c ->
  isPlayerFrozen (p_id c) (modifiers snap) = false ->
  skipFrozen snap fuel first store
  = (advanceIndex (playOrderReversed snap)
       (Z.of_nat (length (players snap))) first,
     removeModifier (p_id b) mod_frozen store).
Proof.
  intros Hfuel Hb Hfrozen Hc Hfree.
  destruct fuel as [|fuel]; [congruence|].
  cbn [skipFrozen]. rewrite Hb, Hfrozen.
  destruct fuel as [|fuel]; [reflexivity|].
  cbn [skipFrozen]. rewrite Hc, Hfree. reflexivity.
Qed.

(* The skip loop on its own: when the advance sees a frozen modifier of
   the next player b, and does not see one of the player c after b, it
   removes b's frozen modifier and gives the turn to c; the store ends as
   the store without b's frozen modifier, ticked once. *)
Lemma advance_skips_frozen_it_sees (snap cur : GameState) (b c : Player) :
  extraTurnPending snap = false ->
  let count := Z.of_nat (length (players snap)) in
  let first :=
    advanceIndex (playOrderReversed snap) count (currentTurnIndex snap) in
  let second := advanceIndex (playOrderReversed snap) count first in
  at_index (players snap) first = Some b ->
  isPlayerFrozen (p_id b) (modifiers snap) = true ->
  at_index (players snap) second = Some c ->
  isPlayerFrozen (p_id c) (modifiers snap) = false ->
  let next := handleNextTurn snap cur in
  currentTurnIndex next = second
  /\ modifiers next
     = tickModifiers (removeModifier (p_id b) mod_frozen (modifiers cur))
  /\ isPlayerFrozen (p_id b) (modifiers next) = false
  /\ gamePhase next = phase_spinning.
Proof.
  intros Hflag count first second Hb Hfrozen Hc Hfree next.
  assert (Hfuel : length (players snap) <> 0%nat).
  { intros Hlen. apply length_zero_iff_nil in Hlen. unfold at_index in Hb.
    rewrite Hlen in Hb. destruct (first <? 0); [discriminate|].
    destruct (Z.to_nat first); discriminate. }
  pose proof (fun store =>
                skipFrozen_once snap (length (players snap)) first store
                  b c Hfuel Hb Hfrozen Hc Hfree) as Hskip.
  subst next. unfold handleNextTurn. rewrite Hflag. cbv zeta.
  fold count. fold first.
  match goal with
  | |- context [skipFrozen snap _ first ?store] => rewrite (Hskip store)
  end.
  destruct (reverseTurnsRemaining snap >? 0);
    [destruct (reverseTurnsRemaining snap =? 1)|];
    cells; rewrite tick_remove_commute;
    (split; [reflexivity|]); (split; [reflexivity|]);
    (split; [|reflexivity]);
    rewrite <- tick_remove_commute; apply removed_not_frozen.
Qed.

(* a frozen modifier added with one turn left does not survive a tick *)
Lemma frozen_dropped_by_tick (pid : string) (store : list PlayerModifier) :
  hasModifier
    (tickModifiers (addModifier (mkModifier pid mod_frozen 1 None) store))
    pid mod_frozen = false.
Proof.
  unfold hasModifier, tickModifiers, addModifier. cbn [playerId m_type].
  rewrite map_app, filter_app. cbn [map filter decrement turnsRemaining].
  replace (1 - 1 >? 0) with false by reflexivity. rewrite app_nil_r.
  induction store as [|m store IH]; [reflexivity|]. cbn [filter].
  destruct (matches pid mod_frozen m) eqn:Hm; cbn [negb]; [exact IH|].
  cbn [map filter]. destruct (turnsRemaining (decrement m) >? 0);
    [|exact IH].
  cbn [existsb]. rewrite IH.
  change (matches pid mod_frozen (decrement m))
    with (matches pid mod_frozen m).
  now rewrite Hm.
Qed.

Lemma not_held_not_frozen (pid : string) (store : list PlayerModifier) :
  hasModifier store pid mod_frozen = false -> isPlayerFrozen pid store = false.
Proof.
  unfold hasModifier, isPlayerFrozen, matches.
  induction store as [|m store IH]; [reflexivity|]. cbn [existsb].
  intros H. apply orb_false_iff in H. destruct H as [Hm Hrest].
  rewrite Hm, (IH Hrest). reflexivity.
Qed.

(* freeze_player against the player who is next in turn, in any game: the
   advance that follows the choice reads the store as it was before the
   choice, finds the target not frozen and gives them the turn, and its tick
   drops the modifier the choice has just stored *)
Lemma freeze_never_skips_next (gs : GameState) (twist : TwistCard)
  (current target : Player) (r : nat) :
  activeTwist gs = Some twist ->
  effectType twist = freeze_player ->
  currentTurnPlayer gs = Some current ->
  extraTurnPending gs = false ->
  let next :=
    advanceIndex (playOrderReversed gs) (Z.of_nat (length (players gs)))
      (currentTurnIndex gs) in
  at_index (players gs) next = Some target ->
  isPlayerFrozen (p_id target) (modifiers gs) = false ->
  let after := handleTwistChoosePlayer gs target r in
  currentTurnIndex after = next
  /\ hasModifier (modifiers after) (p_id target) mod_frozen = false
  /\ isPlayerFrozen (p_id target) (modifiers after) = false.
Proof.
  intros Htwist Heffect Hcurrent Hflag next Htarget Hfree after.
  assert (Hskip : forall fuel store,
             skipFrozen gs fuel next store = (next, store)).
  { intros [|fuel] store; [reflexivity|].
    cbn [skipFrozen]. now rewrite Htarget, Hfree. }
  assert (E : currentTurnIndex after = next
              /\ modifiers after
                 = tickModifiers
                     (addModifier (mkModifier (p_id target) mod_frozen 1 None)
                        (modifiers gs))).
  { subst after. unfold handleTwistChoosePlayer.
    rewrite Htwist, Hcurrent, Heffect. unfold handleNextTurn.
    rewrite Hflag. cbv zeta. fold next. rewrite Hskip.
    destruct (reverseTurnsRemaining gs >? 0);
      [destruct (reverseTurnsRemaining gs =? 1)|]; split; reflexivity. }
  destruct E as [Eindex Estore]. split; [exact Eindex|].
  rewrite Estore. split; [apply frozen_dropped_by_tick|].
  apply not_held_not_frozen, frozen_dropped_by_tick.
Qed.

(** C8, end-to-end scenario D: Dana (index 0) draws freeze_player and
    chooses Omer (index 1), the next player.  The choice stores a frozen
    modifier with one turn left for Omer, and the advance that follows
    does not skip him: it was built before the modifier was stored, so its
    isPlayerFrozen test reads a store without it, while its tick runs on
    the store that holds it and drops it.  Omer gets the turn and the
    store is empty. *)
Theorem C8_freeze_does_not_skip :
  let after := handleTwistChoosePlayer danaFreezes omer 0 in
  currentTurnPlayer danaFreezes = Some dana
  /\ activeTwist danaFreezes = Some freezeCard
  /\ addModifier (mkModifier (p_id omer) mod_frozen 1 None)
       (modifiers danaFreezes)
     = [mkModifier (p_id omer) mod_frozen 1 None]
  /\ isPlayerFrozen (p_id omer) (modifiers danaFreezes) = false
  /\ currentTurnIndex after = 1
  /\ currentTurnPlayer after = Some omer
  /\ modifiers after = [].
Proof. vm_compute. repeat split; reflexivity. Qed.

(* the same advance, had it read the store the choice produced: Omer is
   skipped and Dana plays again *)
Example freeze_skips_when_seen :
  let chosen :=
    setModifiers [mkModifier (p_id omer) mod_frozen 1 None] danaFreezes in
  let after := handleNextTurn chosen chosen in
  currentTurnIndex after = 0 /\ modifiers after = [].
Proof. vm_compute. split; reflexivity. Qed.

End TwistChoices.

Section HandlersAndEvents.

Lemma at_index_nat {A : Type} (l : list A) (i : nat) :
  at_index l (Z.of_nat i) = nth_error l i.
Proof.
  unfold at_index. destruct (Z.ltb_spec (Z.of_nat i) 0); [lia|].
  now rewrite Nat2Z.id.
Qed.

Lemma pick_empty {A : Type} (r : nat) : JS.pick r (@nil A) = None.
Proof. unfold JS.pick. cbn. now destruct r. Qed.

(* handleStarRevealComplete writes players and stars as EvReveal does;
   selectingStarPlayer is a copy of the player kept since the move, of which
   only the id is read *)
Lemma reveal_is_event (gs : GameState) (who which : nat)
  (selecting player : Player) (revealing : StarState) :
  selectingStarPlayer gs = Some selecting ->
  revealingStar gs = Some revealing ->
  nth_error (players gs) who = Some player ->
  p_id player = p_id selecting ->
  nth_error (stars gs) which = Some revealing ->
  (players (handleStarRevealComplete gs), stars (handleStarRevealComplete gs))
  = apply (EvReveal who which) (players gs, stars gs).
Proof.
  intros Hselecting Hrevealing Hwho Hid Hwhich.
  unfold handleStarRevealComplete. rewrite Hselecting, Hrevealing.
  cbn [apply]. rewrite Hwho, Hwhich, Hid.
  destruct ((0 <? length (tl (gatesPassedQueue gs)))%nat && _);
    [reflexivity|].
  destruct (length _ =? 0)%nat; reflexivity.
Qed.

(* handleTwistChoosePlayer writes players and stars as EvChoosePlayer does *)
Lemma choose_player_is_event (gs : GameState) (twist : TwistCard)
  (cardIndex turn target r : nat) (targetPlayer : Player) :
  activeTwist gs = Some twist ->
  nth_error TWIST_CARDS cardIndex = Some twist ->
  currentTurnIndex gs = Z.of_nat turn ->
  nth_error (players gs) target = Some targetPlayer ->
  (players (handleTwistChoosePlayer gs targetPlayer r),
   stars (handleTwistChoosePlayer gs targetPlayer r))
  = apply (EvChoosePlayer cardIndex turn target r) (players gs, stars gs).
Proof.
  intros Htwist Hcard Hturn Htarget.
  unfold handleTwistChoosePlayer, currentTurnPlayer.
  rewrite Htwist, Hturn, at_index_nat. cbn [apply].
  rewrite Hcard, Htarget.
  destruct (nth_error (players gs) turn) as [current|]; [|reflexivity].
  rewrite handleNextTurn_players, handleNextTurn_stars.
  destruct (effectType twist); try reflexivity.
  - destruct (filter (ownedBy (p_id targetPlayer)) (stars gs))
      as [|s owned] eqn:Howned.
    + rewrite pick_empty. reflexivity.
    + cbn [length Nat.ltb Nat.leb].
      destruct (JS.pick r (s :: owned)); reflexivity.
  - destruct (score current <? score targetPlayer); reflexivity.
Qed.

(* handleTwistFreeStar writes players and stars as EvFreeStar does *)
Lemma free_star_is_event (gs : GameState) (turn which : nat)
  (star : StarState) :
  currentTurnIndex gs = Z.of_nat turn ->
  nth_error (stars gs) which = Some star ->
  (players (handleTwistFreeStar gs star), stars (handleTwistFreeStar gs star))
  = apply (EvFreeStar turn which) (players gs, stars gs).
Proof.
  intros Hturn Hwhich. unfold handleTwistFreeStar, currentTurnPlayer.
  rewrite Hturn, at_index_nat. cbn [apply]. rewrite Hwhich.
  destruct (nth_error (players gs) turn) as [current|]; [|reflexivity].
  now rewrite handleNextTurn_players, handleNextTurn_stars.
Qed.

(* processNextMovement writes players and stars as EvMove does *)
Lemma move_is_event (gs : GameState) (movement : Movement) (player : Player)
  (who : nat) :
  at_index (pendingMovements gs) (currentMovingPlayerIndex gs)
  = Some movement ->
  JS.find_first (fun p => String.eqb (p_id p) (mv_playerId movement))
    (players gs) = Some player ->
  nth_error (players gs) who = Some player ->
  (players (processNextMovement gs), stars (processNextMovement gs))
  = apply (EvMove who (mv_steps movement)) (players gs, stars gs).
Proof.
  intros Hmove Hfind Hwho.
  assert (Hrange : (currentMovingPlayerIndex gs
                    >=? Z.of_nat (length (pendingMovements gs))) = false).
  { unfold at_index in Hmove.
    destruct (Z.ltb_spec (currentMovingPlayerIndex gs) 0); [discriminate|].
    assert (Hlt : (Z.to_nat (currentMovingPlayerIndex gs) <
                     length (pendingMovements gs))%nat)
      by (apply nth_error_Some; congruence).
    rewrite Z.geb_leb. apply Z.leb_gt. lia. }
  unfold processNextMovement. rewrite Hrange, Hmove, Hfind.
  cbn [apply]. rewrite Hwho. cbv zeta.
  destruct ((0 <? length _)%nat && _); reflexivity.
Qed.

(* handleBonusQuestionAnswer, on a correct answer, writes them as EvMove
   does with the bonus steps *)
Lemma bonus_move_is_event (gs : GameState) (turn : nat) (current : Player)
  (q : TriviaQuestion) :
  currentTurnIndex gs = Z.of_nat turn ->
  nth_error (players gs) turn = Some current ->
  currentQuestion gs = Some q ->
  gamePhase gs = phase_twistBonusQ ->
  (players (handleBonusQuestionAnswer gs true),
   stars (handleBonusQuestionAnswer gs true))
  = apply (EvMove turn (bonusQuestionSteps gs)) (players gs, stars gs).
Proof.
  intros Hturn Hcurrent Hq Hphase.
  unfold handleBonusQuestionAnswer, currentTurnPlayer.
  rewrite Hturn, at_index_nat, Hcurrent, Hq, Hphase.
  cbn [apply]. rewrite Hcurrent. cbv zeta.
  destruct ((0 <? length _)%nat && _);
    [|rewrite handleNextTurn_players, handleNextTurn_stars]; reflexivity.
Qed.

(* handleTwistConfirm writes players and stars as EvTwistConfirm does *)
Lemma twist_confirm_is_event (gs : GameState) (twist : TwistCard)
  (cardIndex turn r rLevel rQuestion : nat) :
  activeTwist gs = Some twist ->
  nth_error TWIST_CARDS cardIndex = Some twist ->
  currentTurnIndex gs = Z.of_nat turn ->
  (players (handleTwistConfirm gs r rLevel rQuestion),
   stars (handleTwistConfirm gs r rLevel rQuestion))
  = apply (EvTwistConfirm cardIndex turn r) (players gs, stars gs).
Proof.
  intros Htwist Hcard Hturn.
  unfold handleTwistConfirm, currentTurnPlayer.
  rewrite Htwist, Hturn, at_index_nat. cbn [apply]. rewrite Hcard.
  destruct (nth_error (players gs) turn) as [current|]; [|reflexivity].
  cbv zeta.
  destruct (executeImmediateTwist twist current (players gs) (stars gs) r)
    as [ps ss md next choice bonus spin msg extra rev].
  cbn [r_players r_stars r_addModifier r_extraTurnPending r_reverseOrder
       showChoicePopup goToBonusQuestion goToSpinning goToNextTurn orKeep].
  destruct ps, ss, md, extra as [[|]|], rev as [n|];
    try destruct (JS.truthy (Some n));
    destruct choice, bonus, spin, next;
    try destruct (selectQuestionByDifficulty _ _ _ _ _) as [[selected|] used];
    rewrite ?handleNextTurn_players, ?handleNextTurn_stars;
    reflexivity.
Qed.

(* handleTwistChooseGate writes players and stars as EvChooseGate does *)
Lemma choose_gate_is_event (gs : GameState) (turn : nat) (gatePosition : Z) :
  currentTurnIndex gs = Z.of_nat turn ->
  (players (handleTwistChooseGate gs gatePosition),
   stars (handleTwistChooseGate gs gatePosition))
  = apply (EvChooseGate turn gatePosition) (players gs, stars gs).
Proof.
  intros Hturn. unfold handleTwistChooseGate, currentTurnPlayer.
  rewrite Hturn, at_index_nat. cbn [apply].
  destruct (nth_error (players gs) turn) as [current|]; [|reflexivity].
  now rewrite handleNextTurn_players, handleNextTurn_stars.
Qed.

End HandlersAndEvents.

Section SessionInvariants.

(* ---- the start of a session ---- *)

Lemma numberText_inj (n m : nat) : numberText n = numberText m -> n = m.
Proof.
  unfold numberText. intros E.
  apply DecimalNat.Unsigned.to_uint_inj.
  apply (f_equal DecimalString.NilEmpty.uint_of_string) in E.
  rewrite !DecimalString.NilEmpty.usu in E. now inversion E.
Qed.

Lemma humansFrom_ids (names : list string) (k : nat) :
  map p_id (humansFrom k names)
  = map (fun i => String.append "human-" (numberText i))
        (seq k (length names)).
Proof.
  revert k. induction names as [|name names IH]; intros k; cbn;
    [reflexivity|]. now rewrite IH.
Qed.

Lemma initial_players_unique (settings : GameSettings) :
  NoDup (map p_id (createPlayersFromSettings settings)).
Proof.
  unfold createPlayersFromSettings. rewrite map_app, humansFrom_ids, map_map.
  cbn [p_id digitalPlayer].
  apply NoDup_app.
  - apply Finite.Injective_map_NoDup; [|apply seq_NoDup].
    intros i j E. cbn in E. inversion E. now apply numberText_inj.
  - apply Finite.Injective_map_NoDup; [|apply seq_NoDup].
    intros i j E. cbn in E. inversion E. now apply numberText_inj.
  - intros id Hh Hd. apply in_map_iff in Hh. apply in_map_iff in Hd.
    destruct Hh as [i [<- _]]. destruct Hd as [j [E _]].
    cbn in E. discriminate.
Qed.

Lemma initial_players_no_points (settings : GameSettings) :
  scoresNonNegative (createPlayersFromSettings settings).
Proof.
  unfold scoresNonNegative, createPlayersFromSettings. intros p Hp.
  apply in_app_iff in Hp. destruct Hp as [Hp|Hp].
  - remember 0%nat as k eqn:Ek. clear Ek. revert k Hp.
    induction (humanPlayerNames settings) as [|name names IH];
      intros k Hp; cbn in Hp; [destruct Hp|].
    destruct Hp as [<-|Hp]; [cbn; lia | eapply IH; exact Hp].
  - apply in_map_iff in Hp. destruct Hp as [i [<- _]]. cbn. lia.
Qed.

Lemma starsFrom_values (values : list Z) (k : Z) :
  map pointValue (starsFrom k values) = values.
Proof.
  revert k. induction values as [|v values IH]; intros k; cbn;
    [reflexivity|]. now rewrite IH.
Qed.

Lemma starsFrom_ids_above (values : list Z) (k id : Z) :
  In id (map s_id (starsFrom k values)) -> k <= id.
Proof.
  revert k. induction values as [|v values IH]; intros k; cbn; [intros []|].
  intros [<-|Hin]; [lia|]. apply IH in Hin. lia.
Qed.

Lemma starsFrom_unique (values : list Z) (k : Z) :
  NoDup (map s_id (starsFrom k values)).
Proof.
  revert k. induction values as [|v values IH]; intros k; cbn;
    constructor; [|apply IH].
  intros Hin. apply starsFrom_ids_above in Hin. lia.
Qed.

Lemma start_sound (settings : GameSettings) (shuffledValues : list Z) :
  Permutation shuffledValues STAR_POINT_VALUES ->
  sound (createPlayersFromSettings settings,
         createInitialStars shuffledValues).
Proof.
  intros Hperm. unfold sound, createInitialStars. cbn [fst snd].
  split; [apply initial_players_unique|].
  split; [apply starsFrom_unique|].
  left. now rewrite starsFrom_values.
Qed.

(* ---- what a confirmed twist can do to players and stars ---- *)

Lemma map_keeps {A B : Type} (f : A -> B) (g : A -> A) (l : list A) :
  (forall x, f (g x) = f x) -> map f (map g l) = map f l.
Proof. intros H. rewrite map_map. apply map_ext. exact H. Qed.

Lemma twist_players (twist : TwistCard) (current : Player)
  (players : list Player) (stars : list StarState) (r : nat)
  (players' : list Player) :
  r_players (executeImmediateTwist twist current players stars r)
  = Some players' ->
  exists g, players' = map g players
            /\ forall p, (p_id (g p) = p_id p
                         /\ starsCollected (g p) = starsCollected p)
                        /\ (score (g p) = score p
                            \/ score (g p) = score p + 250
                            \/ (effectType twist = instant_points
                                /\ score (g p)
                                   = score p
                                     + JS.orElse (effectValue twist) 50)).
Proof.
  unfold executeImmediateTwist, moved, mapPlayer, JS.truthy.
  destruct (requiresChoice twist); [discriminate|].
  destruct (effectType twist) eqn:Heffect;
    try destruct (effectValue twist) as [n|] eqn:Hvalue;
    try destruct (n =? 0);
    try destruct (JS.find_first _ stars);
    cbn; try discriminate;
    intros E; inversion E;
    (eexists; split; [reflexivity|]); intros p; cbv beta;
    try destruct (String.eqb (p_id p) (p_id current)); cbn; auto.
Qed.

Lemma twist_stars (twist : TwistCard) (current : Player)
  (players : list Player) (stars : list StarState) (r : nat)
  (stars' : list StarState) :
  r_stars (executeImmediateTwist twist current players stars r)
  = Some stars' ->
  effectType twist = upgrade_zero_star
  /\ exists zeroStar, In zeroStar stars /\ pointValue zeroStar = 0
                      /\ stars' = map (upgraded zeroStar) stars.
Proof.
  unfold executeImmediateTwist, moved, JS.truthy.
  destruct (requiresChoice twist); [discriminate|].
  destruct (effectType twist) eqn:Heffect;
    try destruct (effectValue twist) as [n|] eqn:Hvalue;
    try destruct (n =? 0);
    try destruct (JS.find_first _ stars) as [zeroStar|] eqn:Hfind;
    cbn; try discriminate.
  all: intros E; inversion E; (split; [reflexivity|]);
    apply find_some in Hfind; destruct Hfind as [Hin Hzero];
    apply andb_true_iff in Hzero; destruct Hzero as [_ Hzero];
    apply Z.eqb_eq in Hzero; exists zeroStar; auto.
Qed.

Lemma upgraded_split (stars : list StarState) (zeroStar : StarState) :
  NoDup (map s_id stars) -> In zeroStar stars ->
  exists before after,
    stars = before ++ zeroStar :: after
    /\ map (upgraded zeroStar) stars
       = before ++ withPointValue zeroStar 250 :: after.
Proof.
  intros Hnodup Hin. apply in_split in Hin.
  destruct Hin as [before [after ->]]. exists before, after.
  split; [reflexivity|].
  rewrite map_app in Hnodup. cbn [map] in Hnodup.
  pose proof (NoDup_remove_2 _ _ _ Hnodup) as Hfresh.
  assert (Hsame : forall l, (forall s, In s l -> In (s_id s) (map s_id l)) ->
                    (forall s, In s l -> s_id s <> s_id zeroStar) ->
                    map (upgraded zeroStar) l = l).
  { intros l _ Hl. rewrite <- (map_id l) at 2. apply map_ext_in.
    intros s Hs. unfold upgraded.
    destruct (Z.eqb_spec (s_id s) (s_id zeroStar)) as [E|_];
      [destruct (Hl s Hs E) | reflexivity]. }
  rewrite map_app. cbn [map]. unfold upgraded at 2. rewrite Z.eqb_refl.
  rewrite !Hsame; try reflexivity; try (intros s Hs; now apply in_map).
  - intros s Hs E. apply Hfresh. apply in_app_iff. right.
    rewrite <- E. now apply in_map.
  - intros s Hs E. apply Hfresh. apply in_app_iff. left.
    rewrite <- E. now apply in_map.
Qed.

Lemma no_zero_once_upgraded (stars : list StarState) (s : StarState) :
  Permutation (map pointValue stars) UPGRADED_VALUES ->
  In s stars -> pointValue s <> 0.
Proof.
  intros Hperm Hin Hzero.
  assert (H : In 0 UPGRADED_VALUES).
  { eapply Permutation_in; [exact Hperm|]. rewrite <- Hzero.
    now apply in_map. }
  cbn in H. intuition discriminate.
Qed.

Lemma upgrade_values (stars : list StarState) (zeroStar : StarState) :
  NoDup (map s_id stars) -> In zeroStar stars -> pointValue zeroStar = 0 ->
  Permutation (map pointValue stars) STAR_POINT_VALUES ->
  Permutation (map pointValue (map (upgraded zeroStar) stars))
    UPGRADED_VALUES.
Proof.
  intros Hnodup Hin Hzero Hperm.
  destruct (upgraded_split stars zeroStar Hnodup Hin)
    as [before [after [Hstars Hup]]].
  rewrite Hup. rewrite Hstars in Hperm.
  rewrite map_app in *. cbn [map] in *. rewrite Hzero in Hperm.
  cbn [pointValue withPointValue].
  unfold STAR_POINT_VALUES in Hperm. apply Permutation_sym in Hperm.
  apply Permutation_cons_app_inv in Hperm.
  apply Permutation_sym. unfold UPGRADED_VALUES.
  apply Permutation_cons_app. exact Hperm.
Qed.

(* ---- every event keeps the ids, and the values but for the upgrade ---- *)

Ltac split_matches :=
  repeat match goal with
         | |- context [match ?x with _ => _ end] => destruct x eqn:?
         end.

Lemma apply_keeps_ids (e : Event) (b : Board) :
  map p_id (fst (apply e b)) = map p_id (fst b)
  /\ map s_id (snd (apply e b)) = map s_id (snd b).
Proof.
  destruct b as [players stars].
  destruct e; cbn [apply]; split_matches; cbn [fst snd orKeep];
    unfold placePlayer, awardPlayers, awardStars, stealPlayers, stealStars,
      swapPositions, swapScores, mapPlayer;
    split; try reflexivity;
    try (apply map_keeps; intros x; split_matches; reflexivity).
  all: unfold orKeep; split_matches; try reflexivity.
  all: try match goal with
           | H : r_players _ = Some _ |- map p_id _ = _ =>
               destruct (twist_players _ _ _ _ _ _ H) as [g [-> Hg]];
               apply map_keeps; intros q; apply (proj1 (proj1 (Hg q)))
           | H : r_stars _ = Some _ |- map s_id _ = _ =>
               destruct (twist_stars _ _ _ _ _ _ H) as [_ [z [_ [_ ->]]]];
               apply map_keeps; intros x; unfold upgraded;
               split_matches; reflexivity
           end.
Qed.

Lemma apply_values (e : Event) (b : Board) :
  map pointValue (snd (apply e b)) = map pointValue (snd b)
  \/ exists cardIndex turn r twist zeroStar,
       e = EvTwistConfirm cardIndex turn r
       /\ nth_error TWIST_CARDS cardIndex = Some twist
       /\ effectType twist = upgrade_zero_star
       /\ In zeroStar (snd b) /\ pointValue zeroStar = 0
       /\ snd (apply e b) = map (upgraded zeroStar) (snd b).
Proof.
  destruct b as [players stars].
  destruct e; cbn [apply]; split_matches; cbn [fst snd orKeep];
    unfold awardStars, stealStars;
    try (left; reflexivity);
    try (left; apply map_keeps; intros x; split_matches; reflexivity).
  all: unfold orKeep; split_matches; try (left; reflexivity).
  all: right;
    match goal with
    | H : r_stars _ = Some _ |- _ =>
        destruct (twist_stars _ _ _ _ _ _ H) as [Hup [z [Hin [Hzero ->]]]]
    end;
    do 5 eexists; repeat split; eauto.
Qed.

Theorem reachable_sound (b : Board) : reachable b -> sound b.
Proof.
  induction 1 as [settings values Hperm | b e _ IH Henabled].
  - now apply start_sound.
  - destruct IH as [Hplayers [Hstars Hvalues]].
    destruct (apply_keeps_ids e b) as [Epl Est].
    unfold sound. rewrite Epl, Est.
    split; [exact Hplayers|]. split; [exact Hstars|].
    destruct (apply_values e b)
      as [E | (ci & turn & r & twist & z & _ & _ & _ & Hin & Hzero & E)];
      rewrite E; [exact Hvalues|].
    right. destruct Hvalues as [Hinit | Hup].
    + now apply upgrade_values.
    + destruct (no_zero_once_upgraded _ z Hup Hin Hzero).
Qed.

Lemma total_of_values (stars : list StarState) (values : list Z) :
  Permutation (map pointValue stars) values ->
  starTotal stars = total values.
Proof.
  unfold starTotal, total. generalize (map pointValue stars). intros l Hperm.
  induction Hperm; cbn; lia.
Qed.

Lemma filter_partition {A : Type} (keep : A -> bool) (l : list A) :
  (length (filter keep l) + length (filter (fun x => negb (keep x)) l)
   = length l)%nat.
Proof.
  induction l as [|x l IH]; cbn; [reflexivity|].
  destruct (keep x); cbn; lia.
Qed.

End SessionInvariants.

Section StarCounts.


Lemma map_if_split {A : Type} (same : A -> bool) (g : A -> A)
  (before after : list A) (x : A) :
  same x = true ->
  (forall y, In y before -> same y = false) ->
  (forall y, In y after -> same y = false) ->
  map (fun y => if same y then g y else y) (before ++ x :: after)
  = before ++ g x :: after.
Proof.
  intros Hx Hbefore Hafter.
  assert (Hsame : forall l, (forall y, In y l -> same y = false) ->
                    map (fun y => if same y then g y else y) l = l).
  { intros l Hl. rewrite <- (map_id l) at 2. apply map_ext_in.
    intros y Hy. now rewrite (Hl y Hy). }
  rewrite map_app. cbn [map]. now rewrite Hx, !Hsame.
Qed.


Lemma stars_split (stars : list StarState) (x : StarState) :
  NoDup (map s_id stars) -> In x stars ->
  exists before after,
    stars = before ++ x :: after
    /\ forall g, map (fun s => if s_id s =? s_id x then g s else s) stars
                 = before ++ g x :: after.
Proof.
  intros Hnodup Hin. apply in_split in Hin.
  destruct Hin as [before [after ->]]. exists before, after.
  split; [reflexivity|]. intros g.
  rewrite map_app in Hnodup. cbn [map] in Hnodup.
  pose proof (NoDup_remove_2 _ _ _ Hnodup) as Hfresh.
  apply (map_if_split (fun s => s_id s =? s_id x) g).
  - apply Z.eqb_refl.
  - intros y Hy. apply Z.eqb_neq. intros E. apply Hfresh.
    apply in_app_iff. left. rewrite <- E. now apply in_map.
  - intros y Hy. apply Z.eqb_neq. intros E. apply Hfresh.
    apply in_app_iff. right. rewrite <- E. now apply in_map.
Qed.











End StarCounts.

Section StarPool.







End StarPool.

Section Scores.

Lemma scores_map (g : Player -> Player) (players : list Player) :
  (forall p, In p players -> 0 <= score p -> 0 <= score (g p)) ->
  scoresNonNegative players -> scoresNonNegative (map g players).
Proof.
  intros Hg Hplayers q Hq. apply in_map_iff in Hq.
  destruct Hq as [p [<- Hp]]. apply Hg; [exact Hp | now apply Hplayers].
Qed.

Lemma star_value_nonneg (b : Board) (s : StarState) :
  sound b -> In s (snd b) -> 0 <= pointValue s.
Proof.
  intros [_ [_ Hvalues]] Hin.
  assert (Hv : In (pointValue s) STAR_POINT_VALUES
               \/ In (pointValue s) UPGRADED_VALUES).
  { destruct Hvalues as [H|H]; [left|right];
      (eapply Permutation_in; [exact H | now apply in_map]). }
  cbn in Hv. lia.
Qed.

Lemma catalogue_points (cardIndex : nat) (twist : TwistCard) :
  nth_error TWIST_CARDS cardIndex = Some twist ->
  effectType twist = instant_points ->
  0 <= JS.orElse (effectValue twist) 50.
Proof.
  intros Hcard. apply nth_error_In in Hcard. revert Hcard.
  unfold TWIST_CARDS. cbn [In].
  intuition (subst twist; cbn in *; try discriminate; try lia).
Qed.

(** C7: scores are integers that start at 0, and no operation
    other than steal_star can make a score negative: moves, star award,
    free_star, every confirmed twist of the catalogue (instant_points
    and upgrade_zero_star among them), swap_positions, points_swap and
    the gate choice keep all scores at or above 0.  steal_star takes the
    stolen star's value off the target's score with no floor: the
    target's new score is the old one less that value, so all scores
    stay at or above 0 when the target's score is at least the value of
    the star stolen. *)
Theorem C7_scores (b : Board) (e : Event) :
  reachable b ->
  enabled e b = true ->
  scoresNonNegative (fst b) ->
  (forall cardIndex turn target r twist current targetPlayer randomStar,
      e = EvChoosePlayer cardIndex turn target r ->
      nth_error TWIST_CARDS cardIndex = Some twist ->
      effectType twist = steal_star ->
      nth_error (fst b) turn = Some current ->
      nth_error (fst b) target = Some targetPlayer ->
      JS.pick r (filter (ownedBy (p_id targetPlayer)) (snd b))
      = Some randomStar ->
      nth_error (fst (apply e b)) target
      = Some (withScoreAndStars targetPlayer
                (score targetPlayer - pointValue randomStar)
                (starsCollected targetPlayer - 1)))
  /\ ((forall cardIndex turn target r twist targetPlayer randomStar,
          e = EvChoosePlayer cardIndex turn target r ->
          nth_error TWIST_CARDS cardIndex = Some twist ->
          effectType twist = steal_star ->
          nth_error (fst b) target = Some targetPlayer ->
          JS.pick r (filter (ownedBy (p_id targetPlayer)) (snd b))
          = Some randomStar ->
          pointValue randomStar <= score targetPlayer) ->
      scoresNonNegative (fst (apply e b))).
Proof.
  intros Hreach Henabled Hscores.
  pose proof (reachable_sound b Hreach) as Hsound.
  destruct b as [players stars]. cbn [fst snd] in *.
  split.
  - intros ci turn target r twist current targetPlayer randomStar
      -> Hcard Hsteal Hcurrent Htarget Hpick.
    cbn [apply]. rewrite Hcard, Hcurrent, Htarget, Hsteal, Hpick.
    cbn [fst]. unfold stealPlayers. rewrite nth_error_map, Htarget.
    cbn [option_map]. now rewrite String.eqb_refl.
  - intros Hguard. destruct e as [who steps | who which | ci turn r
                                 | ci turn target r | turn gate
                                 | turn which]; cbn [apply].
    + destruct (nth_error players who) as [player|]; [|exact Hscores].
      cbn [fst]. apply scores_map; [|exact Hscores].
      intros p _ Hp. unfold withPosition.
      destruct (String.eqb (p_id p) (p_id player)); exact Hp.
    + destruct (nth_error players who) as [selecting|]; [|exact Hscores].
      destruct (nth_error stars which) as [revealing|] eqn:Hstar;
        [|exact Hscores].
      cbn [fst]. apply scores_map; [|exact Hscores].
      intros p _ Hp.
      pose proof (star_value_nonneg _ revealing Hsound
                    (nth_error_In _ _ Hstar)).
      destruct (String.eqb (p_id p) (p_id selecting)); cbn; lia.
    + destruct (nth_error TWIST_CARDS ci) as [twist|] eqn:Hcard;
        [|exact Hscores].
      destruct (nth_error players turn) as [current|]; [|exact Hscores].
      cbn [fst]. unfold orKeep.
      destruct (r_players _) as [players'|] eqn:Hresult; [|exact Hscores].
      destruct (twist_players _ _ _ _ _ _ Hresult) as [g [-> Hg]].
      apply scores_map; [|exact Hscores].
      intros p _ Hp. destruct (Hg p) as [_ [E|[E|[Hinstant E]]]];
        rewrite E; try lia.
      pose proof (catalogue_points ci twist Hcard Hinstant). lia.
    + destruct (nth_error TWIST_CARDS ci) as [twist|] eqn:Hcard;
        [|exact Hscores].
      destruct (nth_error players turn) as [current|] eqn:Hcurrent;
        [|exact Hscores].
      destruct (nth_error players target) as [targetPlayer|] eqn:Htarget;
        [|exact Hscores].
      pose proof (nth_error_In _ _ Hcurrent) as Hcur_in.
      pose proof (nth_error_In _ _ Htarget) as Htar_in.
      destruct (effectType twist) eqn:Heffect; try exact Hscores.
      * destruct (JS.pick r _) as [randomStar|] eqn:Hpick;
          [|exact Hscores].
        cbn [fst]. apply scores_map; [|exact Hscores].
        intros p Hin Hp.
        pose proof (Hguard ci turn target r twist targetPlayer randomStar
                      eq_refl Hcard Heffect Htarget Hpick) as Henough.
        assert (Hvalue : 0 <= pointValue randomStar).
        { apply (star_value_nonneg (players, stars) _ Hsound).
          apply pick_in in Hpick. apply filter_In in Hpick. tauto. }
        destruct (String.eqb_spec (p_id p) (p_id targetPlayer)) as [E|_].
        -- assert (p = targetPlayer).
           { destruct Hsound as [Hids _].
             eapply unique_by_id; eauto. }
           subst p. cbn. lia.
        -- destruct (String.eqb (p_id p) (p_id current)); cbn; lia.
      * cbn [fst]. apply scores_map; [|exact Hscores].
        intros p _ Hp. cbv zeta.
        destruct (String.eqb (p_id p) (p_id current)); [exact Hp|].
        destruct (String.eqb (p_id p) (p_id targetPlayer)); exact Hp.
      * destruct (score current <? score targetPlayer); [|exact Hscores].
        cbn [fst]. apply scores_map; [|exact Hscores].
        intros p _ Hp. cbv zeta.
        destruct (String.eqb (p_id p) (p_id current));
          [cbn; now apply Hscores|].
        destruct (String.eqb (p_id p) (p_id targetPlayer));
          [cbn; now apply Hscores | exact Hp].
    + destruct (nth_error players turn) as [current|]; [|exact Hscores].
      cbn [fst]. apply scores_map; [|exact Hscores].
      intros p _ Hp. unfold withPosition.
      destruct (String.eqb (p_id p) (p_id current)); exact Hp.
    + destruct (nth_error players turn) as [current|]; [|exact Hscores].
      destruct (nth_error stars which) as [star|] eqn:Hstar;
        [|exact Hscores].
      cbn [fst]. apply scores_map; [|exact Hscores].
      intros p _ Hp.
      pose proof (star_value_nonneg _ star Hsound
                    (nth_error_In _ _ Hstar)).
      destruct (String.eqb (p_id p) (p_id current)); cbn; lia.
Qed.

Lemma richBoard_reachable : reachable richBoard.
Proof.
  apply reach_start.
  apply (Permutation_cons_append [0; 50; 50; 100; 100; 150; 150; 200; 200]
           250).
Qed.

Lemma omerAhead_reachable : reachable omerAhead.
Proof.
  apply reach_event; [exact richBoard_reachable | reflexivity].
Qed.

Lemma robbedBoard_reachable : reachable robbedBoard.
Proof.
  change (reachable (apply (EvChoosePlayer 7 0 1 0)
                       (apply (EvChoosePlayer 12 0 1 0) omerAhead))).
  apply reach_event; [apply reach_event|]; try reflexivity.
  exact omerAhead_reachable.
Qed.

(** C7, when Dana steals the star worth 250 from Omer, who has 250
    points: Omer is left with 0 and no score is negative. *)
Lemma C7_scores_witness :
  (reachable omerAhead
   /\ enabled (EvChoosePlayer 7 0 1 0) omerAhead = true
   /\ scoresNonNegative (fst omerAhead))
  /\ scoresNonNegative (fst (apply (EvChoosePlayer 7 0 1 0) omerAhead)).
Proof.
  assert (Hscores : scoresNonNegative (fst omerAhead)).
  { intros p [<-|[<-|[]]]; vm_compute; discriminate. }
  split; [split; [exact omerAhead_reachable | split; [reflexivity|]];
          exact Hscores|].
  apply (C7_scores omerAhead (EvChoosePlayer 7 0 1 0) omerAhead_reachable
           eq_refl Hscores).
  intros ci turn target r twist targetPlayer randomStar E _ _ Htarget Hpick.
  injection E as <- <- <- <-.
  vm_compute in Htarget. injection Htarget as <-.
  vm_compute in Hpick. injection Hpick as <-.
  cbn. lia.
Defined.

(** C7, against scores that never go below 0: Omer takes the star worth
    250, Dana (0 points)
    swaps points with Omer, then steals that star from him; Omer, whose
    score is 0 by then, ends with -250. *)
Lemma C7_counterexample :
  reachable robbedBoard
  /\ map score (fst robbedBoard) = [500; -250]
  /\ ~ scoresNonNegative (fst robbedBoard).
Proof.
  split; [exact robbedBoard_reachable|]. split; [reflexivity|].
  intros Hscores.
  assert (Hin : In (nth 1 (fst robbedBoard) dana) (fst robbedBoard))
    by (right; left; reflexivity).
  apply Hscores in Hin. vm_compute in Hin. now apply Hin.
Qed.

End Scores.

Section Shuffling.

Lemma assign_length {A : Type} (l : list A) (i : nat) (v : A) :
  length (assign l i v) = length l.
Proof.
  revert i. induction l as [|x l IH]; intros [|i]; cbn; auto.
Qed.

Lemma nth_error_assign {A : Type} (l : list A) (i k : nat) (v : A) :
  nth_error (assign l i v) k =
  if Nat.eqb k i
  then match nth_error l i with Some _ => Some v | None => None end
  else nth_error l k.
Proof.
  revert i k. induction l as [|x l IH]; intros [|i] [|k]; cbn; auto;
    destruct (Nat.eqb k i); reflexivity.
Qed.

Lemma assign_app_l {A : Type} (a b : list A) (i : nat) (v : A) :
  (i < length a)%nat -> assign (a ++ b) i v = assign a i v ++ b.
Proof.
  revert i. induction a as [|x a IH]; intros [|i] Hi; cbn in *;
    try lia; auto.
  f_equal. apply IH. lia.
Qed.

(* writing h over a cell that holds y, with y put in front, reorders
   h :: t *)
Lemma assign_front {A : Type} (t : list A) (j : nat) (y h : A) :
  nth_error t j = Some y -> Permutation (y :: assign t j h) (h :: t).
Proof.
  revert j. induction t as [|a t IH]; intros [|j] Hj; cbn in *;
    try discriminate.
  - injection Hj as ->. apply perm_swap.
  - eapply perm_trans; [apply perm_swap|].
    eapply perm_trans; [apply perm_skip, IH, Hj|]. apply perm_swap.
Qed.

Lemma exchange_permutation {A : Type} (l : list A) (i j : nat) :
  Permutation (exchange l i j) l.
Proof.
  unfold exchange.
  destruct (nth_error l j) as [y|] eqn:Hj; [|reflexivity].
  destruct (nth_error l i) as [x|] eqn:Hi; [|reflexivity].
  revert i j Hi Hj.
  induction l as [|h t IH]; intros [|i] [|j] Hi Hj; cbn in *;
    try discriminate.
  - injection Hi as ->. injection Hj as ->. reflexivity.
  - injection Hi as ->. now apply assign_front.
  - injection Hj as ->. now apply assign_front.
  - apply perm_skip. now apply IH.
Qed.

Lemma exchange_length {A : Type} (l : list A) (i j : nat) :
  length (exchange l i j) = length l.
Proof. apply Permutation_length, exchange_permutation. Qed.

Lemma shuffleFrom_permutation {A : Type} (random : nat -> nat) (i : nat)
  (l : list A) :
  Permutation (shuffleFrom random i l) l.
Proof.
  revert l. induction i as [|i IH]; intros l; cbn [shuffleFrom].
  - reflexivity.
  - eapply perm_trans; [apply IH|]. apply exchange_permutation.
Qed.

Lemma getShuffledTwists_permutation (random : nat -> nat) :
  Permutation (getShuffledTwists random) TWIST_CARDS.
Proof. apply shuffleFrom_permutation. Qed.

(** X1: shuffleArray (and the same loop in getShuffledTwists) returns a
    reordering of its argument whatever Math.random gives: the same
    elements with the same multiplicities, and the same length. *)
Theorem shuffleArray_permutation {A : Type} (random : nat -> nat)
  (array : list A) :
  Permutation (shuffleArray random array) array
  /\ length (shuffleArray random array) = length array
  /\ Permutation (getShuffledTwists random) TWIST_CARDS.
Proof.
  split; [apply shuffleFrom_permutation|].
  split; [apply Permutation_length, shuffleFrom_permutation|].
  apply getShuffledTwists_permutation.
Qed.

(* ---- every order can come out ---- *)

Lemma exchange_app_l {A : Type} (a b : list A) (i j : nat) :
  (i < length a)%nat -> (j < length a)%nat ->
  exchange (a ++ b) i j = exchange a i j ++ b.
Proof.
  intros Hi Hj. unfold exchange.
  rewrite !nth_error_app1 by assumption.
  destruct (nth_error a j) as [y|]; [|reflexivity].
  destruct (nth_error a i) as [x|]; [|reflexivity].
  rewrite assign_app_l by assumption.
  rewrite assign_app_l by (rewrite assign_length; assumption).
  reflexivity.
Qed.

Lemma shuffleFrom_app_l {A : Type} (random : nat -> nat) (i : nat)
  (a b : list A) :
  (i < length a)%nat ->
  shuffleFrom random i (a ++ b) = shuffleFrom random i a ++ b.
Proof.
  revert a. induction i as [|i IH]; intros a Hi; cbn [shuffleFrom].
  - reflexivity.
  - assert (Hj : (Nat.modulo (random (S i)) (S i + 1) < length a)%nat).
    { pose proof (Nat.mod_upper_bound (random (S i)) (S i + 1)). lia. }
    rewrite exchange_app_l by assumption.
    apply IH. rewrite exchange_length. lia.
Qed.

(* the loop reads the draws at the indices 1..i only *)
Lemma shuffleFrom_draws {A : Type} (random random' : nat -> nat) (i : nat)
  (l : list A) :
  (forall k, (1 <= k <= i)%nat -> random k = random' k) ->
  shuffleFrom random i l = shuffleFrom random' i l.
Proof.
  revert l. induction i as [|i IH]; intros l Hsame; cbn [shuffleFrom].
  - reflexivity.
  - rewrite (Hsame (S i)) by lia. apply IH. intros k Hk. apply Hsame. lia.
Qed.

Lemma exchange_last {A : Type} (l : list A) (i j : nat) (z : A) :
  length l = S i -> nth_error l j = Some z ->
  exists a, exchange l i j = a ++ [z] /\ length a = i.
Proof.
  intros Hlen Hj.
  assert (Hi : (i < length l)%nat) by lia.
  destruct (nth_error l i) as [x|] eqn:Hx;
    [|apply nth_error_None in Hx; lia].
  assert (Hat : nth_error (exchange l i j) i = Some z).
  { unfold exchange. rewrite Hj, Hx.
    rewrite nth_error_assign.
    destruct (Nat.eqb i j) eqn:Hij.
    - apply Nat.eqb_eq in Hij. subst j.
      rewrite nth_error_assign, Nat.eqb_refl, Hx.
      congruence.
    - rewrite nth_error_assign, Nat.eqb_refl, Hx. reflexivity. }
  pose proof (exchange_length l i j) as Hl.
  destruct (exists_last (l := exchange l i j)) as [a [w Ha]].
  { intros E. rewrite E in Hl. cbn in Hl. lia. }
  rewrite Ha in Hl, Hat. rewrite length_app in Hl. cbn in Hl.
  assert (length a = i) by lia.
  rewrite nth_error_app2 in Hat by lia.
  replace (i - length a)%nat with 0%nat in Hat by lia.
  cbn in Hat. injection Hat as ->.
  exists a. now rewrite Ha.
Qed.

Lemma shuffleFrom_reaches {A : Type} (n : nat) :
  forall array target : list A,
    length array = n -> Permutation target array ->
    exists random, shuffleFrom random (n - 1) array = target.
Proof.
  induction n as [|m IH]; intros array target Hlen Hperm.
  - destruct array; [|discriminate].
    apply Permutation_sym, Permutation_nil in Hperm. subst.
    exists (fun _ => 0%nat). reflexivity.
  - destruct m as [|m].
    + destruct array as [|x [|? ?]]; try discriminate.
      apply Permutation_sym, Permutation_length_1_inv in Hperm. subst.
      exists (fun _ => 0%nat). reflexivity.
    + (* the loop first fills the last cell *)
      destruct (exists_last (l := target)) as [target' [z Ht]].
      { intros E. subst. apply Permutation_nil in Hperm.
        subst. discriminate. }
      assert (Hz : In z array).
      { eapply Permutation_in; [exact Hperm|].
        rewrite Ht. apply in_or_app. right. now left. }
      destruct (In_nth_error _ _ Hz) as [j Hj].
      assert (Hjlt : (j < S (S m))%nat).
      { rewrite <- Hlen. apply nth_error_Some. congruence. }
      destruct (exchange_last array (S m) j z Hlen Hj) as [a [Ha Hla]].
      assert (Hpa : Permutation target' a).
      { apply Permutation_app_inv_r with (l := [z]).
        rewrite <- Ht, <- Ha.
        eapply perm_trans; [exact Hperm|].
        apply Permutation_sym, exchange_permutation. }
      destruct (IH a target' Hla Hpa) as [random Hr].
      exists (drawAt random (S m) j).
      replace (S (S m) - 1)%nat with (S m) by lia.
      cbn [shuffleFrom].
      replace (Nat.modulo (drawAt random (S m) j (S m)) (S m + 1)) with j.
      2:{ unfold drawAt. rewrite Nat.eqb_refl.
          symmetry. apply Nat.mod_small. lia. }
      rewrite Ha.
      rewrite shuffleFrom_app_l by lia.
      rewrite (shuffleFrom_draws _ random).
      2:{ intros k Hk. unfold drawAt.
          destruct (Nat.eqb k (S m)) eqn:E; [|reflexivity].
          apply Nat.eqb_eq in E. lia. }
      replace (S m - 1)%nat with m in Hr by lia.
      now rewrite Hr, Ht.
Qed.

(** X2: every order of the array can come out of shuffleArray: for each
    reordering of the argument there are draws of Math.random for which
    the loop returns exactly that order.  With X1, the results of
    shuffleArray are exactly the reorderings of its argument. *)
Theorem shuffleArray_reaches_every_order {A : Type} (array target : list A) :
  Permutation target array ->
  exists random, shuffleArray random array = target.
Proof.
  intros Hperm. unfold shuffleArray.
  now apply shuffleFrom_reaches.
Qed.

Lemma shuffleArray_reaches_every_order_witness :
  Permutation bestFirst STAR_POINT_VALUES
  /\ exists random, shuffleArray random STAR_POINT_VALUES = bestFirst.
Proof.
  assert (H : Permutation bestFirst STAR_POINT_VALUES).
  { exact (Permutation_cons_append
             [0; 50; 50; 100; 100; 150; 150; 200; 200] 250). }
  split; [exact H|].
  exact (shuffleArray_reaches_every_order STAR_POINT_VALUES bestFirst H).
Defined.

Lemma starsFrom_length (values : list Z) (k : Z) :
  length (starsFrom k values) = length values.
Proof.
  revert k. induction values as [|v values IH]; intros k; cbn; auto.
Qed.

Lemma starsFrom_nth (values : list Z) (k : Z) (i : nat) (s : StarState) :
  nth_error (starsFrom k values) i = Some s ->
  s_id s = k + Z.of_nat i
  /\ isEarned s = false
  /\ earnedByPlayerId s = None
  /\ nth_error values i = Some (pointValue s).
Proof.
  revert k i. induction values as [|v values IH]; intros k [|i] H;
    cbn in *; try discriminate.
  - injection H as <-. cbn. repeat split; lia.
  - apply IH in H. destruct H as (Hid & He & Ho & Hv).
    repeat split; auto. lia.
Qed.

(** X3: the stars a session starts with, createInitialStars run on the
    shuffled STAR_POINT_VALUES: there are 10 of them, the star at index i
    has id i and is neither earned nor owned, the values are a reordering
    of STAR_POINT_VALUES (so they add up to 1250), and together with the
    players of createPlayersFromSettings they form a board the session
    can start from. *)
Theorem fresh_session_stars (random : nat -> nat) (settings : GameSettings) :
  let stars := createInitialStars (shuffleArray random STAR_POINT_VALUES) in
  length stars = 10%nat
  /\ (forall i s, nth_error stars i = Some s ->
        s_id s = Z.of_nat i /\ isEarned s = false
        /\ earnedByPlayerId s = None)
  /\ Permutation (map pointValue stars) STAR_POINT_VALUES
  /\ starTotal stars = 1250
  /\ availableStars stars = stars
  /\ reachable (createPlayersFromSettings settings, stars).
Proof.
  intros stars.
  assert (Hperm : Permutation (shuffleArray random STAR_POINT_VALUES)
                    STAR_POINT_VALUES)
    by apply shuffleFrom_permutation.
  assert (Hvalues : map pointValue stars
                    = shuffleArray random STAR_POINT_VALUES)
    by apply starsFrom_values.
  split.
  { unfold stars, createInitialStars. rewrite starsFrom_length.
    now rewrite (Permutation_length Hperm). }
  split.
  { intros i s Hs. apply starsFrom_nth in Hs.
    destruct Hs as (Hid & He & Ho & _). repeat split; auto. }
  split; [now rewrite Hvalues|].
  split.
  { rewrite (total_of_values stars STAR_POINT_VALUES).
    - reflexivity.
    - now rewrite Hvalues. }
  split.
  { unfold availableStars. apply forallb_filter_id.
    apply forallb_forall. intros s Hs.
    destruct (In_nth_error _ _ Hs) as [i Hi].
    apply starsFrom_nth in Hi. destruct Hi as (_ & He & _).
    now rewrite He. }
  apply reach_start. exact Hperm.
Qed.

End Shuffling.
Section SessionStart.

Lemma gate_of_index (k : nat) :
  cyclic 0 GATE_POSITIONS k = 5 * (Z.of_nat k mod 5).
Proof.
  unfold cyclic, GATE_POSITIONS. cbn [length].
  replace (Z.of_nat k mod 5) with (Z.of_nat (Nat.modulo k 5))
    by (rewrite Nat2Z.inj_mod; reflexivity).
  pose proof (Nat.mod_upper_bound k 5 ltac:(lia)) as Hlt.
  destruct (Nat.modulo k 5) as [|[|[|[|[|m]]]]]; try reflexivity; lia.
Qed.

Lemma humansFrom_nth (names : list string) (k i : nat) (p : Player) :
  nth_error (humansFrom k names) i = Some p ->
  exists name, nth_error names i = Some name
               /\ p = humanPlayer (k + i) name.
Proof.
  revert k i. induction names as [|name names IH]; intros k [|i] H;
    cbn in *; try discriminate.
  - injection H as <-. exists name. now rewrite Nat.add_0_r.
  - apply IH in H. destruct H as [name' [Hn ->]].
    exists name'. split; [assumption|]. f_equal. lia.
Qed.

Lemma humansFrom_length (names : list string) (k : nat) :
  length (humansFrom k names) = length names.
Proof.
  revert k. induction names as [|name names IH]; intros k; cbn; auto.
Qed.

(** X4: the players createPlayersFromSettings builds: one per human name
    followed by one per digital player; the player at index k starts on
    gate 5 * (k mod 5), with score 0 and no star; the humans come first,
    with ids human-0, human-1, ..., then the digital players with ids
    digital-0, digital-1, ...; all ids are different. *)
Theorem initial_players_layout (settings : GameSettings) :
  let players := createPlayersFromSettings settings in
  let humans := length (humanPlayerNames settings) in
  length players = (humans + digitalPlayerCount settings)%nat
  /\ NoDup (map p_id players)
  /\ forall k p, nth_error players k = Some p ->
       boardPosition p = 5 * (Z.of_nat k mod 5)
       /\ isGate (boardPosition p) = true
       /\ score p = 0 /\ starsCollected p = 0
       /\ (if (k <? humans)%nat
           then p_type p = human
                /\ p_id p = String.append "human-" (numberText k)
           else p_type p = digital
                /\ p_id p = String.append "digital-"
                              (numberText (k - humans))).
Proof.
  intros players humans.
  split.
  { unfold players, createPlayersFromSettings.
    now rewrite length_app, humansFrom_length, length_map, length_seq. }
  split; [apply initial_players_unique|].
  intros k p Hk.
  assert (Hgate : forall i : nat, isGate (5 * (Z.of_nat i mod 5)) = true).
  { intros i. pose proof (Z.mod_pos_bound (Z.of_nat i) 5 ltac:(lia)) as Hb.
    apply isGate_iff. cbn.
    assert (Hc : Z.of_nat i mod 5 = 0 \/ Z.of_nat i mod 5 = 1
                 \/ Z.of_nat i mod 5 = 2 \/ Z.of_nat i mod 5 = 3
                 \/ Z.of_nat i mod 5 = 4) by lia.
    destruct Hc as [-> | [-> | [-> | [-> | ->]]]]; cbn; tauto. }
  unfold players, createPlayersFromSettings in Hk.
  destruct (k <? humans)%nat eqn:Hlt.
  - apply Nat.ltb_lt in Hlt.
    rewrite nth_error_app1 in Hk by now rewrite humansFrom_length.
    apply humansFrom_nth in Hk. destruct Hk as [name [_ ->]].
    cbn [humanPlayer boardPosition score starsCollected p_type p_id
         Nat.add].
    rewrite gate_of_index. repeat split; auto.
  - apply Nat.ltb_ge in Hlt.
    rewrite nth_error_app2 in Hk by now rewrite humansFrom_length.
    rewrite humansFrom_length in Hk.
    fold humans in Hk.
    assert (Hin : (k - humans < digitalPlayerCount settings)%nat).
    { assert (Hs : nth_error
                     (map (digitalPlayer humans)
                        (seq 0 (digitalPlayerCount settings)))
                     (k - humans) <> None) by congruence.
      apply nth_error_Some in Hs.
      now rewrite length_map, length_seq in Hs. }
    rewrite nth_error_map, nth_error_seq in Hk.
    apply Nat.ltb_lt in Hin. rewrite Hin in Hk. cbn in Hk.
    injection Hk as <-.
    cbn [digitalPlayer boardPosition score starsCollected p_type p_id].
    rewrite gate_of_index.
    replace (humans + (k - humans))%nat with k by lia.
    repeat split; auto.
Qed.

End SessionStart.
Section StoreLookup.

Lemma find_is_first_kept {A : Type} (f : A -> bool) (l : list A) :
  find f l = hd_error (filter f l).
Proof.
  induction l as [|x l IH]; cbn; [reflexivity|].
  destruct (f x); [reflexivity|exact IH].
Qed.

Lemma existsb_is_kept {A : Type} (f : A -> bool) (l : list A) :
  existsb f l = negb (length (filter f l) =? 0)%nat.
Proof.
  induction l as [|x l IH]; cbn; [reflexivity|].
  destruct (f x); cbn; [reflexivity|exact IH].
Qed.

Lemma filter_filter {A : Type} (f g : A -> bool) (l : list A) :
  filter f (filter g l) = filter (fun x => f x && g x) l.
Proof.
  induction l as [|x l IH]; cbn; [reflexivity|].
  destruct (g x); cbn; destruct (f x); cbn; rewrite ?IH; reflexivity.
Qed.

Lemma filter_none {A : Type} (f : A -> bool) (l : list A) :
  (forall x, In x l -> f x = false) -> filter f l = [].
Proof.
  induction l as [|x l IH]; intros H; cbn; [reflexivity|].
  rewrite (H x) by now left. apply IH. intros y Hy. apply H. now right.
Qed.

Lemma matches_other (pid pid' : string) (ty ty' : ModifierType)
  (m : PlayerModifier) :
  (pid', ty') <> (pid, ty) -> matches pid' ty' m = true ->
  matches pid ty m = false.
Proof.
  intros Hne Hm. apply matches_key in Hm.
  destruct (matches pid ty m) eqn:E; [|reflexivity].
  apply matches_key in E. congruence.
Qed.

(* the entries under a key after a removal: none under the key removed,
   the same as before under any other key *)
Lemma kept_after_remove (pid pid' : string) (ty ty' : ModifierType)
  (store : list PlayerModifier) :
  filter (matches pid' ty') (removeModifier pid ty store) =
  if String.eqb pid' pid && modtype_eqb ty' ty then []
  else filter (matches pid' ty') store.
Proof.
  unfold removeModifier. rewrite filter_filter.
  destruct (String.eqb pid' pid && modtype_eqb ty' ty) eqn:Hsame.
  - apply andb_prop in Hsame. destruct Hsame as [Hp Ht].
    apply String.eqb_eq in Hp. apply modtype_eqb_eq in Ht. subst.
    apply filter_none. intros m _. now destruct (matches pid ty m).
  - apply filter_ext. intros m.
    destruct (matches pid' ty' m) eqn:Hm; [|reflexivity].
    cbn. rewrite (matches_other pid pid' ty ty' m); [reflexivity| |exact Hm].
    intros E. injection E as -> ->.
    rewrite String.eqb_refl in Hsame. cbn in Hsame.
    destruct ty; discriminate.
Qed.

Lemma kept_after_add (modifier : PlayerModifier) (pid : string)
  (ty : ModifierType) (store : list PlayerModifier) :
  filter (matches pid ty) (addModifier modifier store) =
  if String.eqb pid (playerId modifier) && modtype_eqb ty (m_type modifier)
  then [modifier]
  else filter (matches pid ty) store.
Proof.
  unfold addModifier. rewrite filter_app.
  pose proof (kept_after_remove (playerId modifier) pid (m_type modifier)
                ty store) as Hrem.
  unfold removeModifier in Hrem. rewrite Hrem. clear Hrem.
  cbn [filter].
  destruct (String.eqb pid (playerId modifier)
            && modtype_eqb ty (m_type modifier)) eqn:Hsame.
  - apply andb_prop in Hsame. destruct Hsame as [Hp Ht].
    apply String.eqb_eq in Hp. apply modtype_eqb_eq in Ht. subst.
    unfold matches. rewrite String.eqb_refl.
    replace (modtype_eqb (m_type modifier) (m_type modifier)) with true
      by (now destruct (m_type modifier)).
    reflexivity.
  - replace (matches pid ty modifier) with false.
    + apply app_nil_r.
    + unfold matches. rewrite String.eqb_sym.
      destruct (String.eqb pid (playerId modifier)) eqn:Hp; cbn in *;
        [|reflexivity].
      destruct (m_type modifier), ty; cbn in *; congruence.
Qed.

Lemma kept_after_tick (pid : string) (ty : ModifierType)
  (store : list PlayerModifier) :
  filter (matches pid ty) (tickModifiers store)
  = tickModifiers (filter (matches pid ty) store).
Proof.
  unfold tickModifiers.
  induction store as [|m store IH]; cbn; [reflexivity|].
  replace (matches pid ty (decrement m)) with (matches pid ty m) in *
    by reflexivity.
  destruct (turnsRemaining m - 1 >? 0) eqn:Hpos; cbn.
  - change (matches pid ty (decrement m)) with (matches pid ty m).
    destruct (matches pid ty m); cbn; rewrite ?Hpos, IH; reflexivity.
  - destruct (matches pid ty m); cbn; rewrite ?Hpos, IH; reflexivity.
Qed.

Lemma same_key_eqb (pid pid' : string) (ty ty' : ModifierType) :
  String.eqb pid' pid && modtype_eqb ty' ty = true <-> (pid', ty') = (pid, ty).
Proof.
  rewrite andb_true_iff, String.eqb_eq, modtype_eqb_eq.
  split; [intros [-> ->]; reflexivity|intros E; now injection E].
Qed.

(** X5: the modifier store of useTwists behaves as a map keyed by
    (playerId, type).  After addModifier(m), getModifier and hasModifier
    under m's key give m and true; after removeModifier(pid, type) they
    give undefined and false under that key; under every other key both
    calls leave the answers of getModifier and hasModifier as they were;
    and hasModifier is true exactly when getModifier finds an entry. *)
Theorem modifier_store_lookup (store : list PlayerModifier) :
  (forall m,
      getModifier (addModifier m store) (playerId m) (m_type m) = Some m
      /\ hasModifier (addModifier m store) (playerId m) (m_type m) = true)
  /\ (forall pid ty,
        getModifier (removeModifier pid ty store) pid ty = None
        /\ hasModifier (removeModifier pid ty store) pid ty = false)
  /\ (forall m pid ty, (pid, ty) <> key m ->
        getModifier (addModifier m store) pid ty = getModifier store pid ty
        /\ hasModifier (addModifier m store) pid ty
           = hasModifier store pid ty)
  /\ (forall pid ty pid' ty', (pid', ty') <> (pid, ty) ->
        getModifier (removeModifier pid ty store) pid' ty'
        = getModifier store pid' ty'
        /\ hasModifier (removeModifier pid ty store) pid' ty'
           = hasModifier store pid' ty')
  /\ (forall pid ty,
        hasModifier store pid ty = true
        <-> exists m, getModifier store pid ty = Some m).
Proof.
  unfold getModifier, hasModifier, JS.find_first.
  repeat split.
  - rewrite find_is_first_kept, kept_after_add.
    now rewrite (proj2 (same_key_eqb _ _ _ _) eq_refl).
  - rewrite existsb_is_kept, kept_after_add.
    now rewrite (proj2 (same_key_eqb _ _ _ _) eq_refl).
  - rewrite find_is_first_kept, kept_after_remove.
    now rewrite (proj2 (same_key_eqb _ _ _ _) eq_refl).
  - rewrite existsb_is_kept, kept_after_remove.
    now rewrite (proj2 (same_key_eqb _ _ _ _) eq_refl).
  - rewrite !find_is_first_kept, kept_after_add.
    destruct (String.eqb pid (playerId m) && modtype_eqb ty (m_type m))
      eqn:E; [|reflexivity].
    apply same_key_eqb in E. contradiction.
  - rewrite !existsb_is_kept, kept_after_add.
    destruct (String.eqb pid (playerId m) && modtype_eqb ty (m_type m))
      eqn:E; [|reflexivity].
    apply same_key_eqb in E. contradiction.
  - rewrite !find_is_first_kept, kept_after_remove.
    destruct (String.eqb pid' pid && modtype_eqb ty' ty) eqn:E;
      [|reflexivity].
    apply same_key_eqb in E. contradiction.
  - rewrite !existsb_is_kept, kept_after_remove.
    destruct (String.eqb pid' pid && modtype_eqb ty' ty) eqn:E;
      [|reflexivity].
    apply same_key_eqb in E. contradiction.
  - rewrite existsb_is_kept, find_is_first_kept.
    destruct (filter (matches pid ty) store) as [|m rest]; cbn.
    + discriminate.
    + intros _. now exists m.
  - rewrite existsb_is_kept, find_is_first_kept.
    destruct (filter (matches pid ty) store) as [|m rest]; cbn.
    + intros [m H]. discriminate.
    + reflexivity.
Qed.

(* the ticks of a store that holds one entry *)
Lemma ticks_of_one (m : PlayerModifier) (k : nat) :
  0 < turnsRemaining m ->
  Nat.iter k tickModifiers [m] =
  if Z.of_nat k <? turnsRemaining m
  then [mkModifier (playerId m) (m_type m)
          (turnsRemaining m - Z.of_nat k) (m_value m)]
  else [].
Proof.
  intros Hpos. induction k as [|k IH].
  - change (Nat.iter 0 tickModifiers [m]) with [m].
    replace (Z.of_nat 0 <? turnsRemaining m) with true
      by (symmetry; apply Z.ltb_lt; lia).
    change (Z.of_nat 0) with 0. now rewrite (same_modifier m).
  - rewrite Nat.iter_succ, IH.
    destruct (Z.of_nat k <? turnsRemaining m) eqn:Hk.
    + apply Z.ltb_lt in Hk.
      unfold tickModifiers, decrement.
      cbn [map filter playerId m_type turnsRemaining m_value].
      destruct (Z.of_nat (S k) <? turnsRemaining m) eqn:Hk'.
      * apply Z.ltb_lt in Hk'.
        replace (turnsRemaining m - Z.of_nat k - 1 >? 0) with true
          by (symmetry; apply Z.gtb_lt; lia).
        do 2 f_equal. lia.
      * apply Z.ltb_ge in Hk'.
        replace (turnsRemaining m - Z.of_nat k - 1 >? 0) with false
          by (symmetry; rewrite Z.gtb_ltb; apply Z.ltb_ge; lia).
        reflexivity.
    + apply Z.ltb_ge in Hk.
      replace (Z.of_nat (S k) <? turnsRemaining m) with false
        by (symmetry; apply Z.ltb_ge; lia).
      reflexivity.
Qed.

Lemma kept_after_ticks (pid : string) (ty : ModifierType) (k : nat)
  (store : list PlayerModifier) :
  filter (matches pid ty) (Nat.iter k tickModifiers store)
  = Nat.iter k tickModifiers (filter (matches pid ty) store).
Proof.
  induction k as [|k IH]; [reflexivity|].
  now rewrite !Nat.iter_succ, kept_after_tick, IH.
Qed.

(** X6: how long a modifier lasts.  A modifier added with turnsRemaining
    n > 0 is found under its key after k calls of tickModifiers exactly
    when k < n, and then with turnsRemaining n - k and the value it was
    added with, whatever else the store holds. *)
Theorem modifier_lifetime (m : PlayerModifier) (store : list PlayerModifier)
  (k : nat) :
  0 < turnsRemaining m ->
  let after := Nat.iter k tickModifiers (addModifier m store) in
  getModifier after (playerId m) (m_type m)
  = (if Z.of_nat k <? turnsRemaining m
     then Some (mkModifier (playerId m) (m_type m)
                  (turnsRemaining m - Z.of_nat k) (m_value m))
     else None)
  /\ hasModifier after (playerId m) (m_type m)
     = (Z.of_nat k <? turnsRemaining m).
Proof.
  intros Hpos after. unfold getModifier, hasModifier, JS.find_first.
  rewrite find_is_first_kept, existsb_is_kept.
  unfold after. rewrite kept_after_ticks, kept_after_add.
  rewrite (proj2 (same_key_eqb _ _ _ _) eq_refl).
  rewrite (ticks_of_one m k Hpos).
  destruct (Z.of_nat k <? turnsRemaining m); split; reflexivity.
Qed.

Lemma modifier_lifetime_witness :
  0 < turnsRemaining (mkModifier (p_id dana) mod_shield 2 None)
  /\ hasModifier
       (Nat.iter 1 tickModifiers
          (addModifier (mkModifier (p_id dana) mod_shield 2 None) []))
       (p_id dana) mod_shield = true
  /\ hasModifier
       (Nat.iter 2 tickModifiers
          (addModifier (mkModifier (p_id dana) mod_shield 2 None) []))
       (p_id dana) mod_shield = false.
Proof.
  split; [cbn; lia|].
  split.
  - exact (proj2 (modifier_lifetime
                    (mkModifier (p_id dana) mod_shield 2 None) [] 1
                    eq_refl)).
  - exact (proj2 (modifier_lifetime
                    (mkModifier (p_id dana) mod_shield 2 None) [] 2
                    eq_refl)).
Defined.

End StoreLookup.
Section TwistCards.

Lemma has_In (usedIds : list string) (id : string) :
  has usedIds id = true <-> In id usedIds.
Proof.
  unfold has. rewrite existsb_exists. split.
  - intros [x [Hx E]]. apply String.eqb_eq in E. now subst.
  - intros H. exists id. split; [assumption|apply String.eqb_refl].
Qed.

Lemma has_not_In (usedIds : list string) (id : string) :
  has usedIds id = false <-> ~ In id usedIds.
Proof.
  rewrite <- has_In. destruct (has usedIds id); split; congruence.
Qed.

Lemma distinct_NoDup (ids : list string) : distinct ids = true -> NoDup ids.
Proof.
  induction ids as [|id ids IH]; cbn; intros H; constructor.
  - apply andb_prop in H. destruct H as [H _].
    apply has_not_In. now destruct (has ids id).
  - apply IH. apply andb_prop in H. tauto.
Qed.

Lemma catalogue_ids_distinct : NoDup (map t_id TWIST_CARDS).
Proof. apply distinct_NoDup. vm_compute. reflexivity. Qed.

Lemma add_fresh (usedIds : list string) (id : string) :
  has usedIds id = false -> add usedIds id = usedIds ++ [id].
Proof. intros H. unfold add. now rewrite H. Qed.

Lemma filter_map_length {A B : Type} (f : A -> B) (keep : B -> bool)
  (l : list A) :
  length (filter (fun x => keep (f x)) l) = length (filter keep (map f l)).
Proof.
  induction l as [|x l IH]; cbn; [reflexivity|].
  destruct (keep (f x)); cbn; now rewrite IH.
Qed.

(* ids that are all different, some of them used: the unused ones are the
   rest *)
Lemma unused_count (ids usedIds : list string) :
  NoDup ids -> NoDup usedIds -> incl usedIds ids ->
  (length (filter (fun i => negb (has usedIds i)) ids) + length usedIds
   = length ids)%nat.
Proof.
  intros Hids Hused Hincl.
  pose proof (filter_partition (has usedIds) ids) as Hpart.
  assert (Hsame : length (filter (has usedIds) ids) = length usedIds).
  { apply Nat.le_antisymm.
    - apply NoDup_incl_length; [now apply NoDup_filter|].
      intros i Hi. apply filter_In in Hi. now apply has_In.
    - apply NoDup_incl_length; [assumption|].
      intros i Hi. apply filter_In. split; [now apply Hincl|].
      now apply has_In. }
  lia.
Qed.

Lemma cardsOf_some (cards : list TwistCard) : cardsOf (map Some cards) = cards.
Proof. induction cards as [|c cards IH]; cbn; congruence. Qed.

Lemma shuffled_deck_nonempty (shuffle : nat -> nat) :
  exists first, nth_error (getShuffledTwists shuffle) 0 = Some first
                /\ In first TWIST_CARDS.
Proof.
  pose proof (getShuffledTwists_permutation shuffle) as Hperm.
  destruct (getShuffledTwists shuffle) as [|first rest] eqn:E.
  - apply Permutation_length in Hperm. discriminate.
  - exists first. split; [reflexivity|].
    eapply Permutation_in; [exact Hperm|now left].
Qed.

(* what a draw returns and does to the deck *)
Lemma drawTwist_gives (d : Deck) (shuffle : nat -> nat) (r : nat) :
  exists twist,
    fst (drawTwist d shuffle r) = Some twist
    /\ ((In twist (twistDeck d)
         /\ has (usedTwistIds d) (t_id twist) = false
         /\ snd (drawTwist d shuffle r) = d)
        \/ ((forall t, In t (twistDeck d) ->
                       has (usedTwistIds d) (t_id t) = true)
            /\ In twist TWIST_CARDS
            /\ usedTwistIds (snd (drawTwist d shuffle r)) = []
            /\ Permutation (twistDeck (snd (drawTwist d shuffle r)))
                 TWIST_CARDS
            /\ nth_error (twistDeck (snd (drawTwist d shuffle r))) 0
               = Some twist)).
Proof.
  unfold drawTwist.
  set (availableTwists :=
         filter (fun t => negb (has (usedTwistIds d) (t_id t)))
                (twistDeck d)).
  destruct (length availableTwists =? 0)%nat eqn:Hlen.
  - apply Nat.eqb_eq, length_zero_iff_nil in Hlen.
    destruct (shuffled_deck_nonempty shuffle) as [first [Hfirst Hin]].
    exists first. cbn [fst snd twistDeck usedTwistIds].
    split; [exact Hfirst|]. right.
    split.
    { intros t Ht. destruct (has (usedTwistIds d) (t_id t)) eqn:E;
        [reflexivity|].
      assert (Hav : In t availableTwists).
      { apply filter_In. split; [assumption|]. now rewrite E. }
      rewrite Hlen in Hav. destruct Hav. }
    repeat split; auto. apply getShuffledTwists_permutation.
  - assert (Hne : availableTwists <> []).
    { intros E. rewrite E in Hlen. discriminate. }
    destruct (pick_nonempty r availableTwists Hne) as [twist [Hpick Hin]].
    exists twist. cbn [fst snd]. split; [exact Hpick|]. left.
    apply filter_In in Hin. destruct Hin as [Hin Hunused].
    repeat split; auto. now destruct (has (usedTwistIds d) (t_id twist)).
Qed.

(** X7: drawTwist never returns null.  Either some card of the deck is
    unused, and the call returns such a card and leaves the deck and the
    used set alone; or every card is used, and the call clears the used
    set, replaces the deck by a new shuffle of the 30 catalogue cards and
    returns the first card of it.  So the branch of handleWheelComplete
    for a draw that gives no card is never taken. *)
Theorem drawTwist_never_null (d : Deck) (shuffle : nat -> nat) (r : nat) :
  exists twist,
    fst (drawTwist d shuffle r) = Some twist
    /\ ((In twist (twistDeck d)
         /\ has (usedTwistIds d) (t_id twist) = false
         /\ snd (drawTwist d shuffle r) = d)
        \/ ((forall t, In t (twistDeck d) ->
                       has (usedTwistIds d) (t_id t) = true)
            /\ In twist TWIST_CARDS
            /\ usedTwistIds (snd (drawTwist d shuffle r)) = []
            /\ Permutation (twistDeck (snd (drawTwist d shuffle r)))
                 TWIST_CARDS
            /\ nth_error (twistDeck (snd (drawTwist d shuffle r))) 0
               = Some twist)).
Proof. apply drawTwist_gives. Qed.

(* a run that stays within the unused cards of the deck *)
Lemma drawRun_within (draws : list Draw) :
  forall d : Deck,
    NoDup (map t_id (twistDeck d)) ->
    NoDup (usedTwistIds d) ->
    incl (usedTwistIds d) (map t_id (twistDeck d)) ->
    (length draws + length (usedTwistIds d) <= length (twistDeck d))%nat ->
    exists cards final,
      drawRun d draws = (map Some cards, final)
      /\ twistDeck final = twistDeck d
      /\ usedTwistIds final = usedTwistIds d ++ map t_id cards
      /\ length cards = length draws
      /\ NoDup (usedTwistIds final)
      /\ incl cards (twistDeck d).
Proof.
  induction draws as [|dr draws IH]; intros d Hdeck Hused Hincl Hroom.
  - exists [], d. cbn. rewrite app_nil_r.
    repeat split; auto. intros c [].
  - cbn [drawRun]. unfold drawAndMark, drawTwist.
    set (availableTwists :=
           filter (fun t => negb (has (usedTwistIds d) (t_id t)))
                  (twistDeck d)).
    assert (Hcount : (length availableTwists + length (usedTwistIds d)
                      = length (twistDeck d))%nat).
    { unfold availableTwists.
      rewrite (filter_map_length t_id
                 (fun i => negb (has (usedTwistIds d) i))).
      rewrite unused_count by assumption. apply length_map. }
    cbn [length] in Hroom.
    destruct (length availableTwists =? 0)%nat eqn:Hlen;
      [apply Nat.eqb_eq in Hlen; lia|].
    assert (Hne : availableTwists <> []).
    { intros E. rewrite E in Hlen. discriminate. }
    destruct (pick_nonempty (dr_random dr) availableTwists Hne)
      as [twist [Hpick Hin]].
    rewrite Hpick.
    apply filter_In in Hin. destruct Hin as [Hin Hunused].
    assert (Hfresh : has (usedTwistIds d) (t_id twist) = false)
      by now destruct (has (usedTwistIds d) (t_id twist)).
    destruct (IH (markTwistUsed (t_id twist) d))
      as (cards & final & Hrun & Hd & Hu & Hl & Hn & Hc).
    + exact Hdeck.
    + cbn [markTwistUsed usedTwistIds]. rewrite add_fresh by assumption.
      apply NoDup_app; auto.
      * constructor; [intros []|constructor].
      * intros i Hi [<-|[]]. apply has_not_In in Hfresh. contradiction.
    + cbn [markTwistUsed usedTwistIds twistDeck].
      rewrite add_fresh by assumption.
      intros i Hi. apply in_app_or in Hi. destruct Hi as [Hi|[<-|[]]].
      * now apply Hincl.
      * now apply in_map.
    + cbn [markTwistUsed usedTwistIds twistDeck].
      rewrite add_fresh by assumption. rewrite length_app. cbn. lia.
    + rewrite Hrun. exists (twist :: cards), final.
      cbn [markTwistUsed usedTwistIds twistDeck] in *.
      rewrite add_fresh in Hu by assumption.
      repeat split; auto.
      * rewrite Hu, <- app_assoc. reflexivity.
      * cbn. now rewrite Hl.
      * intros c [<-|Hc']; [assumption|now apply Hc].
Qed.

Lemma NoDup_app_r {A : Type} (l1 l2 : list A) : NoDup (l1 ++ l2) -> NoDup l2.
Proof.
  induction l1 as [|x l1 IH]; cbn; intros H; [assumption|].
  inversion H. auto.
Qed.

(** X8: one pass through the deck.  From the deck useTwists starts with,
    the first n <= 30 draws (drawTwist followed by markTwistUsed, as
    handleWheelComplete does) each return a card, the n cards have
    different ids and belong to the catalogue, the deck is not reshuffled
    meanwhile, the used set is exactly the ids drawn and remainingTwists
    is 30 - n; after 30 draws every catalogue card has come out once. *)
Theorem deck_pass (shuffle : nat -> nat) (draws : list Draw) :
  (length draws <= 30)%nat ->
  let run := drawRun (freshDeck shuffle) draws in
  let cards := cardsOf (fst run) in
  fst run = map Some cards
  /\ length cards = length draws
  /\ NoDup (map t_id cards)
  /\ incl cards TWIST_CARDS
  /\ twistDeck (snd run) = twistDeck (freshDeck shuffle)
  /\ usedTwistIds (snd run) = map t_id cards
  /\ remainingTwists (snd run) = 30 - Z.of_nat (length draws)
  /\ (length draws = 30%nat -> Permutation cards TWIST_CARDS).
Proof.
  intros Hn run cards.
  pose proof (getShuffledTwists_permutation shuffle) as Hperm.
  assert (Hlen : length (getShuffledTwists shuffle) = 30%nat)
    by (now rewrite (Permutation_length Hperm)).
  assert (Hids : NoDup (map t_id (twistDeck (freshDeck shuffle)))).
  { cbn. eapply Permutation_NoDup; [|apply catalogue_ids_distinct].
    apply Permutation_sym, Permutation_map, Hperm. }
  destruct (drawRun_within draws (freshDeck shuffle))
    as (found & final & Hrun & Hd & Hu & Hl & Hnd & Hc).
  - exact Hids.
  - constructor.
  - intros i [].
  - cbn [freshDeck usedTwistIds twistDeck length]. rewrite Hlen. lia.
  - assert (Hcards : cards = found).
    { unfold cards, run. rewrite Hrun. apply cardsOf_some. }
    unfold run in *. rewrite Hrun in *. cbn [fst snd] in *.
    cbn [freshDeck usedTwistIds twistDeck app] in *.
    rewrite Hcards.
    assert (Hin : incl found TWIST_CARDS).
    { intros c Hc'. eapply Permutation_in; [exact Hperm|now apply Hc]. }
    rewrite Hu in Hnd.
    repeat split; auto.
    + unfold remainingTwists. rewrite Hd, Hu, length_map, Hl, Hlen. lia.
    + intros Hall.
      apply NoDup_Permutation_bis.
      * now apply NoDup_map_inv in Hnd.
      * cbn. lia.
      * exact Hin.
Qed.

Lemma deck_pass_witness :
  (length [mkDraw zeros 0; mkDraw zeros 7] <= 30)%nat
  /\ NoDup (map t_id
              (cardsOf (fst (drawRun (freshDeck zeros)
                               [mkDraw zeros 0; mkDraw zeros 7]))))
  /\ remainingTwists
       (snd (drawRun (freshDeck zeros) [mkDraw zeros 0; mkDraw zeros 7]))
     = 28.
Proof.
  assert (Hn : (length [mkDraw zeros 0; mkDraw zeros 7] <= 30)%nat)
    by (cbn; lia).
  split; [exact Hn|].
  pose proof (deck_pass zeros [mkDraw zeros 0; mkDraw zeros 7] Hn) as H.
  cbv zeta in H.
  split; [exact (proj1 (proj2 (proj2 H)))|].
  exact (proj1 (proj2 (proj2 (proj2 (proj2 (proj2 (proj2 H))))))).
Defined.

End TwistCards.
Section QuestionRuns.

(* what one call returns and does to the used set *)
Lemma select_step (questions : list TriviaQuestion) (usedIds : list string)
  (d : Z) (forced : option KnowledgeCategory) (r : nat) :
  match selectQuestionByDifficulty questions usedIds d forced r with
  | (Some q, used) =>
      In q questions /\ has usedIds (q_id q) = false
      /\ used = usedIds ++ [q_id q]
  | (None, used) =>
      used = usedIds
      /\ forall q, In q questions -> has usedIds (q_id q) = true
  end.
Proof.
  rewrite select_is_cascade.
  destruct (Cascade.firstNonEmpty (Cascade.pools questions usedIds d forced))
    as [pool|] eqn:Hpool.
  - apply firstNonEmpty_some in Hpool. destruct Hpool as [Hin Hne].
    unfold take.
    destruct (pick_nonempty r pool Hne) as [selected [Hpick Hsel]].
    rewrite Hpick.
    destruct (pools_unused questions usedIds forced d pool selected Hin Hsel)
      as [Hq Hunused].
    repeat split; auto. now apply add_fresh.
  - split; [reflexivity|].
    intros q Hq. destruct (has usedIds (q_id q)) eqn:E; [reflexivity|].
    destruct (pools_cover questions usedIds forced d q Hq E)
      as [pool [Hin Hqp]].
    rewrite (firstNonEmpty_none _ Hpool pool Hin) in Hqp. destruct Hqp.
Qed.

Lemma tidy_count (questions : list TriviaQuestion) (usedIds : list string) :
  NoDup (map q_id questions) -> tidy questions usedIds ->
  (length (filter (fun q => negb (has usedIds (q_id q))) questions)
   + length usedIds = length questions)%nat.
Proof.
  intros Hids [Hused Hincl].
  rewrite (filter_map_length q_id (fun i => negb (has usedIds i))).
  rewrite unused_count by assumption. apply length_map.
Qed.

Lemma tidy_after (questions : list TriviaQuestion) (usedIds : list string)
  (q : TriviaQuestion) :
  tidy questions usedIds -> In q questions ->
  has usedIds (q_id q) = false ->
  tidy questions (usedIds ++ [q_id q]).
Proof.
  intros [Hused Hincl] Hq Hfresh. split.
  - apply NoDup_app; auto.
    + constructor; [intros []|constructor].
    + intros i Hi [<-|[]]. apply has_not_In in Hfresh. contradiction.
  - intros i Hi. apply in_app_or in Hi. destruct Hi as [Hi|[<-|[]]].
    + now apply Hincl.
    + now apply in_map.
Qed.

(** X9: remainingQuestions and hasMoreQuestions tell the truth about
    selectQuestionByDifficulty.  With questions whose ids are all
    different and a used set that holds ids of those questions, each once
    (as the hook keeps it), a selection returns null exactly when
    hasMoreQuestions is false, whatever difficulty and category are asked
    for; a selection that returns a question lowers remainingQuestions by
    one, and the used set stays as described. *)
Theorem questions_left (questions : list TriviaQuestion)
  (usedIds : list string) (d : Z) (forced : option KnowledgeCategory)
  (r : nat) :
  NoDup (map q_id questions) -> tidy questions usedIds ->
  let result := selectQuestionByDifficulty questions usedIds d forced r in
  (fst result = None <-> hasMoreQuestions questions usedIds = false)
  /\ 0 <= remainingQuestions questions usedIds
  /\ tidy questions (snd result)
  /\ (forall q, fst result = Some q ->
        remainingQuestions questions (snd result)
        = remainingQuestions questions usedIds - 1).
Proof.
  intros Hids Htidy result.
  pose proof (tidy_count questions usedIds Hids Htidy) as Hcount.
  pose proof (select_step questions usedIds d forced r) as Hstep.
  fold result in Hstep.
  unfold hasMoreQuestions, remainingQuestions.
  destruct result as [[q|] used]; cbn [fst snd].
  - destruct Hstep as (Hq & Hfresh & ->).
    assert (Hsome : In q (filter (fun q => negb (has usedIds (q_id q)))
                            questions)).
    { apply filter_In. split; [assumption|now rewrite Hfresh]. }
    assert (Hpos : (0 < length (filter
                                  (fun q => negb (has usedIds (q_id q)))
                                  questions))%nat).
    { destruct (filter (fun q => negb (has usedIds (q_id q))) questions);
        [destruct Hsome|cbn; lia]. }
    repeat split.
    + discriminate.
    + intros H. rewrite Z.gtb_ltb in H. apply Z.ltb_ge in H. lia.
    + lia.
    + apply (tidy_after questions usedIds q Htidy Hq Hfresh).
    + apply (tidy_after questions usedIds q Htidy Hq Hfresh).
    + intros q' _. rewrite length_app. cbn. lia.
  - destruct Hstep as [-> Hall].
    assert (Hnone : filter (fun q => negb (has usedIds (q_id q))) questions
                    = []).
    { apply filter_none. intros q Hq. now rewrite (Hall q Hq). }
    rewrite Hnone in Hcount. cbn in Hcount.
    repeat split.
    + intros _. rewrite Z.gtb_ltb. apply Z.ltb_ge. lia.
    + lia.
    + apply Htidy.
    + apply Htidy.
    + discriminate.
Qed.

Lemma questions_left_witness :
  (NoDup (map q_id threeQuestions) /\ tidy threeQuestions secondAsked)
  /\ hasMoreQuestions threeQuestions secondAsked = true
  /\ fst (selectQuestionByDifficulty threeQuestions secondAsked 3 None 0)
     <> None.
Proof.
  assert (Hids : NoDup (map q_id threeQuestions))
    by (apply distinct_NoDup; reflexivity).
  assert (Htidy : tidy threeQuestions secondAsked).
  { split.
    - apply distinct_NoDup. reflexivity.
    - intros i [<-|[]]. cbn. tauto. }
  split; [split; assumption|].
  split; [reflexivity|].
  intros Hnone.
  pose proof (proj1 (proj1 (questions_left threeQuestions secondAsked
                              3 None 0 Hids Htidy)) Hnone) as H.
  discriminate H.
Defined.

Lemma served_some (qs : list TriviaQuestion) : served (map Some qs) = qs.
Proof. induction qs as [|q qs IH]; cbn; congruence. Qed.

(* what a run of calls serves *)
Lemma selectRun_served (questions : list TriviaQuestion)
  (requests : list Request) :
  forall usedIds : list string,
    let run := selectRun questions usedIds requests in
    let asked := served (fst run) in
    (forall q, In q asked ->
               In q questions /\ has usedIds (q_id q) = false)
    /\ NoDup (map q_id asked)
    /\ snd run = usedIds ++ map q_id asked
    /\ length (fst run) = length requests.
Proof.
  induction requests as [|rq requests IH]; intros usedIds; cbn zeta.
  - cbn. rewrite app_nil_r. split; [intros q []|].
    repeat split; constructor.
  - cbn [selectRun].
    pose proof (select_step questions usedIds (rq_difficulty rq)
                  (rq_forced rq) (rq_random rq)) as Hstep.
    destruct (selectQuestionByDifficulty questions usedIds
                (rq_difficulty rq) (rq_forced rq) (rq_random rq))
      as [[q|] used].
    + destruct Hstep as (Hq & Hfresh & ->).
      specialize (IH (usedIds ++ [q_id q])). cbn zeta in IH.
      destruct (selectRun questions (usedIds ++ [q_id q]) requests)
        as [more final].
      cbn [fst snd served map] in *.
      destruct IH as (Hin & Hnd & Hfinal & Hlen).
      assert (Hlater : forall q', In q' (served more) ->
                                  has usedIds (q_id q') = false
                                  /\ q_id q' <> q_id q).
      { intros q' Hq'. destruct (Hin q' Hq') as [_ Hu].
        apply has_not_In in Hu. split.
        - apply has_not_In. intros H. apply Hu, in_or_app. now left.
        - intros E. apply Hu, in_or_app. right. left. now symmetry. }
      repeat split.
      * destruct H as [<-|H]; [assumption|now apply Hin].
      * destruct H as [<-|H]; [assumption|now apply Hlater].
      * constructor; [|assumption].
        intros H. apply in_map_iff in H. destruct H as [q' [E Hq']].
        now apply (proj2 (Hlater q' Hq')).
      * rewrite Hfinal, <- app_assoc. reflexivity.
      * cbn. now rewrite Hlen.
    + destruct Hstep as [-> Hall].
      specialize (IH usedIds). cbn zeta in IH.
      destruct (selectRun questions usedIds requests) as [more final].
      cbn [fst snd served map] in *.
      destruct IH as (Hin & Hnd & Hfinal & Hlen).
      repeat split; auto; try (now apply Hin).
      cbn. now rewrite Hlen.
Qed.

(** X10: no question is served twice.  Over any run of calls of
    selectQuestionByDifficulty on the same used set, whatever the
    difficulties, forced categories and random draws, the questions
    returned are questions of the list whose ids were not in the used set
    at the start, their ids are pairwise different, and the used set at
    the end is the one at the start followed by those ids in the order
    served. *)
Theorem no_question_twice (questions : list TriviaQuestion)
  (requests : list Request) (usedIds : list string) :
  let run := selectRun questions usedIds requests in
  let asked := served (fst run) in
  (forall q, In q asked ->
             In q questions /\ has usedIds (q_id q) = false)
  /\ NoDup (map q_id asked)
  /\ snd run = usedIds ++ map q_id asked
  /\ length (fst run) = length requests.
Proof. apply selectRun_served. Qed.

(* a run that stays within the unused questions *)
Lemma selectRun_within (questions : list TriviaQuestion)
  (requests : list Request) :
  NoDup (map q_id questions) ->
  forall usedIds : list string,
    tidy questions usedIds ->
    (length requests + length usedIds <= length questions)%nat ->
    exists asked,
      fst (selectRun questions usedIds requests) = map Some asked.
Proof.
  intros Hids.
  induction requests as [|rq requests IH]; intros usedIds Htidy Hroom.
  - now exists [].
  - cbn [selectRun].
    pose proof (select_step questions usedIds (rq_difficulty rq)
                  (rq_forced rq) (rq_random rq)) as Hstep.
    pose proof (tidy_count questions usedIds Hids Htidy) as Hcount.
    cbn [length] in Hroom.
    destruct (selectQuestionByDifficulty questions usedIds
                (rq_difficulty rq) (rq_forced rq) (rq_random rq))
      as [[q|] used].
    + destruct Hstep as (Hq & Hfresh & ->).
      destruct (IH (usedIds ++ [q_id q])) as [asked Hasked].
      * now apply tidy_after.
      * rewrite length_app. cbn. lia.
      * destruct (selectRun questions (usedIds ++ [q_id q]) requests)
          as [more final].
        cbn [fst] in *. exists (q :: asked). cbn. now rewrite Hasked.
    + destruct Hstep as [_ Hall].
      assert (Hnone : filter (fun q => negb (has usedIds (q_id q)))
                        questions = []).
      { apply filter_none. intros q Hq. now rewrite (Hall q Hq). }
      rewrite Hnone in Hcount. cbn in Hcount. lia.
Qed.

(** X11: the supply of questions.  With n questions whose ids are all
    different and an empty used set (as generateQuestions leaves it), the
    first n selections each return a question, whatever difficulty and
    category they ask for; after n selections every question has been
    served exactly once, and every further selection returns null. *)
Theorem questions_served_until_exhausted (questions : list TriviaQuestion)
  (requests : list Request) :
  NoDup (map q_id questions) ->
  (length requests <= length questions)%nat ->
  let run := selectRun questions [] requests in
  let asked := served (fst run) in
  fst run = map Some asked
  /\ length asked = length requests
  /\ remainingQuestions questions (snd run)
     = Z.of_nat (length questions) - Z.of_nat (length requests)
  /\ (length requests = length questions ->
      Permutation asked questions
      /\ forall d forced r,
           fst (selectQuestionByDifficulty questions (snd run) d forced r)
           = None).
Proof.
  intros Hids Hn run asked.
  destruct (selectRun_within questions requests Hids [])
    as [found Hfound].
  { split; [constructor|intros i []]. }
  { cbn. lia. }
  pose proof (selectRun_served questions requests []) as Hrun.
  fold run in Hfound, Hrun.
  assert (Hasked : asked = found).
  { unfold asked. rewrite Hfound. apply served_some. }
  destruct Hrun as (Hin & Hnd & Hfinal & Hlen).
  fold asked in Hin, Hnd, Hfinal.
  cbn [app] in Hfinal.
  assert (Hl : length asked = length requests).
  { rewrite <- Hlen, Hfound, length_map. now rewrite Hasked. }
  split; [now rewrite Hasked|].
  split; [exact Hl|].
  split.
  { unfold remainingQuestions. rewrite Hfinal, length_map, Hl.
    reflexivity. }
  intros Hall.
  assert (Hperm : Permutation asked questions).
  { apply NoDup_Permutation_bis.
    - now apply NoDup_map_inv in Hnd.
    - lia.
    - intros q Hq. now apply Hin. }
  split; [exact Hperm|].
  intros d forced r.
  pose proof (select_step questions (snd run) d forced r) as Hstep.
  destruct (selectQuestionByDifficulty questions (snd run) d forced r)
    as [[q|] used]; [|reflexivity].
  destruct Hstep as (Hq & Hfresh & _).
  apply has_not_In in Hfresh. exfalso. apply Hfresh.
  rewrite Hfinal. apply in_map.
  eapply Permutation_in; [apply Permutation_sym, Hperm|exact Hq].
Qed.

Lemma questions_served_until_exhausted_witness :
  (NoDup (map q_id threeQuestions)
   /\ (length [mkRequest 5 None 0; mkRequest 5 (Some sport) 1;
               mkRequest 5 None 2] <= length threeQuestions)%nat)
  /\ length (served (fst (selectRun threeQuestions []
                            [mkRequest 5 None 0; mkRequest 5 (Some sport) 1;
                             mkRequest 5 None 2]))) = 3%nat.
Proof.
  assert (Hids : NoDup (map q_id threeQuestions))
    by (apply distinct_NoDup; reflexivity).
  assert (Hn : (length [mkRequest 5 None 0; mkRequest 5 (Some sport) 1;
                        mkRequest 5 None 2] <= length threeQuestions)%nat)
    by (cbn; lia).
  split; [split; assumption|].
  exact (proj1 (proj2 (questions_served_until_exhausted threeQuestions
                         [mkRequest 5 None 0; mkRequest 5 (Some sport) 1;
                          mkRequest 5 None 2] Hids Hn))).
Defined.

End QuestionRuns.
Section OnTheBoard.

Lemma isGate_mod (y : Z) : 0 <= y -> isGate (y mod 25) = (y mod 5 =? 0).
Proof.
  intros Hy.
  destruct (isGate (y mod 25)) eqn:Hg; symmetry.
  - apply isGate_iff in Hg. cbn in Hg. apply Z.eqb_eq.
    Z.div_mod_to_equations. lia.
  - apply Z.eqb_neq. intros E.
    assert (Hin : In (y mod 25) [0; 5; 10; 15; 20]).
    { cbn. Z.div_mod_to_equations. lia. }
    apply isGate_iff in Hin. congruence.
Qed.

Lemma gates_counted (p : Z) (n : nat) :
  0 <= p ->
  Z.of_nat (length (filter isGate
                      (map (fun i => (p + Z.of_nat i) mod 25) (seq 1 n))))
  = (p + Z.of_nat n) / 5 - p / 5.
Proof.
  intros Hp. induction n as [|n IH].
  - cbn. rewrite Z.add_0_r. lia.
  - rewrite seq_S, map_app, filter_app, length_app, Nat2Z.inj_add, IH.
    cbn [map filter Nat.add].
    rewrite isGate_mod by lia.
    destruct ((p + Z.of_nat (S n)) mod 5 =? 0) eqn:E; cbn [length].
    + apply Z.eqb_eq in E. Z.div_mod_to_equations. lia.
    + apply Z.eqb_neq in E. Z.div_mod_to_equations. lia.
Qed.

(** X12: how many gates a move passes.  A move of s >= 0 steps from
    position p >= 0 passes exactly floor((p + s) / 5) - floor(p / 5) gates:
    none when s = 0, at most one when s < 5, at least one when s >= 5,
    exactly one for the 5 steps of a bonus question, and none for fewer
    than 5 steps from a gate. *)
Theorem gates_passed_count (p s : Z) :
  0 <= p -> 0 <= s ->
  let count := Z.of_nat (length (getGatesPassed p s)) in
  count = (p + s) / 5 - p / 5
  /\ (s = 0 -> count = 0)
  /\ (s < 5 -> count <= 1)
  /\ (5 <= s -> 1 <= count)
  /\ (s = 5 -> count = 1)
  /\ (isGate (p mod 25) = true -> s < 5 -> count = 0).
Proof.
  intros Hp Hs count.
  assert (Hcount : count = (p + s) / 5 - p / 5).
  { unfold count. rewrite getGatesPassed_filter by assumption.
    unfold traversed. rewrite gates_counted by assumption.
    now rewrite Z2Nat.id. }
  split; [exact Hcount|].
  rewrite Hcount.
  repeat split; intros; try (Z.div_mod_to_equations; lia).
  rewrite isGate_mod in H by assumption. apply Z.eqb_eq in H.
  Z.div_mod_to_equations. lia.
Qed.

Lemma gates_passed_count_witness :
  (0 <= 23 /\ 0 <= 7)
  /\ Z.of_nat (length (getGatesPassed 23 7)) = (23 + 7) / 5 - 23 / 5.
Proof.
  split; [lia|].
  exact (proj1 (gates_passed_count 23 7 ltac:(lia) ltac:(lia))).
Defined.

(* ---- nobody leaves the board ---- *)

Lemma findPreviousGate_on_board (pos : Z) :
  0 <= findPreviousGate pos < 25 /\ isGate (findPreviousGate pos) = true.
Proof.
  unfold findPreviousGate, BOARD_GATE_POSITIONS, JS.max_of.
  cbn [filter].
  destruct (0 <? pos), (5 <? pos), (10 <? pos), (15 <? pos), (20 <? pos);
    cbn; split; (lia || reflexivity).
Qed.

Lemma rem_on_board (a : Z) : 0 <= a -> 0 <= JS.rem a 25 < 25.
Proof. intros Ha. unfold JS.rem. apply Z.rem_bound_pos; lia. Qed.

Ltac open_matches :=
  repeat match goal with
         | |- context [match ?x with _ => _ end] => destruct x eqn:?
         end.

Lemma twist_on_board (twist : TwistCard) (current : Player)
  (players : list Player) (stars : list StarState) (r : nat)
  (players' : list Player) :
  tame twist = true -> onBoard players ->
  0 <= boardPosition current < 25 ->
  r_players (executeImmediateTwist twist current players stars r)
  = Some players' ->
  onBoard players'.
Proof.
  intros Htame Hon Hcur.
  unfold executeImmediateTwist, moved, mapPlayer, JS.truthy, tame in *.
  pose proof (Nat.mod_upper_bound r 25 ltac:(lia)) as Hr.
  set (randomPos := Nat.modulo r 25) in *. clearbody randomPos.
  destruct (requiresChoice twist); [discriminate|].
  destruct (effectType twist) eqn:Heffect;
    try destruct (effectValue twist) as [n|] eqn:Hvalue;
    try destruct (n =? 0) eqn:Hzero;
    try destruct (JS.find_first _ stars);
    cbn; try discriminate;
    intros E; injection E as <-;
    intros p' Hp'; apply in_map_iff in Hp'; destruct Hp' as [p [<- Hp]];
    specialize (Hon p Hp);
    try destruct (String.eqb (p_id p) (p_id current));
    cbn [boardPosition withPosition withScore]; try exact Hon;
    try apply findPreviousGate_on_board;
    try lia.
  all: apply rem_on_board; cbn in Htame;
    try apply Z.leb_le in Htame; unfold TwistHandlers.TOTAL_STEPS; lia.
Qed.

Lemma catalogue_tame (twist : TwistCard) :
  In twist TWIST_CARDS -> tame twist = true.
Proof.
  intros Hin.
  assert (Hall : forallb tame TWIST_CARDS = true) by reflexivity.
  rewrite forallb_forall in Hall. now apply Hall.
Qed.

Lemma map_on_board (g : Player -> Player) (players : list Player) :
  (forall p, In p players -> 0 <= boardPosition (g p) < 25) ->
  onBoard (map g players).
Proof.
  intros H p' Hp'. apply in_map_iff in Hp'.
  destruct Hp' as [p [<- Hp]]. now apply H.
Qed.

Lemma apply_on_board (e : Event) (b : Board) :
  enabled e b = true -> onBoard (fst b) -> onBoard (fst (apply e b)).
Proof.
  destruct b as [players stars]. cbn [fst].
  intros Hen Hon.
  destruct e; cbn [apply enabled] in *.
  - (* a move *)
    destruct (nth_error players who) as [player|] eqn:Hwho;
      [|exact Hon].
    cbn [fst]. apply andb_prop in Hen. destruct Hen as [_ Hsteps].
    apply Z.leb_le in Hsteps.
    pose proof (Hon player (nth_error_In _ _ Hwho)) as Hp.
    unfold placePlayer, mapPlayer. apply map_on_board. intros p Hin.
    destruct (String.eqb (p_id p) (p_id player)); cbn; [|now apply Hon].
    unfold newPosition. apply rem_on_board. lia.
  - (* a star revealed *)
    destruct (nth_error players who) as [selecting|]; [|exact Hon].
    destruct (nth_error stars which) as [revealing|]; [|exact Hon].
    cbn [fst]. unfold awardPlayers, mapPlayer. apply map_on_board.
    intros p Hin. destruct (String.eqb (p_id p) (p_id selecting)); cbn;
      now apply Hon.
  - (* a twist confirmed *)
    destruct (nth_error TWIST_CARDS cardIndex) as [twist|] eqn:Hcard;
      [|exact Hon].
    destruct (nth_error players turn) as [current|] eqn:Hturn;
      [|exact Hon].
    cbn [fst]. unfold orKeep.
    destruct (r_players (executeImmediateTwist twist current players stars r))
      as [players'|] eqn:Hres; [|exact Hon].
    apply (twist_on_board twist current players stars r players'); auto.
    + apply catalogue_tame. eapply nth_error_In, Hcard.
    + apply Hon. eapply nth_error_In, Hturn.
  - (* a player chosen *)
    destruct (nth_error TWIST_CARDS cardIndex) as [twist|]; [|exact Hon].
    destruct (nth_error players turn) as [current|] eqn:Hturn;
      [|exact Hon].
    destruct (nth_error players target) as [targetPlayer|] eqn:Htarget;
      [|exact Hon].
    pose proof (Hon current (nth_error_In _ _ Hturn)) as Hc.
    pose proof (Hon targetPlayer (nth_error_In _ _ Htarget)) as Ht.
    destruct (effectType twist); try exact Hon.
    + destruct (JS.pick r (filter (ownedBy (p_id targetPlayer)) stars));
        [|exact Hon].
      cbn [fst]. unfold stealPlayers. apply map_on_board. intros p Hin.
      destruct (String.eqb (p_id p) (p_id targetPlayer)); cbn;
        [now apply Hon|].
      destruct (String.eqb (p_id p) (p_id current)); cbn; now apply Hon.
    + cbn [fst]. unfold swapPositions. apply map_on_board. intros p Hin.
      destruct (String.eqb (p_id p) (p_id current)); cbn; [exact Ht|].
      destruct (String.eqb (p_id p) (p_id targetPlayer)); cbn;
        [exact Hc|now apply Hon].
    + destruct (score current <? score targetPlayer); [|exact Hon].
      cbn [fst]. unfold swapScores. apply map_on_board. intros p Hin.
      destruct (String.eqb (p_id p) (p_id current)); cbn;
        [now apply Hon|].
      destruct (String.eqb (p_id p) (p_id targetPlayer)); cbn;
        now apply Hon.
  - (* a gate chosen *)
    destruct (nth_error players turn) as [current|]; [|exact Hon].
    cbn [fst]. apply andb_prop in Hen. destruct Hen as [_ Hgate].
    apply isGate_iff in Hgate. cbn in Hgate.
    unfold placePlayer, mapPlayer. apply map_on_board. intros p Hin.
    destruct (String.eqb (p_id p) (p_id current)); cbn;
      [lia|now apply Hon].
  - (* a free star *)
    destruct (nth_error players turn) as [current|]; [|exact Hon].
    destruct (nth_error stars which) as [star|]; [|exact Hon].
    cbn [fst]. unfold awardPlayers, mapPlayer. apply map_on_board.
    intros p Hin. destruct (String.eqb (p_id p) (p_id current)); cbn;
      now apply Hon.
Qed.

Lemma start_on_board (settings : GameSettings) :
  onBoard (createPlayersFromSettings settings).
Proof.
  intros p Hp. destruct (In_nth_error _ _ Hp) as [k Hk].
  unfold createPlayersFromSettings in Hk.
  assert (Hpos : exists i : nat, boardPosition p = cyclic 0 GATE_POSITIONS i).
  { destruct (Nat.ltb k (length (humanPlayerNames settings))) eqn:Hlt.
    - apply Nat.ltb_lt in Hlt.
      rewrite nth_error_app1 in Hk by now rewrite humansFrom_length.
      apply humansFrom_nth in Hk. destruct Hk as [name [_ ->]].
      now eexists.
    - apply Nat.ltb_ge in Hlt.
      rewrite nth_error_app2 in Hk by now rewrite humansFrom_length.
      apply nth_error_In, in_map_iff in Hk.
      destruct Hk as [i [<- _]]. now eexists. }
  destruct Hpos as [i ->]. rewrite gate_of_index.
  Z.div_mod_to_equations. lia.
Qed.

(** X13: nobody leaves the board.  At every board a session can reach,
    every player's boardPosition is one of the 25 steps 0..24: moves wrap
    around with % 25, every twist of the catalogue puts players on steps
    of the board, swap_positions exchanges two such steps, and a chosen
    gate is one of GATE_POSITIONS. *)
Theorem players_stay_on_board (b : Board) :
  reachable b -> forall p, In p (fst b) -> 0 <= boardPosition p < 25.
Proof.
  induction 1 as [settings values Hperm | b e _ IH Henabled].
  - apply start_on_board.
  - now apply apply_on_board.
Qed.

Lemma players_stay_on_board_witness :
  reachable robbedBoard
  /\ forall p, In p (fst robbedBoard) -> 0 <= boardPosition p < 25.
Proof.
  split; [exact robbedBoard_reachable|].
  exact (players_stay_on_board robbedBoard robbedBoard_reachable).
Defined.

End OnTheBoard.
Section TurnOrder.

Lemma advanceIndex_mod (reversed : bool) (n i : Z) :
  0 < n -> 0 <= i < n ->
  advanceIndex reversed n i
  = if reversed then (i - 1) mod n else (i + 1) mod n.
Proof.
  intros Hn Hi. unfold advanceIndex, JS.rem. destruct reversed.
  - rewrite Z.rem_mod_nonneg by lia.
    replace (i - 1 + n) with (i - 1 + 1 * n) by lia.
    apply Z_mod_plus_full.
  - apply Z.rem_mod_nonneg; lia.
Qed.

Lemma advanceIndex_seated (reversed : bool) (n i : Z) :
  0 < n -> 0 <= i < n -> 0 <= advanceIndex reversed n i < n.
Proof.
  intros Hn Hi. rewrite advanceIndex_mod by assumption.
  destruct reversed; apply Z.mod_pos_bound; assumption.
Qed.

Lemma iter_advance (reversed : bool) (n i : Z) (k : nat) :
  0 < n -> 0 <= i < n ->
  Nat.iter k (advanceIndex reversed n) i
  = if reversed then (i - Z.of_nat k) mod n else (i + Z.of_nat k) mod n.
Proof.
  intros Hn Hi. induction k as [|k IH].
  - change (Nat.iter 0 (advanceIndex reversed n) i) with i.
    change (Z.of_nat 0) with 0. rewrite Z.sub_0_r, Z.add_0_r.
    destruct reversed; symmetry; now apply Z.mod_small.
  - rewrite Nat.iter_succ, IH.
    rewrite advanceIndex_mod;
      [|assumption|destruct reversed; now apply Z.mod_pos_bound].
    destruct reversed.
    + rewrite Zminus_mod_idemp_l. f_equal. lia.
    + rewrite Zplus_mod_idemp_l. f_equal. lia.
Qed.

Lemma at_index_seated {A : Type} (l : list A) (i : Z) :
  0 <= i < Z.of_nat (length l) -> exists x, at_index l i = Some x.
Proof.
  intros Hi. unfold at_index.
  replace (i <? 0) with false by (symmetry; apply Z.ltb_ge; lia).
  destruct (nth_error l (Z.to_nat i)) as [x|] eqn:E; [now exists x|].
  apply nth_error_None in E. lia.
Qed.

(* ---- the skip loop ---- *)

Lemma skipFrozen_calm (snap : GameState) (fuel : nat) (nextIndex : Z)
  (store : list PlayerModifier) :
  (forall pid, isPlayerFrozen pid (modifiers snap) = false) ->
  skipFrozen snap fuel nextIndex store = (nextIndex, store).
Proof.
  intros Hcalm. destruct fuel as [|fuel]; [reflexivity|].
  cbn [skipFrozen]. destruct (at_index (players snap) nextIndex) as [p|];
    [|reflexivity].
  now rewrite Hcalm.
Qed.

Lemma skipFrozen_seated (snap : GameState) (fuel : nat) :
  forall (nextIndex : Z) (store : list PlayerModifier),
    0 <= nextIndex < Z.of_nat (length (players snap)) ->
    0 <= fst (skipFrozen snap fuel nextIndex store)
    < Z.of_nat (length (players snap)).
Proof.
  induction fuel as [|fuel IH]; intros nextIndex store Hi;
    cbn [skipFrozen]; [exact Hi|].
  destruct (at_index (players snap) nextIndex) as [p|]; [|exact Hi].
  destruct (isPlayerFrozen (p_id p) (modifiers snap)); [|exact Hi].
  apply IH. apply advanceIndex_seated; lia.
Qed.

(* what the advance does to the turn, the store and the reverse counter
   when no extra turn is pending *)
Lemma handleNextTurn_turn (snap cur : GameState) :
  extraTurnPending snap = false ->
  let skipped :=
    skipFrozen snap (length (players snap))
      (advanceIndex (playOrderReversed snap)
         (Z.of_nat (length (players snap))) (currentTurnIndex snap))
      (tickModifiers (modifiers cur)) in
  currentTurnIndex (handleNextTurn snap cur) = fst skipped
  /\ modifiers (handleNextTurn snap cur) = snd skipped
  /\ extraTurnPending (handleNextTurn snap cur) = extraTurnPending cur
  /\ reverseTurnsRemaining (handleNextTurn snap cur)
     = (if reverseTurnsRemaining snap >? 0
        then reverseTurnsRemaining cur - 1
        else reverseTurnsRemaining cur)
  /\ playOrderReversed (handleNextTurn snap cur)
     = (if (reverseTurnsRemaining snap >? 0)
           && (reverseTurnsRemaining snap =? 1)
        then false else playOrderReversed cur).
Proof.
  intros Hflag skipped. subst skipped.
  unfold handleNextTurn. rewrite Hflag. cbv zeta.
  destruct (reverseTurnsRemaining snap >? 0);
    [destruct (reverseTurnsRemaining snap =? 1)|];
    cells; cbn [andb];
    destruct (skipFrozen _ _ _ _) as [nextIndex store];
    cells; cbn [fst snd]; repeat split; reflexivity.
Qed.

(** X14: the turn always names a player.  When handleNextTurn is run with
    a captured state whose turn index names a player, on a state with the
    same players and the same turn index (as every handler that calls it
    leaves them), the turn index it sets names a player again: whatever
    the play order, the reverse counter, the modifiers and the number of
    frozen players skipped, and also when an extra turn is pending. *)
Theorem turn_stays_seated (snap cur : GameState) :
  seated snap ->
  length (players cur) = length (players snap) ->
  currentTurnIndex cur = currentTurnIndex snap ->
  seated (handleNextTurn snap cur)
  /\ exists p, currentTurnPlayer (handleNextTurn snap cur) = Some p.
Proof.
  intros Hseated Hcount Hindex.
  assert (Hs : seated (handleNextTurn snap cur)).
  { unfold seated in *. rewrite handleNextTurn_players, Hcount.
    destruct (extraTurnPending snap) eqn:Hflag.
    - unfold handleNextTurn. rewrite Hflag. cells. now rewrite Hindex.
    - destruct (handleNextTurn_turn snap cur Hflag) as [-> _].
      apply skipFrozen_seated. apply advanceIndex_seated; lia. }
  split; [exact Hs|].
  unfold currentTurnPlayer. now apply at_index_seated.
Qed.

Lemma turn_stays_seated_witness :
  (seated danaFreezes
   /\ length (players danaFreezes) = length (players danaFreezes)
   /\ currentTurnIndex danaFreezes = currentTurnIndex danaFreezes)
  /\ seated (handleNextTurn danaFreezes danaFreezes).
Proof.
  assert (Hs : seated danaFreezes) by (vm_compute; split; congruence).
  split; [repeat split; exact (proj1 Hs) || exact (proj2 Hs)|].
  exact (proj1 (turn_stays_seated danaFreezes danaFreezes Hs
                  eq_refl eq_refl)).
Defined.

(* ---- when everybody is frozen ---- *)

Lemma hasModifier_after_remove (pid pid' : string) (ty ty' : ModifierType)
  (store : list PlayerModifier) :
  hasModifier store pid' ty' = false ->
  hasModifier (removeModifier pid ty store) pid' ty' = false.
Proof.
  unfold hasModifier. rewrite !existsb_is_kept, kept_after_remove.
  destruct (String.eqb pid' pid && modtype_eqb ty' ty); auto.
Qed.

Lemma hasModifier_after_tick (pid : string) (ty : ModifierType)
  (store : list PlayerModifier) :
  hasModifier store pid ty = false ->
  hasModifier (tickModifiers store) pid ty = false.
Proof.
  unfold hasModifier. rewrite !existsb_is_kept, kept_after_tick.
  destruct (filter (matches pid ty) store); [reflexivity|discriminate].
Qed.

(* the loop when every player it meets is frozen: it runs out of
   attempts, and no player it has met keeps a frozen modifier *)
Lemma skipFrozen_everybody (snap : GameState) (fuel : nat) :
  (forall p, In p (players snap) ->
             isPlayerFrozen (p_id p) (modifiers snap) = true) ->
  forall (nextIndex : Z) (store : list PlayerModifier),
    0 <= nextIndex < Z.of_nat (length (players snap)) ->
    let step := advanceIndex (playOrderReversed snap)
                  (Z.of_nat (length (players snap))) in
    let skipped := skipFrozen snap fuel nextIndex store in
    fst skipped = Nat.iter fuel step nextIndex
    /\ (forall (j : nat) p,
           (j < fuel)%nat ->
           at_index (players snap) (Nat.iter j step nextIndex) = Some p ->
           hasModifier (snd skipped) (p_id p) mod_frozen = false)
    /\ (forall pid ty,
           hasModifier store pid ty = false ->
           hasModifier (snd skipped) pid ty = false).
Proof.
  intros Hall. induction fuel as [|fuel IH]; intros nextIndex store Hi step.
  - cbn [skipFrozen fst snd]. repeat split; auto. intros j p Hj. lia.
  - cbn [skipFrozen].
    destruct (at_index_seated (players snap) nextIndex Hi) as [b Hb].
    rewrite Hb, (Hall b (at_index_In _ _ _ Hb)).
    assert (Hnext : 0 <= step nextIndex < Z.of_nat (length (players snap)))
      by (apply advanceIndex_seated; lia).
    destruct (IH (step nextIndex)
                (removeModifier (p_id b) mod_frozen store) Hnext)
      as (Hfst & Hmet & Hkeep).
    fold step. repeat split.
    + rewrite Hfst. now rewrite Nat.iter_succ_r.
    + intros j p Hj Hp. destruct j as [|j].
      * change (Nat.iter 0 step nextIndex) with nextIndex in Hp.
        rewrite Hb in Hp. injection Hp as <-.
        apply Hkeep.
        unfold hasModifier. rewrite existsb_is_kept, kept_after_remove.
        rewrite (proj2 (same_key_eqb _ _ _ _) eq_refl). reflexivity.
      * rewrite Nat.iter_succ_r in Hp. apply (Hmet j p); [lia|exact Hp].
    + intros pid ty Hstore. apply Hkeep.
      now apply hasModifier_after_remove.
Qed.

(** X15: when every player is frozen.  If the advance finds a frozen
    modifier on every player (and no extra turn is pending), the skip loop
    stops after players.length attempts: it has gone once round the
    table, so the turn goes to the player next in the play order, exactly
    as if nobody were frozen, and no player keeps a frozen modifier. *)
Theorem everybody_frozen (snap cur : GameState) :
  extraTurnPending snap = false ->
  seated snap ->
  (forall p, In p (players snap) ->
             isPlayerFrozen (p_id p) (modifiers snap) = true) ->
  let next := handleNextTurn snap cur in
  currentTurnIndex next
  = advanceIndex (playOrderReversed snap)
      (Z.of_nat (length (players snap))) (currentTurnIndex snap)
  /\ (forall p, In p (players snap) ->
                hasModifier (modifiers next) (p_id p) mod_frozen = false)
  /\ gamePhase next = phase_spinning.
Proof.
  intros Hflag Hseated Hall next.
  unfold seated in Hseated.
  set (n := Z.of_nat (length (players snap))) in *.
  assert (Hn : 0 < n) by lia.
  set (step := advanceIndex (playOrderReversed snap) n).
  assert (Hfirst : 0 <= step (currentTurnIndex snap) < n)
    by (apply advanceIndex_seated; lia).
  destruct (handleNextTurn_turn snap cur Hflag) as (Hindex & Hstore & _).
  destruct (skipFrozen_everybody snap (length (players snap)) Hall
              (step (currentTurnIndex snap))
              (tickModifiers (modifiers cur)) Hfirst)
    as (Hfst & Hmet & _).
  fold n in Hindex, Hstore, Hfst, Hmet. fold step in Hindex, Hstore, Hfst, Hmet.
  split.
  { unfold next. rewrite Hindex, Hfst.
    unfold step at 1. rewrite iter_advance by assumption.
    replace (Z.of_nat (length (players snap))) with n by reflexivity.
    destruct (playOrderReversed snap).
    - replace (step (currentTurnIndex snap) - n)
        with (step (currentTurnIndex snap) + (-1) * n) by lia.
      rewrite Z_mod_plus_full. now apply Z.mod_small.
    - replace (step (currentTurnIndex snap) + n)
        with (step (currentTurnIndex snap) + 1 * n) by lia.
      rewrite Z_mod_plus_full. now apply Z.mod_small. }
  split; [|apply handleNextTurn_phase].
  intros p Hp. unfold next. rewrite Hstore.
  destruct (In_nth_error _ _ Hp) as [t Ht].
  assert (Htlt : (t < length (players snap))%nat)
    by (apply nth_error_Some; congruence).
  (* the attempt at which the loop meets the player at index t *)
  set (first := step (currentTurnIndex snap)) in *.
  set (j := if playOrderReversed snap
            then Z.to_nat ((first - Z.of_nat t) mod n)
            else Z.to_nat ((Z.of_nat t - first) mod n)).
  assert (Hj : (j < length (players snap))%nat).
  { unfold j. destruct (playOrderReversed snap);
      match goal with
      | |- (Z.to_nat (?a mod n) < _)%nat =>
          pose proof (Z.mod_pos_bound a n Hn)
      end; lia. }
  apply (Hmet j p Hj).
  unfold step at 1. rewrite iter_advance by assumption.
  rewrite <- Ht, <- at_index_nat. f_equal.
  unfold j. destruct (playOrderReversed snap).
  - pose proof (Z.mod_pos_bound (first - Z.of_nat t) n Hn).
    rewrite Z2Nat.id by lia.
    rewrite Zminus_mod_idemp_r.
    replace (first - (first - Z.of_nat t)) with (Z.of_nat t) by lia.
    apply Z.mod_small. lia.
  - pose proof (Z.mod_pos_bound (Z.of_nat t - first) n Hn).
    rewrite Z2Nat.id by lia.
    rewrite Zplus_mod_idemp_r.
    replace (first + (Z.of_nat t - first)) with (Z.of_nat t) by lia.
    apply Z.mod_small. lia.
Qed.

Lemma everybody_frozen_witness :
  (extraTurnPending bothFrozen = false
   /\ seated bothFrozen
   /\ forall p, In p (players bothFrozen) ->
                isPlayerFrozen (p_id p) (modifiers bothFrozen) = true)
  /\ currentTurnIndex (handleNextTurn bothFrozen bothFrozen) = 1
  /\ modifiers (handleNextTurn bothFrozen bothFrozen) = [].
Proof.
  assert (Hs : seated bothFrozen) by (vm_compute; split; congruence).
  assert (Hall : forall p, In p (players bothFrozen) ->
                   isPlayerFrozen (p_id p) (modifiers bothFrozen) = true).
  { intros p [<-|[<-|[]]]; reflexivity. }
  split; [repeat split; auto; apply Hs|].
  split; [|reflexivity].
  exact (proj1 (everybody_frozen bothFrozen bothFrozen eq_refl Hs Hall)).
Defined.

(* ---- the play order over several turns ---- *)

Lemma tick_keeps_unfrozen (pid : string) (store : list PlayerModifier) :
  isPlayerFrozen pid store = false ->
  isPlayerFrozen pid (tickModifiers store) = false.
Proof.
  intros Hfree.
  destruct (isPlayerFrozen pid (tickModifiers store)) eqn:E;
    [|reflexivity].
  unfold isPlayerFrozen in E. apply existsb_exists in E.
  destruct E as [m' [Hin Hm']].
  unfold tickModifiers in Hin. apply filter_In in Hin.
  destruct Hin as [Hin Hpos]. apply in_map_iff in Hin.
  destruct Hin as [m [<- Hm]].
  assert (Hold : isPlayerFrozen pid store = true).
  { unfold isPlayerFrozen. apply existsb_exists. exists m.
    split; [assumption|].
    cbn [decrement playerId m_type turnsRemaining] in Hm', Hpos.
    apply andb_prop in Hm'. destruct Hm' as [Hkey Hturns].
    rewrite Hkey. cbn [andb]. apply Z.gtb_lt. apply Z.gtb_lt in Hturns.
    lia. }
  congruence.
Qed.

(* one advance of a calm state *)
Lemma advance_calm (gs : GameState) :
  calm gs ->
  let next := advance gs in
  calm next
  /\ players next = players gs
  /\ currentTurnIndex next
     = advanceIndex (playOrderReversed gs)
         (Z.of_nat (length (players gs))) (currentTurnIndex gs)
  /\ modifiers next = tickModifiers (modifiers gs)
  /\ reverseTurnsRemaining next
     = (if reverseTurnsRemaining gs >? 0
        then reverseTurnsRemaining gs - 1
        else reverseTurnsRemaining gs)
  /\ playOrderReversed next
     = (if (reverseTurnsRemaining gs >? 0)
           && (reverseTurnsRemaining gs =? 1)
        then false else playOrderReversed gs).
Proof.
  intros [Hflag Hfree] next. unfold next, advance.
  destruct (handleNextTurn_turn gs gs Hflag)
    as (Hindex & Hstore & Hextra & Hcount & Hrev).
  rewrite skipFrozen_calm in Hindex, Hstore by assumption.
  cbn [fst snd] in Hindex, Hstore.
  repeat split; auto.
  - now rewrite Hextra.
  - intros pid. rewrite Hstore. now apply tick_keeps_unfrozen.
  - apply handleNextTurn_players.
Qed.

(* k advances of a calm state whose reverse flag is set exactly while its
   reverse counter m is positive *)
Lemma advances_turn (gs : GameState) (k : nat) :
  calm gs -> seated gs ->
  0 <= reverseTurnsRemaining gs ->
  playOrderReversed gs = (0 <? reverseTurnsRemaining gs) ->
  let n := Z.of_nat (length (players gs)) in
  let i := currentTurnIndex gs in
  let m := reverseTurnsRemaining gs in
  let after := advances k gs in
  calm after
  /\ players after = players gs
  /\ currentTurnIndex after
     = (if Z.of_nat k <=? m then (i - Z.of_nat k) mod n
        else (i - 2 * m + Z.of_nat k) mod n)
  /\ reverseTurnsRemaining after = Z.max 0 (m - Z.of_nat k)
  /\ playOrderReversed after = (Z.of_nat k <? m)
  /\ modifiers after = Nat.iter k tickModifiers (modifiers gs).
Proof.
  intros Hcalm Hseated Hm Hflag n i m after.
  unfold seated in Hseated. fold n in Hseated. fold i in Hseated.
  assert (Hn : 0 < n) by lia.
  subst after. induction k as [|k IH].
  - change (advances 0 gs) with gs.
    change (Z.of_nat 0) with 0.
    replace (0 <=? m) with true by (symmetry; apply Z.leb_le; lia).
    rewrite Z.sub_0_r.
    repeat split; auto; try apply Hcalm.
    + fold i. symmetry. now apply Z.mod_small.
    + fold m. lia.
  - destruct IH as (Hc & Hp & Hi & Hr & Hf & Hs).
    unfold advances in *. rewrite !Nat.iter_succ.
    set (before := Nat.iter k advance gs) in *.
    destruct (advance_calm before Hc)
      as (Hc' & Hp' & Hi' & Hs' & Hr' & Hf').
    rewrite Hp in Hi'. fold n in Hi'.
    rewrite Hi, Hf in Hi'. rewrite Hr in Hr', Hf'. rewrite Hf in Hf'.
    repeat split; try apply Hc'.
    + congruence.
    + rewrite Hi'. clear - Hn Hseated Hm.
      destruct (Z.leb_spec (Z.of_nat k) m);
        destruct (Z.ltb_spec (Z.of_nat k) m); try lia;
        (rewrite advanceIndex_mod;
           [|assumption|now apply Z.mod_pos_bound]);
        cbv iota;
        destruct (Z.leb_spec (Z.of_nat (S k)) m); try lia;
        rewrite ?Zminus_mod_idemp_l, ?Zplus_mod_idemp_l; f_equal; lia.
    + rewrite Hr', Z.gtb_ltb.
      destruct (Z.ltb_spec 0 (Z.max 0 (m - Z.of_nat k))); lia.
    + rewrite Hf', Z.gtb_ltb.
      destruct (Z.ltb_spec 0 (Z.max 0 (m - Z.of_nat k)));
        destruct (Z.eqb_spec (Z.max 0 (m - Z.of_nat k)) 1);
        cbn [andb];
        destruct (Z.ltb_spec (Z.of_nat k) m);
        destruct (Z.ltb_spec (Z.of_nat (S k)) m);
        try reflexivity; exfalso; lia.
    + now rewrite Hs', Hs.
Qed.

(** X16: the turn order is a round robin.  In a game where the play order
    is not reversed, nobody is frozen and no extra turn is pending, after
    k turn advances the turn is with the player at index (i + k) mod n,
    where i is the index now and n the number of players: every player
    gets exactly one turn in every n consecutive turns, in the order of
    the players array, and after n turns it is the same player's turn
    again. *)
Theorem turn_order_round_robin (gs : GameState) (k : nat) :
  calm gs -> seated gs ->
  playOrderReversed gs = false -> reverseTurnsRemaining gs = 0 ->
  let n := Z.of_nat (length (players gs)) in
  currentTurnIndex (advances k gs)
  = (currentTurnIndex gs + Z.of_nat k) mod n
  /\ players (advances k gs) = players gs
  /\ currentTurnIndex (advances (length (players gs)) gs)
     = currentTurnIndex gs
  /\ (forall j, 0 <= j < n ->
        exists t, (t < length (players gs))%nat
                  /\ currentTurnIndex (advances t gs) = j).
Proof.
  intros Hcalm Hseated Hflag Hcount n.
  assert (Hturn : forall t : nat,
             currentTurnIndex (advances t gs)
             = (currentTurnIndex gs + Z.of_nat t) mod n
             /\ players (advances t gs) = players gs).
  { intros t.
    destruct (advances_turn gs t Hcalm Hseated) as (_ & Hp & Hi & _).
    - lia.
    - now rewrite Hflag, Hcount.
    - split; [|exact Hp]. rewrite Hi, Hcount. fold n.
      destruct (Z.of_nat t <=? 0) eqn:E; [|f_equal; lia].
      apply Z.leb_le in E. f_equal. lia. }
  unfold seated in Hseated. fold n in Hseated.
  split; [apply Hturn|]. split; [apply Hturn|].
  split.
  - rewrite (proj1 (Hturn _)). fold n.
    replace (currentTurnIndex gs + n)
      with (currentTurnIndex gs + 1 * n) by lia.
    rewrite Z_mod_plus_full. now apply Z.mod_small.
  - intros j Hj.
    pose proof (Z.mod_pos_bound (j - currentTurnIndex gs) n ltac:(lia)).
    exists (Z.to_nat ((j - currentTurnIndex gs) mod n)).
    split; [lia|].
    rewrite (proj1 (Hturn _)), Z2Nat.id by lia.
    rewrite Zplus_mod_idemp_r.
    replace (currentTurnIndex gs + (j - currentTurnIndex gs)) with j by lia.
    now apply Z.mod_small.
Qed.

Lemma turn_order_round_robin_witness :
  (calm threeAtStart /\ seated threeAtStart
   /\ playOrderReversed threeAtStart = false
   /\ reverseTurnsRemaining threeAtStart = 0)
  /\ currentTurnIndex (advances 4 threeAtStart) = (0 + 4) mod 3.
Proof.
  assert (Hc : calm threeAtStart) by (split; [reflexivity|intros pid; reflexivity]).
  assert (Hs : seated threeAtStart) by (vm_compute; split; congruence).
  split; [repeat split; auto; apply Hs|].
  exact (proj1 (turn_order_round_robin threeAtStart 4 Hc Hs
                  eq_refl eq_refl)).
Defined.

(** X17: reverse_order, turn by turn.  When a player confirms a
    reverse_order card worth v > 0 turns (in a game where the order is not
    reversed, nobody is frozen and no extra turn is pending), the advance
    that follows still goes forward, to index (i + 1) mod n, and leaves the
    order reversed with v turns to go; the next v advances go backwards,
    so after k <= v of them the turn is at (i + 1 - k) mod n, and the one
    who drew the card plays again right after the next player; the v-th
    of them switches the order back, and later advances go forward. *)
Theorem reverse_order_lasts (gs : GameState) (twist : TwistCard)
  (r rLevel rQuestion : nat) (k : nat) :
  activeTwist gs = Some twist ->
  effectType twist = reverse_order ->
  requiresChoice twist = false ->
  0 < JS.orElse (effectValue twist) 3 ->
  calm gs -> seated gs ->
  playOrderReversed gs = false -> reverseTurnsRemaining gs = 0 ->
  let n := Z.of_nat (length (players gs)) in
  let i := currentTurnIndex gs in
  let v := JS.orElse (effectValue twist) 3 in
  let after := handleTwistConfirm gs r rLevel rQuestion in
  (currentTurnIndex after = (i + 1) mod n
   /\ playOrderReversed after = true
   /\ reverseTurnsRemaining after = v)
  /\ currentTurnIndex (advances k after)
     = (if Z.of_nat k <=? v then (i + 1 - Z.of_nat k) mod n
        else (i + 1 - 2 * v + Z.of_nat k) mod n)
  /\ playOrderReversed (advances k after) = (Z.of_nat k <? v)
  /\ reverseTurnsRemaining (advances k after) = Z.max 0 (v - Z.of_nat k).
Proof.
  intros Htwist Heffect Hchoice Hv Hcalm Hseated Hflag Hcount n i v after.
  destruct (at_index_seated (players gs) (currentTurnIndex gs) Hseated)
    as [current' Hcur].
  unfold seated in Hseated. fold n in Hseated. fold i in Hseated.
  assert (Hn : 0 < n) by lia.
  assert (Hafter : after
                   = handleNextTurn gs
                       (setActiveTwist None
                          (setReverseTurnsRemaining v
                             (setPlayOrderReversed true gs)))).
  { unfold after, handleTwistConfirm, currentTurnPlayer.
    rewrite Htwist, Hcur.
    unfold executeImmediateTwist. rewrite Hchoice, Heffect.
    cbn [r_players r_stars r_addModifier r_extraTurnPending r_reverseOrder
         showChoicePopup goToBonusQuestion goToSpinning goToNextTurn].
    fold v. unfold JS.truthy.
    replace (v =? 0) with false by (symmetry; apply Z.eqb_neq; lia).
    reflexivity. }
  destruct Hcalm as [Hextra Hfree].
  destruct (handleNextTurn_turn gs
              (setActiveTwist None
                 (setReverseTurnsRemaining v
                    (setPlayOrderReversed true gs))) Hextra)
    as (Hindex & Hstore & Hextra' & Hrev & Hord).
  rewrite <- Hafter in Hindex, Hstore, Hextra', Hrev, Hord.
  rewrite skipFrozen_calm in Hindex, Hstore by assumption.
  rewrite Hcount in Hrev, Hord. rewrite Hflag in Hindex.
  cbn [fst snd] in Hindex, Hstore. cbn in Hrev, Hord, Hextra'.
  change (modifiers
            (setActiveTwist None
               (setReverseTurnsRemaining v (setPlayOrderReversed true gs))))
    with (modifiers gs) in Hstore.
  fold n in Hindex.
  rewrite advanceIndex_mod in Hindex by assumption. fold i in Hindex.
  assert (Hplayers : players after = players gs).
  { rewrite Hafter, handleNextTurn_players. reflexivity. }
  assert (Hcalm' : calm after).
  { split; [now rewrite Hextra'|].
    intros pid. rewrite Hstore. now apply tick_keeps_unfrozen. }
  assert (Hseated' : seated after).
  { unfold seated. rewrite Hplayers, Hindex. fold n.
    now apply Z.mod_pos_bound. }
  split; [repeat split; assumption|].
  destruct (advances_turn after k Hcalm' Hseated')
    as (_ & _ & Hi & Hr & Hf & _).
  - rewrite Hrev. fold v. lia.
  - rewrite Hord, Hrev. symmetry. apply Z.ltb_lt. exact Hv.
  - rewrite Hplayers, Hindex, Hrev in Hi. fold n in Hi.
    rewrite Hrev in Hr, Hf.
    repeat split; try assumption.
    rewrite Hi.
    destruct (Z.of_nat k <=? v);
      rewrite ?Zminus_mod_idemp_l, ?Zplus_mod_idemp_l;
      [reflexivity|].
    rewrite <- (Zplus_mod_idemp_l (i + 1 - 2 * v)).
    rewrite <- (Zplus_mod_idemp_l ((i + 1) mod n - 2 * v)).
    rewrite Zminus_mod_idemp_l. reflexivity.
Qed.

Lemma reverse_order_lasts_witness :
  (activeTwist danaReverses = Some reverseCard
   /\ effectType reverseCard = reverse_order
   /\ requiresChoice reverseCard = false
   /\ 0 < JS.orElse (effectValue reverseCard) 3
   /\ calm danaReverses /\ seated danaReverses
   /\ playOrderReversed danaReverses = false
   /\ reverseTurnsRemaining danaReverses = 0)
  /\ currentTurnIndex (handleTwistConfirm danaReverses 0 0 0) = (0 + 1) mod 3
  /\ playOrderReversed (handleTwistConfirm danaReverses 0 0 0) = true
  /\ reverseTurnsRemaining (handleTwistConfirm danaReverses 0 0 0) = 3.
Proof.
  assert (Hc : calm danaReverses)
    by (split; [reflexivity|intros pid; reflexivity]).
  assert (Hs : seated danaReverses) by (vm_compute; split; congruence).
  split; [repeat split; auto; apply Hs|].
  exact (proj1 (reverse_order_lasts danaReverses reverseCard 0 0 0 0
                  eq_refl eq_refl eq_refl eq_refl Hc Hs eq_refl eq_refl)).
Defined.

End TurnOrder.
Section Rounds.

(* ---- the countdown ---- *)

Lemma multiplier_numeric (gs : GameState) (player : Player) :
  numericDoubles (modifiers gs) ->
  getStepsMultiplier (p_id player) (modifiers gs)
  = val_number (multiplierOf gs player).
Proof.
  intros Hnum. unfold multiplierOf, getStepsMultiplier, JS.find_first.
  destruct (find _ (modifiers gs)) as [m|] eqn:E; [|reflexivity].
  apply find_some in E. destruct E as [Hin Hm].
  apply andb_prop in Hm. destruct Hm as [Hm _].
  apply andb_prop in Hm. destruct Hm as [_ Hty].
  apply modtype_eqb_eq in Hty.
  destruct (m_value m) as [[n|c]|] eqn:Hv; try reflexivity.
  destruct (Hnum m Hin Hty c Hv).
Qed.

(* the loop of handleCountdownComplete, in closed form *)
Lemma countSteps_closed (gs : GameState) (answers : list AnswerOption)
  (difficulty : Z) :
  numericDoubles (modifiers gs) ->
  forall (todo : list Player) (store : list PlayerModifier),
    countSteps gs (correctAnswerIdOf answers) difficulty todo store
    = Some (map (fun p => mkSteps p (stepsFor gs answers difficulty p)
                            (answeredRight gs answers p) (hasTurn gs p))
                todo,
            fold_left
              (fun st p =>
                 if answeredRight gs answers p && (multiplierOf gs p >? 1)
                 then removeModifier (p_id p) mod_double_next st
                 else st) todo store).
Proof.
  intros Hnum. induction todo as [|p todo IH]; intros store;
    cbn [countSteps map fold_left]; [reflexivity|].
  unfold stepsFor.
  change (sameOptional (answerOf (playerAnswers gs) p)
            (correctAnswerIdOf answers))
    with (answeredRight gs answers p).
  destruct (answeredRight gs answers p); cbn [andb].
  - rewrite multiplier_numeric by assumption.
    destruct (multiplierOf gs p >? 1); now rewrite IH.
  - now rewrite IH.
Qed.

Lemma movements_closed (gs : GameState) (answers : list AnswerOption)
  (difficulty : Z) (todo : list Player) :
  movementsOf
    (map (fun p => mkSteps p (stepsFor gs answers difficulty p)
                     (answeredRight gs answers p) (hasTurn gs p)) todo)
  = map (fun p => mkMovement (p_id p) (stepsFor gs answers difficulty p))
      (filter (fun p => stepsFor gs answers difficulty p >? 0) todo).
Proof.
  unfold movementsOf. induction todo as [|p todo IH]; [reflexivity|].
  cbn [map filter stepsEarned se_player].
  destruct (stepsFor gs answers difficulty p >? 0); cbn [map];
    cbn [stepsEarned se_player]; now rewrite IH.
Qed.

(** X18: what a round gives.  When the countdown ends on a question (and
    every double_next modifier carries a number, as the one the twist adds
    does), handleCountdownComplete records one result per player, in the
    order of the players: a wrong answer earns 0 steps; a right answer
    earns the question's difficulty for the player whose turn it is and 1
    for any other player, times the player's multiplier.  The movements
    queued are those of the players with more than 0 steps, in the same
    order; players and stars are not touched and the phase is results.
    If nobody answered right there is no movement and handleStartMovement
    goes straight to the next turn. *)
Theorem countdown_awards_steps (gs : GameState)
  (answers : list AnswerOption) (question : TriviaQuestion) :
  currentQuestion gs = Some question ->
  numericDoubles (modifiers gs) ->
  exists after,
    handleCountdownComplete gs answers = Some after
    /\ gamePhase after = phase_results
    /\ currentMovingPlayerIndex after = 0
    /\ players after = players gs /\ stars after = stars gs
    /\ map se_player (roundSteps after) = players gs
    /\ (forall r, In r (roundSteps after) ->
          isCorrect r = answeredRight gs answers (se_player r)
          /\ isCurrentTurn r = hasTurn gs (se_player r)
          /\ stepsEarned r
             = stepsFor gs answers (q_difficulty question) (se_player r))
    /\ pendingMovements after
       = map (fun p => mkMovement (p_id p)
                         (stepsFor gs answers (q_difficulty question) p))
           (filter (fun p => stepsFor gs answers (q_difficulty question) p
                             >? 0) (players gs))
    /\ ((forall p, In p (players gs) -> answeredRight gs answers p = false)
        -> pendingMovements after = []
           /\ gamePhase (handleStartMovement after) = phase_spinning).
Proof.
  intros Hq Hnum. unfold handleCountdownComplete. rewrite Hq.
  change (option_map ao_id (JS.find_first ao_isCorrect answers))
    with (correctAnswerIdOf answers).
  rewrite (countSteps_closed gs answers (q_difficulty question) Hnum).
  eexists. split; [reflexivity|]. cells.
  split; [reflexivity|]. split; [reflexivity|].
  split; [reflexivity|]. split; [reflexivity|].
  split.
  { rewrite map_map. cbn [se_player]. apply map_id. }
  split.
  { intros r Hr. apply in_map_iff in Hr. destruct Hr as [p [<- _]].
    cbn. repeat split; reflexivity. }
  split; [apply movements_closed|].
  intros Hwrong.
  assert (Hnone : movementsOf
                    (map (fun p => mkSteps p
                                     (stepsFor gs answers
                                        (q_difficulty question) p)
                                     (answeredRight gs answers p)
                                     (hasTurn gs p)) (players gs)) = []).
  { rewrite movements_closed.
    rewrite filter_none; [reflexivity|].
    intros p Hp. unfold stepsFor. now rewrite (Hwrong p Hp). }
  split; [exact Hnone|].
  unfold handleStartMovement. cells. rewrite Hnone. cbn [length Nat.eqb].
  apply handleNextTurn_phase.
Qed.

Lemma countdown_awards_steps_witness :
  (currentQuestion answered = Some secondQuestion
   /\ numericDoubles (modifiers answered))
  /\ exists after,
       handleCountdownComplete answered fourAnswers = Some after
       /\ map stepsEarned (roundSteps after) = [6; 0; 1]
       /\ pendingMovements after
          = [mkMovement (p_id dana) 6; mkMovement (p_id robot) 1].
Proof.
  assert (Hnum : numericDoubles (modifiers answered)).
  { intros m [<-|[]] _ c H. discriminate H. }
  split; [split; [reflexivity|exact Hnum]|].
  destruct (countdown_awards_steps answered fourAnswers
              secondQuestion eq_refl Hnum)
    as [after [Hsome _]].
  exists after. split; [exact Hsome|].
  vm_compute in Hsome. injection Hsome as <-.
  split; reflexivity.
Defined.

(* ---- the double_next modifier in a round ---- *)

Lemma find_in_kept {A : Type} (f g : A -> bool) (l : list A) :
  (forall x, f x = true -> g x = true) ->
  find f (filter g l) = find f l.
Proof.
  intros Himp. induction l as [|x l IH]; [reflexivity|]. cbn [filter find].
  destruct (g x) eqn:G; cbn [find]; destruct (f x) eqn:F; auto.
  rewrite (Himp x F) in G. discriminate.
Qed.

Lemma multiplier_by_key (pid : string) (store : list PlayerModifier) :
  getStepsMultiplier pid store
  = getStepsMultiplier pid (filter (matches pid mod_double_next) store).
Proof.
  unfold getStepsMultiplier, JS.find_first.
  rewrite find_in_kept; [reflexivity|].
  intros m H. apply andb_prop in H. destruct H as [H _]. exact H.
Qed.

Lemma doubles_after_round (used : Player -> bool) (pid : string)
  (todo : list Player) :
  forall store : list PlayerModifier,
    filter (matches pid mod_double_next)
      (fold_left
         (fun st p => if used p
                      then removeModifier (p_id p) mod_double_next st
                      else st) todo store)
    = if existsb (fun q => String.eqb pid (p_id q) && used q) todo
      then []
      else filter (matches pid mod_double_next) store.
Proof.
  induction todo as [|q todo IH]; intros store; cbn [fold_left existsb];
    [reflexivity|].
  rewrite IH.
  destruct (used q); cbn [andb]; rewrite ?andb_false_r; cbn [orb];
    [|reflexivity].
  rewrite kept_after_remove.
  destruct (String.eqb pid (p_id q)); cbn [andb orb].
  - now destruct (existsb _ todo).
  - reflexivity.
Qed.

Lemma used_by_one (used : Player -> bool) (players : list Player)
  (p : Player) :
  NoDup (map p_id players) -> In p players ->
  existsb (fun q => String.eqb (p_id p) (p_id q) && used q) players
  = used p.
Proof.
  intros Hids Hin.
  destruct (used p) eqn:Hp.
  - apply existsb_exists. exists p. split; [assumption|].
    now rewrite String.eqb_refl, Hp.
  - destruct (existsb _ players) eqn:E; [|reflexivity].
    apply existsb_exists in E. destruct E as [q [Hq Hused]].
    apply andb_prop in Hused. destruct Hused as [Hsame Hused].
    apply String.eqb_eq in Hsame.
    rewrite (unique_by_id players p q Hids Hin Hq Hsame) in Hp.
    congruence.
Qed.

(** X19: double_next is used up by the right answer it doubles.  After
    handleCountdownComplete (players with different ids, every double_next
    value a number), a player who answered right with a multiplier above
    1 has multiplier 1 again: the double_next modifier is removed; any
    other player's multiplier is what it was before the countdown, so a
    wrong answer leaves the modifier in place. *)
Theorem double_next_used_up (gs : GameState) (answers : list AnswerOption)
  (question : TriviaQuestion) (p : Player) :
  currentQuestion gs = Some question ->
  numericDoubles (modifiers gs) ->
  NoDup (map p_id (players gs)) ->
  In p (players gs) ->
  exists after,
    handleCountdownComplete gs answers = Some after
    /\ getStepsMultiplier (p_id p) (modifiers after)
       = (if answeredRight gs answers p && (multiplierOf gs p >? 1)
          then val_number 1
          else getStepsMultiplier (p_id p) (modifiers gs))
    /\ (answeredRight gs answers p = false ->
        getModifier (modifiers after) (p_id p) mod_double_next
        = getModifier (modifiers gs) (p_id p) mod_double_next).
Proof.
  intros Hq Hnum Hids Hin. unfold handleCountdownComplete. rewrite Hq.
  change (option_map ao_id (JS.find_first ao_isCorrect answers))
    with (correctAnswerIdOf answers).
  rewrite (countSteps_closed gs answers (q_difficulty question) Hnum).
  eexists. split; [reflexivity|]. cells.
  pose proof (doubles_after_round
                (fun q => answeredRight gs answers q
                          && (multiplierOf gs q >? 1))
                (p_id p) (players gs) (modifiers gs)) as Hkept.
  rewrite used_by_one in Hkept by assumption.
  split.
  - rewrite multiplier_by_key, Hkept.
    destruct (answeredRight gs answers p && (multiplierOf gs p >? 1));
      [reflexivity|].
    symmetry. apply multiplier_by_key.
  - intros Hwrong. rewrite Hwrong in Hkept. cbn [andb] in Hkept.
    unfold getModifier, JS.find_first.
    now rewrite !find_is_first_kept, Hkept.
Qed.

Lemma double_next_used_up_witness :
  (currentQuestion answered = Some secondQuestion
   /\ numericDoubles (modifiers answered)
   /\ NoDup (map p_id (players answered))
   /\ In dana (players answered))
  /\ getStepsMultiplier (p_id dana) (modifiers answered) = val_number 2
  /\ exists after,
       handleCountdownComplete answered fourAnswers = Some after
       /\ getStepsMultiplier (p_id dana) (modifiers after) = val_number 1.
Proof.
  assert (Hnum : numericDoubles (modifiers answered)).
  { intros m [<-|[]] _ c H. discriminate H. }
  assert (Hids : NoDup (map p_id (players answered)))
    by (apply distinct_NoDup; reflexivity).
  assert (Hin : In dana (players answered)) by (left; reflexivity).
  split; [repeat split; assumption|].
  split; [reflexivity|].
  destruct (double_next_used_up answered fourAnswers
              secondQuestion dana eq_refl Hnum Hids Hin)
    as [after [Hsome [Hmult _]]].
  exists after. split; [exact Hsome|].
  rewrite Hmult. reflexivity.
Defined.

(* ---- picking a star ---- *)




(* ---- the final ranking ---- *)

Lemma insertSorted_permutation {A : Type} (compare : A -> A -> Z) (x : A)
  (sorted : list A) :
  Permutation (insertSorted compare x sorted) (x :: sorted).
Proof.
  induction sorted as [|y rest IH]; cbn [insertSorted]; [reflexivity|].
  destruct (compare x y >? 0); [|reflexivity].
  eapply perm_trans; [apply perm_skip, IH|apply perm_swap].
Qed.

Lemma sort_permutation {A : Type} (compare : A -> A -> Z) (arr : list A) :
  Permutation (sort compare arr) arr.
Proof.
  induction arr as [|x arr IH]; cbn [sort fold_right]; [reflexivity|].
  eapply perm_trans; [apply insertSorted_permutation|].
  now apply perm_skip.
Qed.

(* the first element after an insertion *)
Lemma insertSorted_head {A : Type} (compare : A -> A -> Z) (x : A)
  (sorted : list A) :
  hd_error (insertSorted compare x sorted)
  = match hd_error sorted with
    | Some y => Some (if compare x y >? 0 then y else x)
    | None => Some x
    end.
Proof.
  destruct sorted as [|y rest]; cbn [insertSorted hd_error];
    [reflexivity|].
  now destruct (compare x y >? 0).
Qed.

Lemma winner_cons (x : Player) (rest : list Player) :
  winner (x :: rest)
  = match winner rest with
    | Some y => Some (if score y - score x >? 0 then y else x)
    | None => Some x
    end.
Proof.
  unfold winner, sortedPlayers. rewrite !nth_error_0.
  cbn [sort fold_right]. apply insertSorted_head.
Qed.

Lemma winner_first_best (players : list Player) :
  players <> [] ->
  exists w before after,
    winner players = Some w
    /\ players = before ++ w :: after
    /\ (forall p, In p before -> score p < score w)
    /\ (forall p, In p after -> score p <= score w).
Proof.
  induction players as [|x rest IH]; intros Hne; [congruence|].
  rewrite winner_cons.
  destruct rest as [|y rest'].
  - exists x, [], []. cbn. repeat split; auto; intros p [].
  - destruct IH as (w & before & after & Hw & Hsplit & Hb & Ha);
      [discriminate|].
    rewrite Hw.
    destruct (Z.ltb_spec 0 (score w - score x)) as [Hgt|Hle];
      rewrite Z.gtb_ltb.
    + replace (0 <? score w - score x) with true
        by (symmetry; apply Z.ltb_lt; lia).
      exists w, (x :: before), after. rewrite Hsplit.
      repeat split; auto.
      intros p [<-|Hp]; [lia|now apply Hb].
    + replace (0 <? score w - score x) with false
        by (symmetry; apply Z.ltb_ge; lia).
      exists x, [], (y :: rest'). repeat split; auto.
      * intros p [].
      * intros p Hp. rewrite Hsplit in Hp.
        apply in_app_or in Hp. destruct Hp as [Hp|[<-|Hp]].
        -- specialize (Hb p Hp). lia.
        -- lia.
        -- specialize (Ha p Hp). lia.
Qed.

Lemma insertSorted_descending (x : Player) (sorted : list Player) :
  StronglySorted (fun a b => score b <= score a) sorted ->
  StronglySorted (fun a b => score b <= score a)
    (insertSorted (fun a b => score b - score a) x sorted).
Proof.
  induction sorted as [|y more IHs]; intros Hsorted; cbn [insertSorted].
  - constructor; constructor.
  - inversion Hsorted as [|? ? Hmore Hall]; subst.
    rewrite Z.gtb_ltb.
    destruct (Z.ltb_spec 0 (score y - score x)) as [Hgt|Hle].
    + constructor; [now apply IHs|].
      eapply Permutation_Forall;
        [apply Permutation_sym, insertSorted_permutation|].
      constructor; [lia|exact Hall].
    + constructor; [exact Hsorted|].
      constructor; [lia|].
      eapply Forall_impl; [|exact Hall]. cbn. intros p Hp. lia.
Qed.

Lemma sorted_descending (players : list Player) :
  StronglySorted (fun a b => score b <= score a) (sortedPlayers players).
Proof.
  unfold sortedPlayers.
  induction players as [|x rest IH]; cbn [sort fold_right];
    [constructor|].
  now apply insertSorted_descending.
Qed.

(** X21: the winner.  On the finished screen the players are listed by
    score from high to low, every player once, and the winner shown is a
    player with the highest score: among players with the same highest
    score, the one who comes first in the players array. *)
Theorem winner_has_top_score (players : list Player) :
  players <> [] ->
  Permutation (sortedPlayers players) players
  /\ StronglySorted (fun a b => score b <= score a) (sortedPlayers players)
  /\ exists w before after,
       winner players = Some w
       /\ players = before ++ w :: after
       /\ (forall p, In p players -> score p <= score w)
       /\ (forall p, In p before -> score p < score w).
Proof.
  intros Hne.
  split; [apply sort_permutation|].
  split; [apply sorted_descending|].
  destruct (winner_first_best players Hne)
    as (w & before & after & Hw & Hsplit & Hb & Ha).
  exists w, before, after. repeat split; auto.
  intros p Hp. rewrite Hsplit in Hp.
  apply in_app_or in Hp. destruct Hp as [Hp|[<-|Hp]].
  - specialize (Hb p Hp). lia.
  - lia.
  - now apply Ha.
Qed.

Lemma winner_has_top_score_witness :
  fst robbedBoard <> []
  /\ exists w, winner (fst robbedBoard) = Some w /\ score w = 500.
Proof.
  assert (Hne : fst robbedBoard <> []) by (vm_compute; discriminate).
  split; [exact Hne|].
  destruct (proj2 (proj2 (winner_has_top_score (fst robbedBoard) Hne)))
    as (w & before & after & Hw & _).
  exists w. split; [exact Hw|].
  vm_compute in Hw. injection Hw as <-. reflexivity.
Defined.

End Rounds.
Section WheelAndTwists.

(** X22: the wheel on 'twist' always shows a card.  When the wheel stops
    on 'twist', handleWheelComplete goes to the twist phase with an active
    card, never to a question: the card is an unused card of the deck, or,
    when every card is used, the first card of a fresh shuffle of the
    catalogue (which is then the deck, with that card alone in the used
    set); its id is in the used set afterwards; the wheel result is
    recorded, and a chosen difficulty, the question in play and the used
    questions are left as they were. *)
Theorem wheel_twist_shows_a_card (t : Table) (shuffle : nat -> nat)
  (rTwist rLevel rQuestion : nat) :
  let spun := handleWheelComplete t wheel_twist shuffle rTwist rLevel
                rQuestion in
  gamePhase (game spun) = phase_twist
  /\ wheelResult (game spun) = Some wheel_twist
  /\ (exists twist,
        activeTwist (game spun) = Some twist
        /\ (In twist (twistDeck (deck t)) \/ In twist TWIST_CARDS)
        /\ has (usedTwistIds (deck spun)) (t_id twist) = true
        /\ ((exists unused, In unused (twistDeck (deck t))
                            /\ has (usedTwistIds (deck t)) (t_id unused)
                               = false) ->
            In twist (twistDeck (deck t))
            /\ has (usedTwistIds (deck t)) (t_id twist) = false
            /\ twistDeck (deck spun) = twistDeck (deck t))
        /\ ((forall used, In used (twistDeck (deck t)) ->
                          has (usedTwistIds (deck t)) (t_id used) = true) ->
            In twist TWIST_CARDS
            /\ Permutation (twistDeck (deck spun)) TWIST_CARDS
            /\ nth_error (twistDeck (deck spun)) 0 = Some twist
            /\ usedTwistIds (deck spun) = [t_id twist]))
  /\ chosenDifficulty spun = chosenDifficulty t
  /\ currentQuestion (game spun) = currentQuestion (game t)
  /\ usedQuestionIds (game spun) = usedQuestionIds (game t)
  /\ players (game spun) = players (game t)
  /\ currentTurnIndex (game spun) = currentTurnIndex (game t).
Proof.
  intros spun. unfold spun, handleWheelComplete.
  destruct (drawTwist_gives (deck t) shuffle rTwist)
    as [twist [Hdraw Hcases]].
  destruct (drawTwist (deck t) shuffle rTwist) as [drawn d] eqn:E.
  cbn [fst snd] in Hdraw, Hcases. subst drawn.
  cbn [game deck chosenDifficulty]. cells.
  repeat split; auto.
  exists twist. split; [reflexivity|].
  assert (Hmarked : has (add (usedTwistIds d) (t_id twist)) (t_id twist)
                    = true).
  { unfold add. destruct (has (usedTwistIds d) (t_id twist)) eqn:Hh;
      [exact Hh|].
    apply has_In, in_or_app. right. now left. }
  destruct Hcases as [(Hin & Hfresh & ->)
                     | (Hall & Hin & Hused & Hperm & Hfirst)].
  - split; [now left|]. split; [exact Hmarked|]. split.
    + intros _. repeat split; auto.
    + intros Hused. rewrite (Hused twist Hin) in Hfresh. discriminate.
  - split; [now right|]. split; [exact Hmarked|]. split.
    + intros [unused [Hu Hf]]. rewrite (Hall unused Hu) in Hf.
      discriminate.
    + intros _. cbn [markTwistUsed twistDeck usedTwistIds].
      rewrite Hused. repeat split; assumption.
Qed.

(* a spin that stops on a number *)
Lemma wheel_level_cells (t : Table) (level : Z) (shuffle : nat -> nat)
  (rTwist rLevel rQuestion : nat) :
  let spun := handleWheelComplete t (wheel_level level) shuffle rTwist
                rLevel rQuestion in
  let selection :=
    selectQuestionByDifficulty (questions (game t))
      (usedQuestionIds (game t)) (JS.orElse (chosenDifficulty t) level)
      match currentTurnPlayer (game t) with
      | Some current =>
          getForcedCategory (p_id current) (modifiers (game t))
      | None => None
      end rQuestion in
  gamePhase (game spun) = phase_question
  /\ usedQuestionIds (game spun) = snd selection
  /\ (forall q, fst selection = Some q ->
                currentQuestion (game spun) = Some q)
  /\ chosenDifficulty spun = None
  /\ questions (game spun) = questions (game t)
  /\ modifiers (game spun) = modifiers (game t)
  /\ players (game spun) = players (game t)
  /\ currentTurnIndex (game spun) = currentTurnIndex (game t).
Proof.
  cbv zeta. unfold handleWheelComplete, selectInto.
  cbn [game chosenDifficulty deck]. cells.
  destruct (selectQuestionByDifficulty _ _ _ _ _) as [[q|] used];
    cells; cbn [fst snd]; repeat split; congruence.
Qed.

(** X23: a chosen difficulty is used once.  handleTwistChooseDifficulty
    keeps the turn with the same player and goes back to spinning; the
    next time the wheel stops on a number, the question is selected with
    the chosen difficulty instead of the wheel's, and the choice is
    cleared, so the spin after that uses the wheel's number; a spin that
    stops on 'twist' in between leaves the choice in place. *)
Theorem chosen_difficulty_used_once (t : Table) (difficulty level : Z)
  (shuffle : nat -> nat) (rTwist rLevel rQuestion : nat) :
  difficulty <> 0 ->
  let chosen := handleTwistChooseDifficulty t difficulty in
  let spun := handleWheelComplete chosen (wheel_level level) shuffle rTwist
                rLevel rQuestion in
  let forced :=
    match currentTurnPlayer (game t) with
    | Some current => getForcedCategory (p_id current) (modifiers (game t))
    | None => None
    end in
  let selection :=
    selectQuestionByDifficulty (questions (game t))
      (usedQuestionIds (game t)) difficulty forced rQuestion in
  (gamePhase (game chosen) = phase_spinning
   /\ currentTurnIndex (game chosen) = currentTurnIndex (game t)
   /\ modifiers (game chosen) = modifiers (game t)
   /\ activeTwist (game chosen) = None)
  /\ (gamePhase (game spun) = phase_question
      /\ usedQuestionIds (game spun) = snd selection
      /\ (forall q, fst selection = Some q ->
                    currentQuestion (game spun) = Some q)
      /\ chosenDifficulty spun = None)
  /\ (forall level' shuffle' rTwist' rLevel' rQuestion',
        level' <> 0 ->
        usedQuestionIds
          (game (handleWheelComplete spun (wheel_level level') shuffle'
                   rTwist' rLevel' rQuestion'))
        = snd (selectQuestionByDifficulty (questions (game t))
                 (usedQuestionIds (game spun)) level' forced rQuestion'))
  /\ chosenDifficulty
       (handleWheelComplete chosen wheel_twist shuffle rTwist rLevel
          rQuestion)
     = Some difficulty.
Proof.
  intros Hd chosen spun forced selection.
  assert (Hor : JS.orElse (Some difficulty) level = difficulty).
  { unfold JS.orElse. destruct (Z.eqb_spec difficulty 0); congruence. }
  split; [repeat split|].
  pose proof (wheel_level_cells chosen level shuffle rTwist rLevel
                rQuestion) as Hspun.
  cbv zeta in Hspun. fold spun in Hspun.
  change (chosenDifficulty chosen) with (Some difficulty) in Hspun.
  change (questions (game chosen)) with (questions (game t)) in Hspun.
  change (usedQuestionIds (game chosen))
    with (usedQuestionIds (game t)) in Hspun.
  change (modifiers (game chosen)) with (modifiers (game t)) in Hspun.
  change (players (game chosen)) with (players (game t)) in Hspun.
  change (currentTurnIndex (game chosen))
    with (currentTurnIndex (game t)) in Hspun.
  change (currentTurnPlayer (game chosen))
    with (currentTurnPlayer (game t)) in Hspun.
  rewrite Hor in Hspun. fold forced in Hspun. fold selection in Hspun.
  destruct Hspun as (Hphase & Hused & Hq & Hc & Hqs & Hm & Hp & Hi).
  split; [repeat split; assumption|].
  split.
  - intros level' shuffle' rTwist' rLevel' rQuestion' Hl.
    clearbody spun.
    destruct (wheel_level_cells spun level' shuffle' rTwist' rLevel'
                rQuestion') as (_ & Hused' & _).
    rewrite Hused'. rewrite Hc, Hqs, Hm. unfold currentTurnPlayer.
    rewrite Hp, Hi. reflexivity.
  - unfold chosen, handleWheelComplete, handleTwistChooseDifficulty.
    cbn [game chosenDifficulty deck].
    destruct (drawTwist (deck t) shuffle rTwist) as [[twist|] d];
      reflexivity.
Qed.

Lemma chosen_difficulty_used_once_witness :
  5 <> 0
  /\ currentQuestion
       (game (handleWheelComplete
                (handleTwistChooseDifficulty
                   (mkTable (setQuestions threeQuestions threeAtStart) None
                      (freshDeck zeros)) 5)
                (wheel_level 1) zeros 0 0 0))
     = Some thirdQuestion.
Proof.
  split; [discriminate|].
  pose proof (chosen_difficulty_used_once
                (mkTable (setQuestions threeQuestions threeAtStart) None
                   (freshDeck zeros)) 5 1 zeros 0 0 0 ltac:(discriminate))
    as H.
  cbv zeta in H. destruct H as (_ & (_ & _ & Hq & _) & _).
  apply Hq. vm_compute. reflexivity.
Defined.

Lemma handleNextTurn_clears_twist (snap cur : GameState) :
  activeTwist (handleNextTurn snap cur) = None.
Proof.
  unfold handleNextTurn.
  destruct (extraTurnPending snap); [reflexivity|].
  destruct (skipFrozen _ _ _ _) as [nextIndex store].
  destruct (reverseTurnsRemaining snap >? 0); [|reflexivity].
  destruct (reverseTurnsRemaining snap =? 1); reflexivity.
Qed.

(* what a card that asks for no choice and is no bonus question tells the
   page to do next *)
Lemma immediate_goes_on (twist : TwistCard) (current : Player)
  (players : list Player) (stars : list StarState) (r : nat) :
  requiresChoice twist = false ->
  effectType twist <> bonus_question ->
  let result := executeImmediateTwist twist current players stars r in
  showChoicePopup result = false /\ goToBonusQuestion result = false
  /\ goToSpinning result = false /\ goToNextTurn result = true.
Proof.
  intros Hchoice Hbonus. cbv zeta. unfold executeImmediateTwist.
  rewrite Hchoice.
  destruct (effectType twist); try congruence;
    try (destruct (effectValue twist) as [n|]; unfold JS.truthy;
         try destruct (n =? 0));
    try (destruct (JS.find_first _ stars) as [zeroStar|]);
    repeat split; reflexivity.
Qed.

(* a card that asks for no choice and is no bonus question ends in the
   turn advance *)
Lemma confirm_advances (gs : GameState) (twist : TwistCard)
  (current : Player) (r rLevel rQuestion : nat) :
  activeTwist gs = Some twist ->
  currentTurnPlayer gs = Some current ->
  requiresChoice twist = false ->
  effectType twist <> bonus_question ->
  exists cur, handleTwistConfirm gs r rLevel rQuestion
              = handleNextTurn gs cur.
Proof.
  intros Htwist Hcur Hchoice Hbonus. unfold handleTwistConfirm.
  rewrite Htwist, Hcur. cbv zeta.
  destruct (immediate_goes_on twist current (players gs) (stars gs) r
              Hchoice Hbonus) as (-> & -> & -> & ->).
  eexists; reflexivity.
Qed.

(** X24: confirming a twist always moves the game on.  With an active
    card and a current player, handleTwistConfirm leaves the twist phase
    in every case: to the choice popup when the card requires a choice
    (and then nothing else has changed: players, stars, modifiers and the
    turn are as before and the card stays active), to the bonus question
    for a bonus_question card, and otherwise to spinning through the turn
    advance, with the card cleared. *)
Theorem twist_confirm_moves_on (gs : GameState) (twist : TwistCard)
  (current : Player) (r rLevel rQuestion : nat) :
  activeTwist gs = Some twist ->
  currentTurnPlayer gs = Some current ->
  let after := handleTwistConfirm gs r rLevel rQuestion in
  gamePhase after
  = (if requiresChoice twist then phase_twistChoice
     else match effectType twist with
          | bonus_question => phase_twistBonusQ
          | _ => phase_spinning
          end)
  /\ (requiresChoice twist = true ->
      players after = players gs /\ stars after = stars gs
      /\ modifiers after = modifiers gs
      /\ currentTurnIndex after = currentTurnIndex gs
      /\ showTwistChoice after = true
      /\ activeTwist after = Some twist)
  /\ (gamePhase after = phase_twistBonusQ ->
      bonusQuestionSteps after = JS.orElse (effectValue twist) 5
      /\ players after = players gs
      /\ currentTurnIndex after = currentTurnIndex gs)
  /\ (gamePhase after = phase_spinning -> activeTwist after = None).
Proof.
  intros Htwist Hcur after.
  destruct (requiresChoice twist) eqn:Hchoice.
  - assert (Hafter : after
                     = setGamePhase phase_twistChoice
                         (setShowTwistChoice true gs)).
    { unfold after, handleTwistConfirm. rewrite Htwist, Hcur.
      unfold executeImmediateTwist. rewrite Hchoice. reflexivity. }
    rewrite Hafter. cells. repeat split; auto; discriminate.
  - destruct (effectType twist) eqn:Heffect.
    5:{ (* bonus_question *)
      assert (Hafter : exists cur,
                 after = setGamePhase phase_twistBonusQ
                           (setBonusQuestionSteps
                              (JS.orElse (effectValue twist) 5) cur)
                 /\ players cur = players gs
                 /\ currentTurnIndex cur = currentTurnIndex gs).
      { unfold after, handleTwistConfirm. rewrite Htwist, Hcur.
        unfold executeImmediateTwist. rewrite Hchoice, Heffect.
        cbn [r_players r_stars r_addModifier r_extraTurnPending
             r_reverseOrder showChoicePopup goToBonusQuestion
             goToSpinning goToNextTurn].
        destruct (selectQuestionByDifficulty _ _ _ _ _) as [[q|] used];
          eexists; (split; [reflexivity|]); cells; split; reflexivity. }
      destruct Hafter as (cur & -> & Hp & Hi). cells.
      repeat split; auto; discriminate. }
    all: destruct (confirm_advances gs twist current r rLevel rQuestion
                     Htwist Hcur Hchoice) as [cur Hafter];
      [congruence|];
      fold after in Hafter; rewrite Hafter;
      rewrite handleNextTurn_phase, handleNextTurn_clears_twist;
      repeat split; auto; discriminate.
Qed.

Lemma twist_confirm_moves_on_witness :
  (activeTwist danaReverses = Some reverseCard
   /\ currentTurnPlayer danaReverses = Some dana)
  /\ gamePhase (handleTwistConfirm danaReverses 0 0 0) = phase_spinning.
Proof.
  split; [split; reflexivity|].
  exact (proj1 (twist_confirm_moves_on danaReverses reverseCard dana 0 0 0
                  eq_refl eq_refl)).
Defined.

(* ---- how long the modifiers of the cards last ---- *)

Lemma skipFrozen_keeps (snap : GameState) (fuel : nat) (pid : string)
  (ty : ModifierType) :
  ty <> mod_frozen ->
  forall (nextIndex : Z) (store : list PlayerModifier),
    filter (matches pid ty) (snd (skipFrozen snap fuel nextIndex store))
    = filter (matches pid ty) store.
Proof.
  intros Hty. induction fuel as [|fuel IH]; intros nextIndex store;
    cbn [skipFrozen]; [reflexivity|].
  destruct (at_index (players snap) nextIndex) as [p|]; [|reflexivity].
  destruct (isPlayerFrozen (p_id p) (modifiers snap)); [|reflexivity].
  rewrite IH, kept_after_remove.
  destruct (String.eqb pid (p_id p) && modtype_eqb ty mod_frozen) eqn:E;
    [|reflexivity].
  apply andb_prop in E. destruct E as [_ E].
  apply modtype_eqb_eq in E. contradiction.
Qed.

(* the entries under a key that is not frozen, after a turn advance *)
Lemma kept_after_advance (snap cur : GameState) (pid : string)
  (ty : ModifierType) :
  extraTurnPending snap = false -> ty <> mod_frozen ->
  filter (matches pid ty) (modifiers (handleNextTurn snap cur))
  = tickModifiers (filter (matches pid ty) (modifiers cur)).
Proof.
  intros Hflag Hty.
  destruct (handleNextTurn_turn snap cur Hflag) as (_ & -> & _).
  now rewrite skipFrozen_keeps, kept_after_tick.
Qed.

Lemma kept_after_advances (gs : GameState) (k : nat) (pid : string)
  (ty : ModifierType) :
  extraTurnPending gs = false -> ty <> mod_frozen ->
  extraTurnPending (advances k gs) = false
  /\ filter (matches pid ty) (modifiers (advances k gs))
     = Nat.iter k tickModifiers (filter (matches pid ty) (modifiers gs)).
Proof.
  intros Hflag Hty. induction k as [|k [IHf IHm]].
  - split; [exact Hflag|reflexivity].
  - unfold advances in *. rewrite !Nat.iter_succ.
    set (before := Nat.iter k advance gs) in *.
    split; unfold advance.
    + destruct (handleNextTurn_turn before before IHf) as (_ & _ & -> & _).
      exact IHf.
    + rewrite kept_after_advance by assumption. now rewrite IHm.
Qed.

Lemma forced_by_key (pid : string) (store : list PlayerModifier) :
  getForcedCategory pid store
  = getForcedCategory pid (filter (matches pid mod_category_master) store).
Proof.
  unfold getForcedCategory, JS.find_first.
  rewrite find_in_kept; [reflexivity|].
  intros m H. apply andb_prop in H. destruct H as [H _]. exact H.
Qed.

Lemma shield_by_key (pid : string) (store : list PlayerModifier) :
  hasShieldProtection pid store
  = hasShieldProtection pid (filter (matches pid mod_shield) store).
Proof.
  unfold hasShieldProtection.
  induction store as [|m store IH]; [reflexivity|]. cbn [filter existsb].
  unfold matches at 1.
  destruct (String.eqb (playerId m) pid && modtype_eqb (m_type m)
                                             mod_shield) eqn:E;
    cbn [existsb andb]; rewrite ?E; cbn [andb orb]; now rewrite IH.
Qed.

(* the entries under the key of a modifier added just before k + 1 turn
   advances *)
Lemma added_then_advanced (gs cur : GameState) (m : PlayerModifier)
  (k : nat) :
  extraTurnPending gs = false -> extraTurnPending cur = false ->
  m_type m <> mod_frozen -> 0 < turnsRemaining m ->
  modifiers cur = addModifier m (modifiers gs) ->
  filter (matches (playerId m) (m_type m))
    (modifiers (advances k (handleNextTurn gs cur)))
  = if Z.of_nat k + 1 <? turnsRemaining m
    then [mkModifier (playerId m) (m_type m)
            (turnsRemaining m - (Z.of_nat k + 1)) (m_value m)]
    else [].
Proof.
  intros Hflag Hcur Hty Hpos Hstore.
  assert (Hafter : extraTurnPending (handleNextTurn gs cur) = false).
  { destruct (handleNextTurn_turn gs cur Hflag) as (_ & _ & -> & _).
    exact Hcur. }
  destruct (kept_after_advances (handleNextTurn gs cur) k (playerId m)
              (m_type m) Hafter Hty) as [_ ->].
  rewrite kept_after_advance by assumption.
  rewrite Hstore, kept_after_add.
  rewrite (proj2 (same_key_eqb _ _ _ _) eq_refl).
  rewrite <- Nat.iter_succ_r.
  rewrite (ticks_of_one m (S k) Hpos).
  replace (Z.of_nat (S k)) with (Z.of_nat k + 1) by lia.
  reflexivity.
Qed.

(** X25: how long a chosen category lasts.  handleTwistChooseCategory
    stores the category for the current player with the card's value v
    (3 when the card has none) as turns, and the turn advance it ends
    with already takes one turn off.  So, with no extra turn pending,
    getForcedCategory gives the chosen category for that player after k
    further turn advances exactly when k + 1 < v: with v = 3, during the
    next two turns of the game, whoever plays them, and no longer. *)
Theorem category_master_lifetime (gs : GameState) (twist : TwistCard)
  (current : Player) (category : KnowledgeCategory) (k : nat) :
  currentTurnPlayer gs = Some current ->
  activeTwist gs = Some twist ->
  extraTurnPending gs = false ->
  0 < JS.orElse (effectValue twist) 3 ->
  let v := JS.orElse (effectValue twist) 3 in
  let after := handleTwistChooseCategory gs category in
  gamePhase after = phase_spinning
  /\ getForcedCategory (p_id current) (modifiers (advances k after))
     = (if Z.of_nat k + 1 <? v then Some category else None).
Proof.
  intros Hcur Htwist Hflag Hv v after.
  unfold after, handleTwistChooseCategory. rewrite Hcur, Htwist.
  split; [apply handleNextTurn_phase|].
  rewrite forced_by_key.
  set (m := mkModifier (p_id current) mod_category_master
              (JS.orElse (effectValue twist) 3)
              (Some (val_category category))).
  rewrite (added_then_advanced gs _ m k Hflag); try reflexivity;
    try assumption; try discriminate.
  cbn [turnsRemaining m]. fold v.
  destruct (Z.ltb_spec (Z.of_nat k + 1) v) as [Hlt|Hge]; [|reflexivity].
  unfold getForcedCategory, JS.find_first. cbn [find playerId m_type
    turnsRemaining m_value m].
  rewrite String.eqb_refl. cbn [modtype_eqb andb].
  replace (v - (Z.of_nat k + 1) >? 0) with true
    by (symmetry; apply Z.gtb_lt; lia).
  reflexivity.
Qed.

Lemma category_master_lifetime_witness :
  (currentTurnPlayer
     (setActiveTwist (Some (cardAt 16)) threeAtStart) = Some dana
   /\ activeTwist (setActiveTwist (Some (cardAt 16)) threeAtStart)
      = Some (cardAt 16)
   /\ extraTurnPending (setActiveTwist (Some (cardAt 16)) threeAtStart)
      = false
   /\ 0 < JS.orElse (effectValue (cardAt 16)) 3)
  /\ getForcedCategory (p_id dana)
       (modifiers
          (advances 2
             (handleTwistChooseCategory
                (setActiveTwist (Some (cardAt 16)) threeAtStart) science)))
     = None.
Proof.
  split; [repeat split; reflexivity|].
  exact (proj2 (category_master_lifetime
                  (setActiveTwist (Some (cardAt 16)) threeAtStart)
                  (cardAt 16) dana science 2
                  eq_refl eq_refl eq_refl eq_refl)).
Defined.

(** X26: how long double_next and shield last.  When the current player
    confirms a double_next card, the player's multiplier is 2 at the end
    of the confirmation and 1 again after one more turn advance: the
    doubling covers the question of the next turn only.  When the player
    confirms a shield card worth v turns, hasShieldProtection holds for
    the player after k further turn advances exactly when k + 1 < v.
    (No extra turn pending.) *)
Theorem confirmed_modifier_lifetime (gs : GameState) (twist : TwistCard)
  (current : Player) (r rLevel rQuestion : nat) (k : nat) :
  activeTwist gs = Some twist ->
  currentTurnPlayer gs = Some current ->
  requiresChoice twist = false ->
  extraTurnPending gs = false ->
  let after := handleTwistConfirm gs r rLevel rQuestion in
  (effectType twist = double_next ->
   getStepsMultiplier (p_id current) (modifiers (advances k after))
   = (if Nat.eqb k 0 then val_number 2 else val_number 1))
  /\ (effectType twist = shield ->
      0 < JS.orElse (effectValue twist) 2 ->
      hasShieldProtection (p_id current) (modifiers (advances k after))
      = (Z.of_nat k + 1 <? JS.orElse (effectValue twist) 2)).
Proof.
  intros Htwist Hcur Hchoice Hflag after.
  unfold after, handleTwistConfirm. rewrite Htwist, Hcur.
  unfold executeImmediateTwist. rewrite Hchoice.
  split.
  - intros Heffect. rewrite Heffect.
    cbn [r_players r_stars r_addModifier r_extraTurnPending r_reverseOrder
         showChoicePopup goToBonusQuestion goToSpinning goToNextTurn].
    rewrite multiplier_by_key.
    set (m := mkModifier (p_id current) mod_double_next 2
                (Some (val_number 2))).
    rewrite (added_then_advanced gs _ m k Hflag); try reflexivity;
      try assumption; try discriminate.
    cbn [turnsRemaining m].
    destruct k as [|k].
    + cbn [Z.of_nat Z.add Z.ltb Z.compare Pos.compare Pos.compare_cont
           Z.sub Z.opp Z.pos_sub Pos.pred_double Nat.eqb Pos.add].
      unfold getStepsMultiplier, JS.find_first.
      cbn [find playerId m_type turnsRemaining m_value m].
      rewrite String.eqb_refl. reflexivity.
    + replace (Z.of_nat (S k) + 1 <? 2) with false
        by (symmetry; apply Z.ltb_ge; lia).
      reflexivity.
  - intros Heffect Hv. rewrite Heffect.
    cbn [r_players r_stars r_addModifier r_extraTurnPending r_reverseOrder
         showChoicePopup goToBonusQuestion goToSpinning goToNextTurn].
    rewrite shield_by_key.
    set (m := mkModifier (p_id current) mod_shield
                (JS.orElse (effectValue twist) 2) None).
    rewrite (added_then_advanced gs _ m k Hflag); try reflexivity;
      try assumption; try discriminate.
    cbn [turnsRemaining m].
    destruct (Z.ltb_spec (Z.of_nat k + 1) (JS.orElse (effectValue twist) 2))
      as [Hlt|Hge]; [|reflexivity].
    unfold hasShieldProtection. cbn [existsb playerId m_type
      turnsRemaining m].
    rewrite String.eqb_refl. cbn [modtype_eqb andb orb].
    rewrite orb_false_r. apply Z.gtb_lt. lia.
Qed.

Lemma confirmed_modifier_lifetime_witness :
  (activeTwist (setActiveTwist (Some (cardAt 13)) threeAtStart)
   = Some (cardAt 13)
   /\ currentTurnPlayer (setActiveTwist (Some (cardAt 13)) threeAtStart)
      = Some dana
   /\ requiresChoice (cardAt 13) = false
   /\ extraTurnPending (setActiveTwist (Some (cardAt 13)) threeAtStart)
      = false
   /\ effectType (cardAt 13) = double_next)
  /\ getStepsMultiplier (p_id dana)
       (modifiers
          (advances 0
             (handleTwistConfirm
                (setActiveTwist (Some (cardAt 13)) threeAtStart) 0 0 0)))
     = val_number 2.
Proof.
  split; [repeat split; reflexivity|].
  exact (proj1 (confirmed_modifier_lifetime
                  (setActiveTwist (Some (cardAt 13)) threeAtStart)
                  (cardAt 13) dana 0 0 0 0
                  eq_refl eq_refl eq_refl eq_refl) eq_refl).
Defined.

(** X27: where the extra turn goes.  When the current player confirms an
    extra_turn card (nobody frozen, no extra turn pending before), the
    turn advance that follows is the one of the render that showed the
    card: it reads the flag as not set, so it passes the turn to the next
    player in the play order and leaves the flag set.  The flag is used
    by the advance after that one, which keeps the turn where it is and
    clears the flag: the player after the one who drew the card plays
    twice in a row. *)
Theorem extra_turn_card (gs : GameState) (twist : TwistCard)
  (current : Player) (r rLevel rQuestion : nat) :
  activeTwist gs = Some twist ->
  currentTurnPlayer gs = Some current ->
  requiresChoice twist = false ->
  effectType twist = extra_turn ->
  calm gs ->
  let after := handleTwistConfirm gs r rLevel rQuestion in
  let again := advance after in
  (currentTurnIndex after
   = advanceIndex (playOrderReversed gs)
       (Z.of_nat (length (players gs))) (currentTurnIndex gs)
   /\ extraTurnPending after = true
   /\ modifiers after = tickModifiers (modifiers gs))
  /\ (currentTurnIndex again = currentTurnIndex after
      /\ extraTurnPending again = false
      /\ modifiers again = modifiers after
      /\ gamePhase again = phase_spinning).
Proof.
  intros Htwist Hcur Hchoice Heffect [Hflag Hfree] after again.
  assert (Hafter : after
                   = handleNextTurn gs
                       (setActiveTwist None (setExtraTurnPending true gs))).
  { unfold after, handleTwistConfirm. rewrite Htwist, Hcur.
    unfold executeImmediateTwist. rewrite Hchoice, Heffect. reflexivity. }
  destruct (handleNextTurn_turn gs
              (setActiveTwist None (setExtraTurnPending true gs)) Hflag)
    as (Hindex & Hstore & Hextra & _).
  rewrite <- Hafter in Hindex, Hstore, Hextra.
  rewrite skipFrozen_calm in Hindex, Hstore by assumption.
  cbn [fst snd] in Hindex, Hstore. cbn in Hextra.
  change (modifiers (setActiveTwist None (setExtraTurnPending true gs)))
    with (modifiers gs) in Hstore.
  split; [repeat split; assumption|].
  unfold again, advance, handleNextTurn. rewrite Hextra. cells.
  repeat split; reflexivity.
Qed.

Lemma extra_turn_card_witness :
  (activeTwist (setActiveTwist (Some (cardAt 17)) threeAtStart)
   = Some (cardAt 17)
   /\ currentTurnPlayer (setActiveTwist (Some (cardAt 17)) threeAtStart)
      = Some dana
   /\ requiresChoice (cardAt 17) = false
   /\ effectType (cardAt 17) = extra_turn
   /\ calm (setActiveTwist (Some (cardAt 17)) threeAtStart))
  /\ currentTurnIndex
       (handleTwistConfirm
          (setActiveTwist (Some (cardAt 17)) threeAtStart) 0 0 0) = 1
  /\ currentTurnIndex
       (advance
          (handleTwistConfirm
             (setActiveTwist (Some (cardAt 17)) threeAtStart) 0 0 0)) = 1.
Proof.
  assert (Hc : calm (setActiveTwist (Some (cardAt 17)) threeAtStart))
    by (split; [reflexivity|intros pid; reflexivity]).
  split; [repeat split; try reflexivity; apply Hc|].
  pose proof (extra_turn_card
                (setActiveTwist (Some (cardAt 17)) threeAtStart)
                (cardAt 17) dana 0 0 0 eq_refl eq_refl eq_refl eq_refl Hc)
    as H.
  cbv zeta in H. destruct H as [(Hi & _) (Ha & _)].
  split; [exact Hi|]. rewrite Ha. exact Hi.
Defined.

End WheelAndTwists.
Section StarOwnership.

Lemma owned_app (pid : string) (l1 l2 : list StarState) :
  owned pid (l1 ++ l2) = owned pid l1 + owned pid l2.
Proof. unfold owned. rewrite filter_app, length_app. lia. Qed.

Lemma owned_cons (pid : string) (s : StarState) (l : list StarState) :
  owned pid (s :: l) = (if ownedBy pid s then 1 else 0) + owned pid l.
Proof.
  unfold owned. cbn [filter]. destruct (ownedBy pid s); cbn [length]; lia.
Qed.

Lemma owned_keeps (pid : string) (g : StarState -> StarState)
  (stars : list StarState) :
  (forall s, earnedByPlayerId (g s) = earnedByPlayerId s) ->
  owned pid (map g stars) = owned pid stars.
Proof.
  intros H. induction stars as [|s stars IH]; [reflexivity|].
  cbn [map]. rewrite !owned_cons, IH. unfold ownedBy. now rewrite H.
Qed.

Lemma owned_update (pid : string) (stars : list StarState) (x : StarState)
  (g : StarState -> StarState) :
  NoDup (map s_id stars) -> In x stars ->
  owned pid (map (fun s => if s_id s =? s_id x then g s else s) stars)
  = owned pid stars + (if ownedBy pid (g x) then 1 else 0)
    - (if ownedBy pid x then 1 else 0).
Proof.
  intros Hnodup Hin.
  destruct (stars_split stars x Hnodup Hin) as [before [after [-> Hmap]]].
  rewrite Hmap, !owned_app, !owned_cons. lia.
Qed.

(* the stars after one of them has been rewritten *)
Lemma rewritten_star (stars : list StarState) (x : StarState)
  (g : StarState -> StarState) (s' : StarState) :
  NoDup (map s_id stars) -> In x stars ->
  In s' (map (fun s => if s_id s =? s_id x then g s else s) stars) ->
  s' = g x \/ In s' stars.
Proof.
  intros Hnodup Hin Hs'.
  destruct (stars_split stars x Hnodup Hin) as [before [after [-> Hmap]]].
  rewrite Hmap in Hs'. apply in_app_iff in Hs'.
  destruct Hs' as [Hs'|[Hs'|Hs']].
  - right. apply in_app_iff. now left.
  - left. now symmetry.
  - right. apply in_app_iff. right. now right.
Qed.

Lemma unearned_no_owner (b : Board) (s : StarState) (pid : string) :
  countersMatch b -> In s (snd b) -> isEarned s = false ->
  ownedBy pid s = false.
Proof.
  intros [Hflag _] Hin Hfree. specialize (Hflag s Hin).
  rewrite Hfree in Hflag. unfold ownedBy.
  destruct (earnedByPlayerId s); [discriminate|reflexivity].
Qed.

Lemma ownedBy_owner (pid : string) (s : StarState) :
  ownedBy pid s = true -> earnedByPlayerId s = Some pid.
Proof.
  unfold ownedBy. destruct (earnedByPlayerId s) as [owner|];
    [|discriminate].
  intros E. apply String.eqb_eq in E. now subst.
Qed.

(* players rewritten without a change of id or star counter *)
Lemma counters_players_kept (players : list Player)
  (stars : list StarState) (g : Player -> Player) :
  (forall p, p_id (g p) = p_id p
             /\ starsCollected (g p) = starsCollected p) ->
  countersMatch (players, stars) -> countersMatch (map g players, stars).
Proof.
  intros Hg (Hflag & Howner & Hcount). cbn [fst snd] in *.
  split; [exact Hflag|]. split.
  - intros s pid Hs E. cbn [fst snd].
    rewrite map_keeps by (intros p; apply Hg). now apply (Howner s).
  - intros p' Hp'. cbn [fst snd] in *.
    apply in_map_iff in Hp'. destruct Hp' as [p [<- Hp]].
    destruct (Hg p) as [-> ->]. now apply Hcount.
Qed.

(* stars rewritten without a change of flag or owner *)
Lemma counters_stars_kept (players : list Player) (stars : list StarState)
  (h : StarState -> StarState) :
  (forall s, isEarned (h s) = isEarned s
             /\ earnedByPlayerId (h s) = earnedByPlayerId s) ->
  countersMatch (players, stars) -> countersMatch (players, map h stars).
Proof.
  intros Hh (Hflag & Howner & Hcount). cbn [fst snd] in *.
  split; [|split]; cbn [fst snd].
  - intros s' Hs'. apply in_map_iff in Hs'. destruct Hs' as [s [<- Hs]].
    destruct (Hh s) as [-> ->]. now apply Hflag.
  - intros s' pid Hs' E. apply in_map_iff in Hs'.
    destruct Hs' as [s [<- Hs]]. rewrite (proj2 (Hh s)) in E.
    now apply (Howner s).
  - intros p Hp. rewrite owned_keeps by (intros s; apply Hh).
    now apply Hcount.
Qed.

(* giving an unearned star to a player *)
Lemma counters_award (players : list Player) (stars : list StarState)
  (player : Player) (star : StarState) :
  NoDup (map p_id players) -> NoDup (map s_id stars) ->
  In player players -> In star stars -> isEarned star = false ->
  countersMatch (players, stars) ->
  countersMatch (awardPlayers star (p_id player) players,
                 awardStars star (p_id player) stars).
Proof.
  intros Hplayers Hstars Hplayer Hstar Hfree Hmatch.
  pose proof Hmatch as (Hflag & Howner & Hcount). cbn [fst snd] in *.
  assert (Hids : map p_id (awardPlayers star (p_id player) players)
                 = map p_id players).
  { unfold awardPlayers, mapPlayer. apply map_keeps. intros p.
    destruct (String.eqb (p_id p) (p_id player)); reflexivity. }
  unfold awardStars.
  split; [|split]; cbn [fst snd].
  - intros s' Hs'.
    destruct (rewritten_star stars star
                (fun s => earnedNowBy s (p_id player)) s' Hstars Hstar Hs')
      as [->|Hin]; [reflexivity | now apply Hflag].
  - intros s' pid Hs' E. rewrite Hids.
    destruct (rewritten_star stars star
                (fun s => earnedNowBy s (p_id player)) s' Hstars Hstar Hs')
      as [->|Hin]; [|now apply (Howner s')].
    cbn in E. inversion E; subst pid. now apply in_map.
  - intros p' Hp'.
    rewrite (owned_update (p_id p') stars star
               (fun s => earnedNowBy s (p_id player))) by assumption.
    rewrite (unearned_no_owner (players, stars) star (p_id p') Hmatch
               Hstar Hfree).
    unfold awardPlayers, mapPlayer in Hp'. apply in_map_iff in Hp'.
    destruct Hp' as [p [<- Hp]].
    unfold ownedBy, earnedNowBy. cbn [earnedByPlayerId].
    destruct (String.eqb_spec (p_id p) (p_id player)) as [E|N].
    + cbn [p_id starsCollected withScoreAndStars]. rewrite E.
      rewrite String.eqb_refl. rewrite <- E, (Hcount p Hp). lia.
    + destruct (String.eqb_spec (p_id player) (p_id p)) as [E'|_];
        [congruence|]. rewrite (Hcount p Hp). lia.
Qed.

(* moving a star from its owner to another player *)
Lemma counters_steal (players : list Player) (stars : list StarState)
  (current target : Player) (randomStar : StarState) :
  NoDup (map p_id players) -> NoDup (map s_id stars) ->
  In current players -> In target players ->
  p_id target <> p_id current ->
  In randomStar stars -> ownedBy (p_id target) randomStar = true ->
  countersMatch (players, stars) ->
  countersMatch (stealPlayers randomStar current target players,
                 stealStars randomStar current stars).
Proof.
  intros Hplayers Hstars Hcurrent Htarget Hdistinct Hstar Hheld Hmatch.
  pose proof Hmatch as (Hflag & Howner & Hcount). cbn [fst snd] in *.
  pose proof (ownedBy_owner _ _ Hheld) as Hof.
  assert (Hids : map p_id (stealPlayers randomStar current target players)
                 = map p_id players).
  { unfold stealPlayers. apply map_keeps. intros p.
    destruct (String.eqb (p_id p) (p_id target)); [reflexivity|].
    destruct (String.eqb (p_id p) (p_id current)); reflexivity. }
  unfold stealStars.
  split; [|split]; cbn [fst snd].
  - intros s' Hs'.
    destruct (rewritten_star stars randomStar
                (fun s => withOwner s (p_id current)) s' Hstars Hstar Hs')
      as [->|Hin]; [|now apply Hflag].
    cbn. rewrite (Hflag randomStar Hstar), Hof. reflexivity.
  - intros s' pid Hs' E. rewrite Hids.
    destruct (rewritten_star stars randomStar
                (fun s => withOwner s (p_id current)) s' Hstars Hstar Hs')
      as [->|Hin]; [|now apply (Howner s')].
    cbn in E. inversion E; subst pid. now apply in_map.
  - intros p' Hp'.
    rewrite (owned_update (p_id p') stars randomStar
               (fun s => withOwner s (p_id current))) by assumption.
    unfold stealPlayers in Hp'. apply in_map_iff in Hp'.
    destruct Hp' as [p [<- Hp]].
    unfold ownedBy, withOwner. cbn [earnedByPlayerId]. rewrite Hof.
    destruct (String.eqb_spec (p_id p) (p_id target)) as [E|N].
    + cbn [p_id starsCollected withScoreAndStars]. rewrite E.
      rewrite String.eqb_refl.
      destruct (String.eqb_spec (p_id current) (p_id target)) as [E'|_];
        [congruence|]. rewrite <- E, (Hcount p Hp). lia.
    + destruct (String.eqb_spec (p_id p) (p_id current)) as [E|N'].
      * cbn [p_id starsCollected withScoreAndStars]. rewrite E.
        rewrite String.eqb_refl.
        destruct (String.eqb_spec (p_id target) (p_id current)) as [E'|_];
          [congruence|]. rewrite <- E, (Hcount p Hp). lia.
      * destruct (String.eqb_spec (p_id current) (p_id p)) as [E'|_];
          [congruence|].
        destruct (String.eqb_spec (p_id target) (p_id p)) as [E'|_];
          [congruence|]. rewrite (Hcount p Hp). lia.
Qed.

Lemma apply_keeps_owners (e : Event) (b : Board) :
  sound b -> enabled e b = true ->
  countersMatch b -> countersMatch (apply e b).
Proof.
  intros [Hplayers [Hstars _]] Henabled Hmatch.
  destruct b as [players stars]. cbn [fst snd] in *.
  destruct e as [who steps | who which | ci turn r | ci turn target r
                | turn gate | turn which]; cbn [apply enabled] in *.
  - destruct (nth_error players who) as [player|]; [|exact Hmatch].
    unfold placePlayer, mapPlayer.
    apply counters_players_kept; [|exact Hmatch].
    intros p. destruct (String.eqb (p_id p) (p_id player)); now split.
  - destruct (nth_error players who) as [player|] eqn:Hwho;
      [|exact Hmatch].
    unfold unearnedAt in Henabled.
    destruct (nth_error stars which) as [star|] eqn:Hwhich;
      [|exact Hmatch].
    cbn [present andb] in Henabled. apply negb_true_iff in Henabled.
    apply counters_award; eauto using nth_error_In.
  - destruct (nth_error TWIST_CARDS ci) as [twist|]; [|exact Hmatch].
    destruct (nth_error players turn) as [current|]; [|exact Hmatch].
    assert (Hup : forall z s,
               isEarned (upgraded z s) = isEarned s
               /\ earnedByPlayerId (upgraded z s) = earnedByPlayerId s).
    { intros z s. unfold upgraded. destruct (s_id s =? s_id z); now split. }
    unfold orKeep.
    destruct (r_players _) as [players'|] eqn:Hp;
      destruct (r_stars _) as [stars'|] eqn:Hs.
    + destruct (twist_players _ _ _ _ _ _ Hp) as [g [-> Hg]].
      destruct (twist_stars _ _ _ _ _ _ Hs) as [_ [z [_ [_ ->]]]].
      apply counters_players_kept; [intros p; apply Hg|].
      apply counters_stars_kept; [apply Hup | exact Hmatch].
    + destruct (twist_players _ _ _ _ _ _ Hp) as [g [-> Hg]].
      apply counters_players_kept; [intros p; apply Hg | exact Hmatch].
    + destruct (twist_stars _ _ _ _ _ _ Hs) as [_ [z [_ [_ ->]]]].
      apply counters_stars_kept; [apply Hup | exact Hmatch].
    + exact Hmatch.
  - destruct (nth_error TWIST_CARDS ci) as [twist|]; [|exact Hmatch].
    destruct (nth_error players turn) as [current|] eqn:Hturn;
      [|exact Hmatch].
    destruct (nth_error players target) as [targetPlayer|] eqn:Htarget;
      [|exact Hmatch].
    apply andb_true_iff in Henabled. destruct Henabled as [Henabled _].
    apply andb_true_iff in Henabled. destruct Henabled as [_ Hdistinct].
    apply negb_true_iff, String.eqb_neq in Hdistinct.
    destruct (effectType twist); try exact Hmatch.
    + destruct (JS.pick r _) as [randomStar|] eqn:Hpick; [|exact Hmatch].
      apply pick_in, filter_In in Hpick. destruct Hpick as [Hin Hheld].
      apply counters_steal; eauto using nth_error_In.
    + unfold swapPositions. apply counters_players_kept; [|exact Hmatch].
      intros p. destruct (String.eqb (p_id p) (p_id current));
        [now split|].
      destruct (String.eqb (p_id p) (p_id targetPlayer)); now split.
    + destruct (score current <? score targetPlayer); [|exact Hmatch].
      unfold swapScores. apply counters_players_kept; [|exact Hmatch].
      intros p. destruct (String.eqb (p_id p) (p_id current));
        [now split|].
      destruct (String.eqb (p_id p) (p_id targetPlayer)); now split.
  - destruct (nth_error players turn) as [current|]; [|exact Hmatch].
    unfold placePlayer, mapPlayer.
    apply counters_players_kept; [|exact Hmatch].
    intros p. destruct (String.eqb (p_id p) (p_id current)); now split.
  - destruct (nth_error players turn) as [current|] eqn:Hturn;
      [|exact Hmatch].
    unfold unearnedAt in Henabled.
    destruct (nth_error stars which) as [star|] eqn:Hwhich;
      [|exact Hmatch].
    cbn [present andb] in Henabled. apply negb_true_iff in Henabled.
    apply counters_award; eauto using nth_error_In.
Qed.

Lemma start_owners (settings : GameSettings) (shuffledValues : list Z) :
  countersMatch (createPlayersFromSettings settings,
                 createInitialStars shuffledValues).
Proof.
  assert (Hfree : forall values k s,
             In s (starsFrom k values) ->
             isEarned s = false /\ earnedByPlayerId s = None).
  { induction values as [|v values IH]; intros k s; cbn; [intros []|].
    intros [<-|Hs]; [now split | exact (IH _ s Hs)]. }
  assert (Hnone : forall pid values k, owned pid (starsFrom k values) = 0).
  { intros pid. induction values as [|v values IH]; intros k;
      [reflexivity|].
    cbn [starsFrom]. rewrite owned_cons, IH. reflexivity. }
  split; [|split]; cbn [fst snd]; unfold createInitialStars.
  - intros s Hs. destruct (Hfree _ _ _ Hs) as [-> ->]. reflexivity.
  - intros s pid Hs E. destruct (Hfree _ _ _ Hs) as [_ E']. congruence.
  - intros p Hp. rewrite Hnone.
    unfold createPlayersFromSettings in Hp. apply in_app_iff in Hp.
    destruct Hp as [Hp|Hp].
    + assert (Hh : forall names k q, In q (humansFrom k names) ->
                                      starsCollected q = 0).
      { induction names as [|name names IH]; intros k q; cbn;
          [intros []|].
        intros [<-|Hq]; [reflexivity | exact (IH _ q Hq)]. }
      exact (Hh _ _ p Hp).
    + apply in_map_iff in Hp. destruct Hp as [i [<- _]]. reflexivity.
Qed.

Lemma reachable_owners (b : Board) : reachable b -> countersMatch b.
Proof.
  induction 1 as [settings values Hperm | b e Hreach IH Henabled].
  - apply start_owners.
  - apply apply_keeps_owners; [now apply reachable_sound | assumption..].
Qed.

(** X28: the star counters agree with the board.  At every reachable
    board a star is flagged earned exactly when it names an owner, every
    owner is one of the players, and every player's starsCollected is the
    number of stars that name the player as owner: star award, free star,
    steal_star and every other handler keep the counters and the owners in
    step. *)
Theorem star_counters_match_board (b : Board) :
  reachable b ->
  (forall s, In s (snd b) -> isEarned s = present (earnedByPlayerId s))
  /\ (forall s pid, In s (snd b) -> earnedByPlayerId s = Some pid ->
                    exists p, In p (fst b) /\ p_id p = pid)
  /\ (forall p, In p (fst b) ->
                starsCollected p = owned (p_id p) (snd b)
                /\ 0 <= starsCollected p <= Z.of_nat (length (snd b))).
Proof.
  intros Hreach.
  destruct (reachable_owners b Hreach) as (Hflag & Howner & Hcount).
  split; [exact Hflag|]. split.
  - intros s pid Hs E. specialize (Howner s pid Hs E).
    apply in_map_iff in Howner. destruct Howner as [p [Hid Hp]].
    now exists p.
  - intros p Hp. rewrite (Hcount p Hp). split; [reflexivity|].
    unfold owned. pose proof (filter_length_le (ownedBy (p_id p)) (snd b)).
    lia.
Qed.

Lemma star_counters_match_board_witness :
  reachable robbedBoard
  /\ forall p, In p (fst robbedBoard) ->
               starsCollected p = owned (p_id p) (snd robbedBoard)
               /\ 0 <= starsCollected p
                  <= Z.of_nat (length (snd robbedBoard)).
Proof.
  split; [exact robbedBoard_reachable|].
  exact (proj2 (proj2 (star_counters_match_board robbedBoard
                         robbedBoard_reachable))).
Defined.

(** X29: a steal that the popup offers always takes a star.  At a
    reachable board, when the steal_star choice is offered against a
    target (another player, with starsCollected > 0), the target owns a
    star on the board, so handleTwistChoosePlayer finds one whatever
    Math.random gives: the star goes from the target to the current
    player, the target's counter goes down by one and stays at least 0,
    the current player's goes up by one, and the number of stars each of
    the two owns on the board changes with the counter. *)
Theorem steal_takes_a_star (b : Board) (cardIndex turn target r : nat)
  (twist : TwistCard) (current targetPlayer : Player) :
  reachable b ->
  nth_error TWIST_CARDS cardIndex = Some twist ->
  effectType twist = steal_star ->
  nth_error (fst b) turn = Some current ->
  nth_error (fst b) target = Some targetPlayer ->
  enabled (EvChoosePlayer cardIndex turn target r) b = true ->
  let after := apply (EvChoosePlayer cardIndex turn target r) b in
  exists randomStar,
    In randomStar (snd b)
    /\ earnedByPlayerId randomStar = Some (p_id targetPlayer)
    /\ after = (stealPlayers randomStar current targetPlayer (fst b),
                stealStars randomStar current (snd b))
    /\ nth_error (fst after) target
       = Some (withScoreAndStars targetPlayer
                 (score targetPlayer - pointValue randomStar)
                 (starsCollected targetPlayer - 1))
    /\ 0 <= starsCollected targetPlayer - 1
    /\ nth_error (fst after) turn
       = Some (withScoreAndStars current
                 (score current + pointValue randomStar)
                 (starsCollected current + 1))
    /\ owned (p_id targetPlayer) (snd after)
       = owned (p_id targetPlayer) (snd b) - 1
    /\ owned (p_id current) (snd after)
       = owned (p_id current) (snd b) + 1.
Proof.
  intros Hreach Hcard Heffect Hturn Htarget Henabled after.
  destruct (reachable_sound b Hreach) as [Hplayers [Hstars _]].
  pose proof (reachable_owners b Hreach) as Hmatch.
  pose proof Hmatch as (Hflag & Howner & Hcount).
  destruct b as [players stars]. cbn [fst snd] in *.
  unfold after. cbn [apply enabled] in *.
  rewrite Hcard, Hturn, Htarget in *. rewrite Heffect in *.
  apply andb_true_iff in Henabled. destruct Henabled as [Henabled Hsome].
  apply andb_true_iff in Henabled. destruct Henabled as [_ Hdistinct].
  apply negb_true_iff in Hdistinct. apply Z.gtb_lt in Hsome.
  pose proof (proj1 (String.eqb_neq _ _) Hdistinct) as Hother.
  assert (Hne : filter (ownedBy (p_id targetPlayer)) stars <> []).
  { intros E. rewrite (Hcount targetPlayer (nth_error_In _ _ Htarget))
      in Hsome. unfold owned in Hsome. rewrite E in Hsome.
    cbn in Hsome. lia. }
  destruct (pick_nonempty r _ Hne) as [randomStar [Hpick Hin]].
  rewrite Hpick. cbn [fst snd]. apply filter_In in Hin.
  destruct Hin as [Hin Hheld].
  pose proof (ownedBy_owner _ _ Hheld) as Hof.
  exists randomStar.
  split; [exact Hin|]. split; [exact Hof|]. split; [reflexivity|].
  unfold stealPlayers, stealStars.
  rewrite !nth_error_map, Hturn, Htarget. cbn [option_map].
  rewrite String.eqb_refl.
  replace (String.eqb (p_id current) (p_id targetPlayer)) with false
    by (symmetry; apply String.eqb_neq; congruence).
  rewrite String.eqb_refl.
  split; [reflexivity|]. split; [lia|]. split; [reflexivity|].
  rewrite !(owned_update _ stars randomStar
              (fun s => withOwner s (p_id current))) by assumption.
  unfold ownedBy, withOwner. cbn [earnedByPlayerId]. rewrite Hof.
  rewrite !String.eqb_refl, Hdistinct.
  replace (String.eqb (p_id current) (p_id targetPlayer)) with false
    by (symmetry; apply String.eqb_neq; congruence).
  split; lia.
Qed.

Lemma steal_takes_a_star_witness :
  (reachable omerAhead
   /\ nth_error TWIST_CARDS 7 = Some (cardAt 7)
   /\ effectType (cardAt 7) = steal_star
   /\ nth_error (fst omerAhead) 0 = Some dana
   /\ nth_error (fst omerAhead) 1 = Some (withScoreAndStars omer 250 1)
   /\ enabled (EvChoosePlayer 7 0 1 0) omerAhead = true)
  /\ exists randomStar,
       In randomStar (snd omerAhead)
       /\ nth_error (fst (apply (EvChoosePlayer 7 0 1 0) omerAhead)) 1
          = Some (withScoreAndStars (withScoreAndStars omer 250 1)
                    (250 - pointValue randomStar) 0).
Proof.
  split; [repeat split; try reflexivity; exact omerAhead_reachable|].
  destruct (steal_takes_a_star omerAhead 7 0 1 0 (cardAt 7) dana
              (withScoreAndStars omer 250 1) omerAhead_reachable
              eq_refl eq_refl eq_refl eq_refl eq_refl)
    as (randomStar & Hin & _ & _ & Hthen & _).
  exists randomStar. split; [exact Hin | exact Hthen].
Defined.

End StarOwnership.
